(** * droid-apikey-usage: the aggregation core of [main.ts]

    A shallow embedding of the server-side usage fetcher
    ([fetchApiKeyData]), of the snapshot assembly ([getAggregatedData])
    and of the browser-side [ConcurrentTaskRunner], followed by the
    properties of the specification that were checked against them.

    Conventions of the embedding
    - JavaScript strings are [string]; [s.substring(a, b)] clamps its
      arguments to the length of [s], exactly as [substring] does.
    - Token counts are integers ([Z]); a field that the upstream payload
      does not carry is [None] (JavaScript [undefined]).  Arithmetic that
      meets [undefined] yields [NaN], which is kept apart in [num].
    - [await]ed platform calls ([fetch], [response.text()],
      [response.json()]) either produce a value or throw; what they
      produce is read from a [World].  Console output and issued requests
      are accumulated in [Effects].
    - The rest of the server follows the aggregation: the credential
      store with batch import and deletion, the sessions and [handler]
      run in a second monad, whose state adds the sessions and whose
      platform adds the clock, the session ids and the writes that the
      store rejects.  Of the browser script the key cache, paging, the
      status of a card, the clean-up filter and the selection of rows
      are embedded as functions of the values they read. *)

From Stdlib Require Import ZArith QArith_base String Ascii List Lia Bool.
From Stdlib Require Import OrderedTypeEx Sorted.
From stdpp Require Import base list strings pretty gmap.
Local Close Scope Q_scope.
Local Open Scope string_scope.

(** ** Values thrown by JavaScript code *)

(** What a [catch (error)] clause can receive.  [error.message] is a string
    for an [Error] object, [undefined] for any other non-nullish value, and
    reading it from [null] or [undefined] throws a [TypeError]. *)
Inductive Thrown :=
| ErrorObject (message : string)
| OtherValue
| Nullish.

(** ** Server side: storage entries, upstream payload, results *)

Module ApiKeyEntry.
Record t := { id : string; key : string; name : option string; createdAt : Z }.
End ApiKeyEntry.

Record StandardUsage := {
  orgTotalTokensUsed : option Z;
  totalAllowance : option Z;
  usedRatio : option Q
}.

Record UsageInfo := {
  startDate : option Z;
  endDate : option Z;
  standard : option StandardUsage
}.

(** The value [response.json()] resolves to.  [JsonNull] is the JSON text
    [null]; every other value is an object whose [usage] property is
    either falsy/absent ([None]) or a usage record. *)
Inductive ApiData :=
| JsonNull
| JsonValue (usage : option UsageInfo).

Record Response := {
  status : nat;
  text : Thrown + string;
  json : Thrown + ApiData
}.

Definition ok (response : Response) : bool :=
  (200 <=? status response)%nat && (status response <=? 299)%nat.

Record Request := {
  url : string;
  authorization : string;
  userAgent : string
}.

(** One element of the [data] array of a snapshot. *)
Inductive UsageResult :=
| OkEntry (id key startDate endDate : string)
          (orgTotalTokensUsed totalAllowance : option Z) (usedRatio : option Q)
| ErrEntry (id key error : string).

Definition result_id (r : UsageResult) : string :=
  match r with OkEntry id _ _ _ _ _ _ => id | ErrEntry id _ _ => id end.

Definition result_key (r : UsageResult) : string :=
  match r with OkEntry _ key _ _ _ _ _ => key | ErrEntry _ key _ => key end.

(** [r.error]: [undefined] on a usage entry. *)
Definition result_error (r : UsageResult) : option string :=
  match r with OkEntry _ _ _ _ _ _ _ => None | ErrEntry _ _ error => Some error end.

Definition result_used (r : UsageResult) : option Z :=
  match r with OkEntry _ _ _ _ used _ _ => used | ErrEntry _ _ _ => None end.

Definition result_allowance (r : UsageResult) : option Z :=
  match r with OkEntry _ _ _ _ _ allowance _ => allowance | ErrEntry _ _ _ => None end.

Definition result_usedRatio (r : UsageResult) : option Q :=
  match r with OkEntry _ _ _ _ _ _ ratio => ratio | ErrEntry _ _ _ => None end.

(** ** Effects *)

Inductive ConsoleArg :=
| Text (s : string)
| Caught (error : Thrown).

Inductive ConsoleLine :=
| console_log (args : list ConsoleArg)
| console_error (args : list ConsoleArg).

Definition console_args (l : ConsoleLine) : list ConsoleArg :=
  match l with console_log args => args | console_error args => args end.

(** Everything outside the program: the upstream provider, the clock and
    the two date formatters of the platform. *)
Record World := {
  upstream : Request -> Thrown + Response;
  now : Z;
  toISODate : Z -> string;
  format : Z -> string
}.

(** The store, the calls of [fetch] made so far (with the header values
    the code passes, in the order of the calls) and the console. *)
Record Effects := {
  kv : list ApiKeyEntry.t;
  requests : list Request;
  console : list ConsoleLine
}.

Inductive Completion (A : Type) :=
| Normal (a : A)
| Throw (error : Thrown).
Arguments Normal {A} a.
Arguments Throw {A} error.

Definition Async (A : Type) : Type := World -> Effects -> Completion A * Effects.

Definition ret {A} (a : A) : Async A := fun _ fx => (Normal a, fx).

Definition throw {A} (error : Thrown) : Async A := fun _ fx => (Throw error, fx).

Definition bind {A B} (m : Async A) (k : A -> Async B) : Async B :=
  fun w fx =>
    match m w fx with
    | (Normal a, fx') => k a w fx'
    | (Throw error, fx') => (Throw error, fx')
    end.

Definition try_catch {A} (body : Async A) (handler : Thrown -> Async A) : Async A :=
  fun w fx =>
    match body w fx with
    | (Normal a, fx') => (Normal a, fx')
    | (Throw error, fx') => handler error w fx'
    end.

Notation "'let*' x ':=' m 'in' k" := (bind m (fun x => k))
  (at level 10, x name, m at level 99, k at level 200).
Notation "m ';;' k" := (bind m (fun _ => k))
  (at level 100, k at level 200, right associativity).

(** [await] of a settled platform promise. *)
Definition await {A} (settled : Thrown + A) : Async A :=
  match settled with inl error => throw error | inr a => ret a end.

Definition ask : Async World := fun w fx => (Normal w, fx).

Definition fetch (request : Request) : Async Response :=
  fun w fx =>
    let fx' := {| kv := kv fx; requests := requests fx ++ [request]; console := console fx |} in
    await (upstream w request) w fx'.

Definition write_console (line : ConsoleLine) : Async unit :=
  fun _ fx =>
    (Normal tt, {| kv := kv fx; requests := requests fx; console := console fx ++ [line] |}).

Definition getAllApiKeys : Async (list ApiKeyEntry.t) := fun _ fx => (Normal (kv fx), fx).

(** [await Promise.all(xs.map(f))]: [map] calls [f] on every element in
    turn, whatever the earlier calls do, so the effects of all calls take
    place; the combined promise yields the results in the order of [xs],
    or throws if one of the calls threw. *)
Fixpoint promise_all_map {A B} (f : A -> Async B) (xs : list A) : Async (list B) :=
  fun w fx =>
    match xs with
    | [] => (Normal [], fx)
    | x :: xs' =>
      let '(c, fx1) := f x w fx in
      let '(cs, fx2) := promise_all_map f xs' w fx1 in
      (match c, cs with
       | Normal y, Normal ys => Normal (y :: ys)
       | Throw error, _ => Throw error
       | Normal _, Throw error => Throw error
       end, fx2)
    end.

Fixpoint forEach {A} (f : A -> Async unit) (xs : list A) : Async unit :=
  match xs with
  | [] => ret tt
  | x :: xs' => f x ;; forEach f xs'
  end.

(** ** [fetchApiKeyData] *)

Definition usage_url : string := "https://app.factory.ai/api/organization/members/chat-usage".

Definition user_agent : string :=
  "Mozilla/5.0 (Macintosh; Intel Mac OS X 10_15_7) AppleWebKit/537.36 (KHTML, like Gecko) Chrome/141.0.0.0 Safari/537.36".

Definition usage_request (key : string) : Request :=
  {| url := usage_url; authorization := "Bearer " ++ key; userAgent := user_agent |}.

(** [`${key.substring(0, 4)}...`] *)
Definition key_prefix (key : string) : string := substring 0 4 key ++ "...".

(** [`${key.substring(0, 4)}...${key.substring(key.length - 4)}`]; for a
    key shorter than four characters [key.length - 4] is negative and
    [substring] starts at 0, which the truncated subtraction reproduces. *)
Definition maskedKey (key : string) : string :=
  substring 0 4 key ++ "..." ++
  substring (String.length key - 4) (String.length key - (String.length key - 4)) key.

(** Largest magnitude of a time value that [new Date(t)] accepts;
    [toISOString] throws a [RangeError] beyond it. *)
Definition max_time_value : Z := 8640000000000000.

Definition formatDate (w : World) (timestamp : option Z) : string :=
  match timestamp with
  | None => "N/A"
  | Some t => if (Z.abs t <=? max_time_value)%Z then toISODate w t else "Invalid Date"
  end.

Definition fetchApiKeyData (id key : string) : Async UsageResult :=
  try_catch
    (let* response := fetch (usage_request key) in
     if negb (ok response) then
       let* errorBody := await (text response) in
       write_console (console_error
         [Text ("Error fetching data for key ID " ++ id ++ ": "
                ++ pretty (status response) ++ " " ++ errorBody)]) ;;
       ret (ErrEntry id (key_prefix key) ("HTTP " ++ pretty (status response)))
     else
       let* apiData := await (json response) in
       match apiData with
       | JsonNull => throw (ErrorObject "Cannot read properties of null (reading 'usage')")
       | JsonValue None => ret (ErrEntry id (key_prefix key) "Invalid API response structure")
       | JsonValue (Some usageInfo) =>
         match standard usageInfo with
         | None => ret (ErrEntry id (key_prefix key) "Invalid API response structure")
         | Some standardUsage =>
           let* w := ask in
           ret (OkEntry id (maskedKey key)
                  (formatDate w (startDate usageInfo))
                  (formatDate w (endDate usageInfo))
                  (orgTotalTokensUsed standardUsage)
                  (totalAllowance standardUsage)
                  (usedRatio standardUsage))
         end
       end)
    (fun error =>
       write_console (console_error [Text ("Failed to process key ID " ++ id ++ ":"); Caught error]) ;;
       ret (ErrEntry id (key_prefix key) "Failed to fetch")).

(** ** [getAggregatedData] *)

(** JavaScript numbers as far as the totals need them. *)
Inductive num :=
| Num (z : Z)
| NaN.

(** [x || 0] on a field that is a number or [undefined]. *)
Definition or0 (x : option Z) : Z :=
  match x with Some z => z | None => 0%Z end.

(** [a - b]: [NaN] as soon as one operand is [undefined]. *)
Definition js_sub (a b : option Z) : num :=
  match a, b with
  | Some x, Some y => Num (x - y)
  | _, _ => NaN
  end.

(** [Math.max(x, 0)] *)
Definition Math_max0 (x : num) : num :=
  match x with Num z => Num (Z.max z 0) | NaN => NaN end.

Definition num_add (x y : num) : num :=
  match x, y with
  | Num a, Num b => Num (a + b)
  | _, _ => NaN
  end.

Record Totals := {
  total_orgTotalTokensUsed : Z;
  total_totalAllowance : Z;
  total_tokensRemaining : num
}.

Record Snapshot := {
  update_time : string;
  total_count : nat;
  totals : Totals;
  data : list UsageResult
}.

(** Truthiness of [r.error]: [undefined] and the empty string are falsy. *)
Definition truthy_error (r : UsageResult) : bool :=
  match result_error r with
  | None => false
  | Some e => negb (String.eqb e "")
  end.

(** [results.filter(r => !r.error)] *)
Definition validResults (results : list UsageResult) : list UsageResult :=
  List.filter (fun r => negb (truthy_error r)) results.

Definition totals_init : Totals :=
  {| total_orgTotalTokensUsed := 0; total_totalAllowance := 0; total_tokensRemaining := Num 0 |}.

(** The callback of [validResults.reduce]. *)
Definition totals_step (acc : Totals) (res : UsageResult) : Totals :=
  {| total_orgTotalTokensUsed := total_orgTotalTokensUsed acc + or0 (result_used res);
     total_totalAllowance := total_totalAllowance acc + or0 (result_allowance res);
     total_tokensRemaining :=
       num_add (total_tokensRemaining acc)
               (Math_max0 (js_sub (result_allowance res) (result_used res))) |}.

Definition compute_totals (results : list UsageResult) : Totals :=
  fold_left totals_step (validResults results) totals_init.

(** [validResults.filter(r => remaining > 0)] with
    [remaining = (r.totalAllowance || 0) - (r.orgTotalTokensUsed || 0)]. *)
Definition has_balance (r : UsageResult) : bool :=
  (0 <? or0 (result_allowance r) - or0 (result_used r))%Z.

Definition keysWithBalance (results : list UsageResult) : list UsageResult :=
  List.filter has_balance (validResults results).

Definition nl : string := String (ascii_of_nat 10) EmptyString.

(** [s.repeat(n)] *)
Fixpoint js_repeat (s : string) (n : nat) : string :=
  match n with
  | O => ""
  | S n' => s ++ js_repeat s n'
  end.

(** [keyEntries.find(e => e.id === item.id)] *)
Definition find_entry (keyEntries : list ApiKeyEntry.t) (item : UsageResult) : option ApiKeyEntry.t :=
  List.find (fun e => String.eqb (ApiKeyEntry.id e) (result_id item)) keyEntries.

Definition log_original_key (keyEntries : list ApiKeyEntry.t) (item : UsageResult) : Async unit :=
  match find_entry keyEntries item with
  | Some originalEntry => write_console (console_log [Text (ApiKeyEntry.key originalEntry)])
  | None => ret tt
  end.

Definition no_keys_message : string :=
  "No API keys found in storage. Please import keys first.".

Definition getAggregatedData : Async Snapshot :=
  let* keyEntries := getAllApiKeys in
  if (length keyEntries =? 0)%nat then throw (ErrorObject no_keys_message)
  else
    let* results :=
      promise_all_map
        (fun entry => fetchApiKeyData (ApiKeyEntry.id entry) (ApiKeyEntry.key entry))
        keyEntries in
    let* w := ask in
    let beijingTime := (now w + 8 * 60 * 60 * 1000)%Z in
    (if (0 <? length (keysWithBalance results))%nat then
       write_console (console_log [Text (nl ++ js_repeat "=" 80)]) ;;
       write_console (console_log [Text "📋 剩余额度大于0的API Keys:"]) ;;
       write_console (console_log [Text (js_repeat "-" 80)]) ;;
       forEach (log_original_key keyEntries) (keysWithBalance results) ;;
       write_console (console_log [Text (js_repeat "=" 80 ++ nl)])
     else
       write_console (console_log [Text (nl ++ "⚠️  没有剩余额度大于0的API Keys" ++ nl)])) ;;
    ret {| update_time := format w beijingTime;
           total_count := length keyEntries;
           totals := compute_totals results;
           data := results |}.

(** ** Concurrency instrumentation

    A task (or an upstream call) is active from the moment it is started
    until the continuation that handles its settlement runs. *)

Inductive Event :=
| Start (i : nat)
| Finish (i : nat).

Definition delta (e : Event) : Z :=
  match e with Start _ => 1 | Finish _ => -1 end.

(** Number of active tasks after a sequence of events. *)
Definition active (events : list Event) : Z :=
  fold_right (fun e n => delta e + n)%Z 0%Z events.

(** Largest number of active tasks at any instant of a sequence of events;
    [current] is the number active before its first event. *)
Fixpoint peak_from (current : Z) (events : list Event) : Z :=
  match events with
  | [] => current
  | e :: events' => Z.max current (peak_from (current + delta e) events')
  end.

Definition peak (events : list Event) : Z := peak_from 0 events.

(** The fan-out of [getAggregatedData],
    [Promise.all(keyEntries.map(entry => fetchApiKeyData(entry.id, entry.key)))]:
    [map] calls [fetchApiKeyData] on every entry before anything is
    awaited, and each call runs up to its [await fetch(...)], so every
    request is under way before the first answer is handled.
    [completion] lists the entries in the order their answers arrive. *)
Definition fanout_events (keyEntries : list ApiKeyEntry.t) (completion : list nat) : list Event :=
  map Start (seq 0 (length keyEntries)) ++ map Finish completion.

(** ** Browser side: [ConcurrentTaskRunner] *)

(** JavaScript arrays written by index: [a[i] = x] beyond the end extends
    the array and leaves holes, which read as [undefined]. *)
Definition array_set {A} (a : list (option A)) (i : nat) (x : A) : list (option A) :=
  if decide (i < length a) then <[i := Some x]> a
  else a ++ replicate (i - length a) None ++ [Some x].

Definition array_get {A} (a : list (option A)) (i : nat) : option A :=
  match a !! i with Some (Some x) => Some x | _ => None end.

Module ConcurrentTaskRunner.

(** The object built by [constructor(concurrency = 5)]; the [queue]
    field is never read or written after construction. *)
Record t := { concurrency : nat; running : Z }.

Definition default_concurrency : nat := 5.

(** [None] is a call without argument, which takes the default. *)
Definition constructor (concurrency : option nat) : t :=
  {| concurrency := match concurrency with Some k => k | None => default_concurrency end;
     running := 0 |}.

Section Run.
Context {T : Type}.

(** A task is given by the way the promise of [task()] settles.  The
    tasks are [async] functions, as at both call sites: [task()] returns
    its promise without throwing, and how a task settles does not depend
    on when it runs. *)
Inductive Settlement :=
| Fulfilled (value : T)
| Rejected (error : Thrown).

Inductive Slot :=
| Value (value : T)
| ErrorPlaceholder (error : option string).

(** [error.message] in the [catch] clause; [None] when the property
    access itself throws. *)
Definition message_of (error : Thrown) : option (option string) :=
  match error with
  | ErrorObject message => Some (Some message)
  | OtherValue => Some None
  | Nullish => None
  end.

(** What the [try]/[catch] of [executeNext] assigns to
    [results[currentIndex]]; [None] when nothing is assigned. *)
Definition stored (settlement : Settlement) : option Slot :=
  match settlement with
  | Fulfilled value => Some (Value value)
  | Rejected error =>
    match message_of error with
    | Some message => Some (ErrorPlaceholder message)
    | None => None
    end
  end.

(** One element of [workers]: a chain of nested [executeNext] calls,
    either suspended at [await task()] or completed.  The flag records
    that a [catch] clause of the chain threw, which makes the promise
    of the outermost call reject once the chain has unwound. *)
Inductive Worker :=
| Awaiting (currentIndex : nat) (threw : bool)
| Done (threw : bool).

Record State := {
  results : list (option Slot);
  index : nat;
  this_running : Z;
  workers : list Worker;
  events : list Event
}.

Definition set_workers (workers' : list Worker) (s : State) : State :=
  {| results := results s; index := index s; this_running := this_running s;
     workers := workers'; events := events s |}.

(** [executeNext] from its entry up to [await task()], or to its
    [return] when no task is left. *)
Definition executeNext (tasks : list Settlement) (threw : bool) (s : State) : Worker * State :=
  if decide (length tasks <= index s) then (Done threw, s)
  else
    let currentIndex := index s in
    (Awaiting currentIndex threw,
     {| results := results s;
        index := S (index s);
        this_running := this_running s + 1;
        workers := workers s;
        events := events s ++ [Start currentIndex] |}).

(** The rest of [executeNext] for worker [w], run when the task it
    awaits has settled: the assignment or the [catch] clause, then the
    [finally] clause with its nested call. *)
Definition resume (tasks : list Settlement) (w : nat) (s : State) : option State :=
  match workers s !! w with
  | Some (Awaiting currentIndex threw) =>
    match tasks !! currentIndex with
    | Some settlement =>
      let '(results', threw') :=
        match stored settlement with
        | Some slot => (array_set (results s) currentIndex slot, threw)
        | None => (results s, true)
        end in
      let s1 := {| results := results';
                   index := index s;
                   this_running := this_running s - 1;
                   workers := workers s;
                   events := events s ++ [Finish currentIndex] |} in
      let '(worker, s2) := executeNext tasks threw' s1 in
      Some (set_workers (<[w := worker]> (workers s2)) s2)
    | None => None
    end
  | _ => None
  end.

(** [Array(n).fill(null).map(() => executeNext())] *)
Fixpoint spawn (tasks : list Settlement) (n : nat) (s : State) : State :=
  match n with
  | O => s
  | S n' =>
    let '(worker, s') := executeNext tasks false s in
    spawn tasks n' (set_workers (workers s' ++ [worker]) s')
  end.

(** [run] up to [await Promise.all(workers)]. *)
Definition run_begin (this : t) (tasks : list Settlement) : State :=
  spawn tasks (Nat.min (concurrency this) (length tasks))
        {| results := []; index := 0; this_running := running this;
           workers := []; events := [] |}.

(** A completion order: the workers whose awaited task settles next. *)
Fixpoint exec (tasks : list Settlement) (schedule : list nat) (s : State) : option State :=
  match schedule with
  | [] => Some s
  | w :: schedule' =>
    match resume tasks w s with
    | Some s' => exec tasks schedule' s'
    | None => None
    end
  end.

Definition is_awaiting (worker : Worker) : bool :=
  match worker with Awaiting _ _ => true | Done _ => false end.

Definition has_thrown (worker : Worker) : bool :=
  match worker with Done true => true | _ => false end.

Definition has_returned (worker : Worker) : bool :=
  match worker with Done false => true | _ => false end.

(** No task is in flight any more. *)
Definition quiescent (s : State) : bool :=
  forallb (fun worker => negb (is_awaiting worker)) (workers s).

(** What the caller of [run] observes: [Promise.all] rejects as soon
    as one worker has rejected and resolves when all have resolved. *)
Inductive Outcome :=
| Returns (results : list (option Slot))
| Throws
| Unsettled.

Definition outcome (s : State) : Outcome :=
  if existsb has_thrown (workers s) then Throws
  else if forallb has_returned (workers s) then Returns (results s)
  else Unsettled.

End Run.
Arguments Settlement : clear implicits.
Arguments Slot : clear implicits.
Arguments State : clear implicits.
Arguments Outcome : clear implicits.

(** [const taskRunner = new ConcurrentTaskRunner(8)] *)
Definition taskRunner : t := constructor (Some 8).

End ConcurrentTaskRunner.

(** ** Vocabulary of the specification *)



Definition is_ok (r : UsageResult) : bool :=
  match r with OkEntry _ _ _ _ _ _ _ => true | ErrEntry _ _ _ => false end.

Definition is_err (r : UsageResult) : bool := negb (is_ok r).

(** The payload behind a usage entry, when the upstream answered with one. *)
Definition usage_payload (answer : Thrown + Response) : option (UsageInfo * StandardUsage) :=
  match answer with
  | inr response =>
    if ok response then
      match json response with
      | inr (JsonValue (Some usageInfo)) =>
        match standard usageInfo with
        | Some standardUsage => Some (usageInfo, standardUsage)
        | None => None
        end
      | _ => None
      end
    else None
  | inl _ => None
  end.

(** What [fetchApiKeyData(id, key)] resolves to, by the answer of the
    upstream: an error entry for every failure, a usage entry otherwise. *)
Definition fetched (w : World) (id key : string) (r : UsageResult) : Prop :=
  match usage_payload (upstream w (usage_request key)) with
  | Some (usageInfo, standardUsage) =>
    r = OkEntry id (maskedKey key)
          (formatDate w (startDate usageInfo)) (formatDate w (endDate usageInfo))
          (orgTotalTokensUsed standardUsage) (totalAllowance standardUsage)
          (usedRatio standardUsage)
  | None => exists error, r = ErrEntry id (key_prefix key) error /\ error <> ""
  end.

Definition is_console_error (line : ConsoleLine) : Prop :=
  exists args, line = console_error args.

(** A result as the data model of the specification has it: a usage entry
    carries both token counts, an error entry a non-empty error. *)
Definition well_formed (r : UsageResult) : bool :=
  match r with
  | OkEntry _ _ _ _ (Some _) (Some _) _ => true
  | OkEntry _ _ _ _ _ _ _ => false
  | ErrEntry _ _ error => negb (String.eqb error "")
  end.

Definition sumZ (l : list Z) : Z := fold_right Z.add 0%Z l.

(** The Aggregator in the words of the specification. *)
Module AggregatorSpec.

Definition ok_results (results : list UsageResult) : list UsageResult :=
  List.filter is_ok results.

Definition totalAllowance (results : list UsageResult) : Z :=
  sumZ (map (fun r => or0 (result_allowance r)) (ok_results results)).

Definition totalUsed (results : list UsageResult) : Z :=
  sumZ (map (fun r => or0 (result_used r)) (ok_results results)).

Definition totalRemainingClamped (results : list UsageResult) : Z :=
  sumZ (map (fun r => Z.max (or0 (result_allowance r) - or0 (result_used r)) 0)
            (ok_results results)).

End AggregatorSpec.

(** The ratio of a usage entry in the words of the specification: the
    supplied one if there is one, else [used / allowance], and 0 when the
    allowance is 0. *)
Definition spec_usedRatio (supplied : option Q) (used allowance : Z) : Q :=
  match supplied with
  | Some ratio => ratio
  | None =>
    match allowance with
    | Zpos p => Qmake used p
    | Zneg p => Qmake (- used) p
    | Z0 => Qmake 0 1
    end
  end.

(** The lines that the listing block of [getAggregatedData] writes. *)
Definition balance_listing (keyEntries : list ApiKeyEntry.t) (results : list UsageResult)
  : list ConsoleLine :=
  match keysWithBalance results with
  | [] => [console_log [Text (nl ++ "⚠️  没有剩余额度大于0的API Keys" ++ nl)]]
  | items =>
    [console_log [Text (nl ++ js_repeat "=" 80)];
     console_log [Text "📋 剩余额度大于0的API Keys:"];
     console_log [Text (js_repeat "-" 80)]]
    ++ map (fun e => console_log [Text (ApiKeyEntry.key e)])
           (omap (find_entry keyEntries) items)
    ++ [console_log [Text (js_repeat "=" 80 ++ nl)]]
  end.

(** ** Effects of the fetcher and of the fan-out, for the statements below *)

(** The effects after one request and some console lines. *)
Definition sent (fx : Effects) (request : Request) (lines : list ConsoleLine) : Effects :=
  {| kv := kv fx; requests := requests fx ++ [request]; console := console fx ++ lines |}.

Definition fetched_entry (w : World) (entry : ApiKeyEntry.t) (r : UsageResult) : Prop :=
  fetched w (ApiKeyEntry.id entry) (ApiKeyEntry.key entry) r.

Definition fan_out (keyEntries : list ApiKeyEntry.t) : Async (list UsageResult) :=
  promise_all_map
    (fun entry => fetchApiKeyData (ApiKeyEntry.id entry) (ApiKeyEntry.key entry)) keyEntries.

Definition after_fan_out (fx : Effects) (keyEntries : list ApiKeyEntry.t)
    (lines : list ConsoleLine) : Effects :=
  {| kv := kv fx;
     requests := requests fx ++ map (fun e => usage_request (ApiKeyEntry.key e)) keyEntries;
     console := console fx ++ lines |}.

Definition snapshot_of (w : World) (keyEntries : list ApiKeyEntry.t)
    (results : list UsageResult) : Snapshot :=
  {| update_time := format w (now w + 8 * 60 * 60 * 1000)%Z;
     total_count := length keyEntries;
     totals := compute_totals results;
     data := results |}.

(** The complete [secret] occurs in a text written to the console. *)
Definition logs_in_full (secret : string) (lines : list ConsoleLine) : Prop :=
  exists line pre post,
    In line lines /\ In (Text (pre ++ secret ++ post)) (console_args line).

(** ** Sample worlds, used to evaluate the definitions *)

Module Samples.

Definition usage_answer (allowance used : option Z) (ratio : option Q) : Thrown + Response :=
  inr {| status := 200;
         text := inr "";
         json := inr (JsonValue (Some
           {| startDate := Some 1761955200000%Z;
              endDate := Some 1764547200000%Z;
              standard := Some {| orgTotalTokensUsed := used;
                                  totalAllowance := allowance;
                                  usedRatio := ratio |} |})) |}.

Definition http_answer (status : nat) (body : string) : Thrown + Response :=
  inr {| status := status; text := inr body; json := inl (ErrorObject "Unexpected token") |}.

Definition unreachable : Thrown + Response := inl (ErrorObject "Failed to fetch").

Definition entry (id key : string) : ApiKeyEntry.t :=
  {| ApiKeyEntry.id := id; ApiKeyEntry.key := key;
     ApiKeyEntry.name := Some ("Key " ++ id); ApiKeyEntry.createdAt := 1762128000000 |}.

(** A world whose upstream answers by bearer token; unknown tokens meet
    a network failure. *)
Definition world (answers : list (string * (Thrown + Response))) : World :=
  {| upstream := fun request =>
       match List.find (fun a => String.eqb ("Bearer " ++ fst a) (authorization request)) answers with
       | Some a => snd a
       | None => unreachable
       end;
     now := 1762128000000;
     toISODate := fun _ => "2025-11-01";
     format := fun _ => "2025-11-03 08:00:00" |}.

Definition store (keyEntries : list ApiKeyEntry.t) : Effects :=
  {| kv := keyEntries; requests := []; console := [] |}.

Definition key_a : string := "fk-AAAAaaaaaaaaaaaa0001".
Definition key_b : string := "fk-BBBBbbbbbbbbbbbb0002".
Definition key_c : string := "fk-CCCCcccccccccccc0003".
Definition key_d : string := "fk-DDDDdddddddddddd0004".

(** The three credentials of the clamped-aggregation example of the
    specification, and a fourth one that the upstream refuses. *)
Definition clamped_world : World :=
  world [(key_a, usage_answer (Some 100%Z) (Some 50%Z) (Some (Qmake 1 2)));
         (key_b, usage_answer (Some 100%Z) (Some 150%Z) (Some (Qmake 3 2)));
         (key_c, usage_answer (Some 50%Z) (Some 50%Z) (Some (Qmake 1 1)));
         (key_d, http_answer 401 "Unauthorized")].

Definition clamped_store : Effects :=
  store [entry "key-1" key_a; entry "key-2" key_b; entry "key-3" key_c].

Definition mixed_store : Effects :=
  store [entry "key-1" key_a; entry "key-4" key_d].

(** The results of the clamped example, with the error entry of a
    refused credential among them. *)
Definition clamped_results : list UsageResult :=
  [OkEntry "key-1" "fk-A...0001" "2025-11-01" "2025-11-01" (Some 50%Z) (Some 100%Z) None;
   OkEntry "key-2" "fk-B...0002" "2025-11-01" "2025-11-01" (Some 150%Z) (Some 100%Z) None;
   ErrEntry "key-4" "fk-D..." "HTTP 401";
   OkEntry "key-3" "fk-C...0003" "2025-11-01" "2025-11-01" (Some 50%Z) (Some 50%Z) None].

(** An upstream that answers every token, the empty one included, with
    a payload that carries no ratio and a zero allowance. *)
Definition zero_allowance_world : World :=
  {| upstream := fun _ => usage_answer (Some 0%Z) (Some 0%Z) None;
     now := 1762128000000;
     toISODate := fun _ => "2025-11-01";
     format := fun _ => "2025-11-03 08:00:00" |}.

(** Nine stored credentials, one more than [taskRunner] admits. *)
Definition nine_entries : list ApiKeyEntry.t :=
  map (fun n => entry ("key-" ++ pretty n) ("fk-0000000000000000000" ++ pretty n))
      (seq 1 9).

Import ConcurrentTaskRunner.

Definition three_tasks : list (Settlement nat) :=
  [Fulfilled 10; Rejected (ErrorObject "boom"); Fulfilled 30].

(** A task that rejects with [null], followed by one that succeeds. *)
Definition nullish_tasks : list (Settlement nat) :=
  [Rejected Nullish; Fulfilled 1].

(** Three tasks of which the second rejects with [undefined]. *)
Definition unrecorded_tasks : list (Settlement nat) :=
  [Fulfilled 10; Rejected Nullish; Fulfilled 30].

End Samples.

(** ** Invariant of a run of the task runner *)

Module RunInvariant.
Import ConcurrentTaskRunner.

Section Invariant.
Context {T : Type}.
Implicit Types (s : State T) (tasks : list (Settlement T)).

(** Number of workers suspended at [await task()]. *)
Definition busy (workers : list Worker) : nat :=
  length (List.filter is_awaiting workers).

(** Task [i] has been started and its settlement is not yet handled. *)
Definition awaits (workers : list Worker) (i : nat) : Prop :=
  exists w threw, workers !! w = Some (Awaiting i threw).

Definition flag (worker : Worker) : bool :=
  match worker with Awaiting _ threw => threw | Done threw => threw end.

(** The [catch] clause of some chain of [executeNext] calls threw. *)
Definition flagged (workers : list Worker) : Prop :=
  exists w worker, workers !! w = Some worker /\ flag worker = true.

(** A handled task whose rejection the [catch] clause cannot record. *)
Definition poisoned tasks s : Prop :=
  exists i settlement,
    i < index s /\ ~ awaits (workers s) i /\ tasks !! i = Some settlement
    /\ stored settlement = None.

(** Tasks still to be handled: the unclaimed ones and those in flight. *)
Definition remaining_work tasks s : nat :=
  (length tasks - index s) + busy (workers s).

(** The indices of the [Start] events, in order. *)
Definition starts (events : list Event) : list nat :=
  omap (fun e => match e with Start i => Some i | Finish _ => None end) events.

(** A worker other than [w] carries the flag. *)
Definition flagged_besides (workers : list Worker) (w : nat) : Prop :=
  exists w' worker, w' <> w /\ workers !! w' = Some worker /\ flag worker = true.

Record invariant (this : t) tasks s : Prop := {
  inv_index : index s <= length tasks;
  inv_workers : length (workers s) = Nat.min (concurrency this) (length tasks);
  inv_claimed : forall w i threw,
      workers s !! w = Some (Awaiting i threw) -> i < index s;
  inv_single : forall w1 w2 i threw1 threw2,
      workers s !! w1 = Some (Awaiting i threw1) ->
      workers s !! w2 = Some (Awaiting i threw2) -> w1 = w2;
  inv_handled : forall i,
      i < index s -> ~ awaits (workers s) i ->
      array_get (results s) i = tasks !! i ≫= stored;
  inv_untouched : forall i,
      index s <= i \/ awaits (workers s) i -> array_get (results s) i = None;
  inv_length : length (results s) <= index s;
  inv_running : this_running s = (running this + Z.of_nat (busy (workers s)))%Z;
  inv_active : active (events s) = Z.of_nat (busy (workers s));
  inv_peak : (peak (events s) <= Z.of_nat (Nat.min (concurrency this) (length tasks)))%Z;
  inv_starts : starts (events s) = seq 0 (index s);
  inv_done : forall w threw,
      workers s !! w = Some (Done threw) -> length tasks <= index s;
  inv_flagged : flagged (workers s) <-> poisoned tasks s
}.

End Invariant.
End RunInvariant.

(** ** Server side: the key-value store, sessions and the request handler *)

Module Session.
Record t := { id : string; createdAt : Z; expiresAt : Z }.
End Session.

(** The request as [handler] reads it: method, [url.pathname], the
    [session] cookie and what [req.json()] resolves to.  The fields of a
    body, when present, are strings, and the arrays hold strings, as the
    casts of the source assume; [None] is an absent field, or for [keys]
    and [ids] a value that is not an array.  A body that is [null] makes
    the first access to a field throw a [TypeError] inside the [try], as a
    failed parse does, and is one of the [inl] cases. *)
Module RequestBody.
Record t := {
  password : option string;
  keys : option (list string);
  ids : option (list string);
  key : option string;
  name : option string
}.
End RequestBody.

Module ServerRequest.
Record t := {
  method : string;
  pathname : string;
  session : option string;
  json : Thrown + RequestBody.t
}.
End ServerRequest.

Module Server.

(** What the platform supplies: the world of the aggregation, the
    environment variable, and the answers of the calls whose result the
    program cannot foresee.  Each such call takes the next number of a
    single count, so an answer may depend on everything before it.
    [kv_write_error] tells whether a write to the key-value store is
    rejected; reads of the store do not fail, as in the embedding of the
    aggregation. *)
Record Platform := {
  world : World;
  ADMIN_PASSWORD : option string;
  clock : nat -> Z;
  uuid : nat -> string;
  kv_write_error : nat -> option Thrown;
  trim : string -> string
}.

(** The [apikeys] entries live in [kv] of the effects, in key order; the
    key of an entry is its [id], under which [saveApiKey] writes it. *)
Record State := {
  effects : Effects;
  sessions : gmap string Session.t;
  tick : nat
}.

Definition M (A : Type) : Type := Platform -> State -> Completion A * State.

Definition ret {A} (a : A) : M A := fun _ s => (Normal a, s).

Definition throw {A} (error : Thrown) : M A := fun _ s => (Throw error, s).

Definition bind {A B} (m : M A) (k : A -> M B) : M B :=
  fun p s =>
    match m p s with
    | (Normal a, s') => k a p s'
    | (Throw error, s') => (Throw error, s')
    end.

Definition try_catch {A} (body : M A) (handler : Thrown -> M A) : M A :=
  fun p s =>
    match body p s with
    | (Normal a, s') => (Normal a, s')
    | (Throw error, s') => handler error p s'
    end.

Notation "'let+' x ':=' m 'in' k" := (bind m (fun x => k))
  (at level 10, x name, m at level 99, k at level 200).
Notation "m '>>' k" := (bind m (fun _ => k))
  (at level 100, k at level 200, right associativity).

Definition platform : M Platform := fun p s => (Normal p, s).

Definition get_state : M State := fun _ s => (Normal s, s).

(** A computation of the aggregation part, run on the effects. *)
Definition lift {A} (m : Async A) : M A :=
  fun p s =>
    let '(c, fx') := m (world p) (effects s) in
    (c, {| effects := fx'; sessions := sessions s; tick := tick s |}).

Definition next_tick : M nat :=
  fun _ s =>
    (Normal (tick s),
     {| effects := effects s; sessions := sessions s; tick := S (tick s) |}).

(** [Date.now()] *)
Definition Date_now : M Z :=
  let+ n := next_tick in let+ p := platform in ret (clock p n).

(** [crypto.randomUUID()] *)
Definition randomUUID : M string :=
  let+ n := next_tick in let+ p := platform in ret (uuid p n).

(** The write of a [kv.set] or [kv.delete], which the store may reject. *)
Definition kv_commit : M unit :=
  let+ n := next_tick in
  let+ p := platform in
  match kv_write_error p n with
  | Some error => throw error
  | None => ret tt
  end.

Definition set_store (store : list ApiKeyEntry.t) : M unit :=
  fun _ s =>
    (Normal tt,
     {| effects := {| kv := store; requests := requests (effects s);
                      console := console (effects s) |};
        sessions := sessions s; tick := tick s |}).

Definition set_sessions (sessions' : gmap string Session.t) : M unit :=
  fun _ s =>
    (Normal tt, {| effects := effects s; sessions := sessions'; tick := tick s |}).

(** *** The [apikeys] entries *)

(** [kv.get(["apikeys", id]).value] *)
Definition kv_get (id : string) (store : list ApiKeyEntry.t) : option ApiKeyEntry.t :=
  List.find (fun e => String.eqb (ApiKeyEntry.id e) id) store.

(** [kv.set(["apikeys", entry.id], entry)]: the entry replaces the one
    stored under its key, or takes its place in the order of the keys,
    which is the order of their bytes. *)
Fixpoint kv_set (entry : ApiKeyEntry.t) (store : list ApiKeyEntry.t) : list ApiKeyEntry.t :=
  match store with
  | [] => [entry]
  | e :: store' =>
    match String.compare (ApiKeyEntry.id entry) (ApiKeyEntry.id e) with
    | Eq => entry :: store'
    | Lt => entry :: e :: store'
    | Gt => e :: kv_set entry store'
    end
  end.

(** [kv.delete(["apikeys", id])] *)
Definition kv_delete (id : string) (store : list ApiKeyEntry.t) : list ApiKeyEntry.t :=
  List.filter (fun e => negb (String.eqb (ApiKeyEntry.id e) id)) store.

(** [name || `Key ${id}`] *)
Definition name_or_default (name : option string) (id : string) : string :=
  match name with
  | Some n => if String.eqb n "" then "Key " ++ id else n
  | None => "Key " ++ id
  end.

Definition saveApiKey (id key : string) (name : option string) : M unit :=
  let+ createdAt := Date_now in
  let entry :=
    {| ApiKeyEntry.id := id; ApiKeyEntry.key := key;
       ApiKeyEntry.name := Some (name_or_default name id);
       ApiKeyEntry.createdAt := createdAt |} in
  kv_commit >>
  let+ s := get_state in
  set_store (kv_set entry (kv (effects s))).

Definition getApiKey (id : string) : M (option ApiKeyEntry.t) :=
  let+ s := get_state in ret (kv_get id (kv (effects s))).

Definition deleteApiKey (id : string) : M unit :=
  kv_commit >>
  let+ s := get_state in
  set_store (kv_delete id (kv (effects s))).

(** *** [batchImportKeys] *)

Module ImportCounts.
Record t := { success : nat; failed : nat; duplicates : nat }.
End ImportCounts.

(** How one pass of the loop body ends. *)
Inductive ImportStep :=
| Saved
| Skipped
| Failed.

(** The body of the [try] for the key at index [i], and its [catch]. *)
Definition import_one (key : string) (i : nat) (existingKeySet : gset string) : M ImportStep :=
  try_catch
    (if decide (key ∈ existingKeySet) then
       lift (write_console
               (console_log [Text ("Skipped duplicate key: " ++ substring 0 10 key ++ "...")])) >>
       ret Skipped
     else
       let+ now := Date_now in
       let id := "key-" ++ pretty now ++ "-" ++ pretty i in
       saveApiKey id key None >>
       ret Saved)
    (fun error =>
       lift (write_console
               (console_error [Text ("Failed to import key " ++ pretty i ++ ":"); Caught error])) >>
       ret Failed).

(** The [for] loop from index [i] on. *)
Fixpoint import_loop (keys : list string) (i : nat) (existingKeySet : gset string)
    (counts : ImportCounts.t) : M ImportCounts.t :=
  match keys with
  | [] => ret counts
  | raw :: keys' =>
    let+ p := platform in
    let key := trim p raw in
    if (0 <? String.length key)%nat then
      let+ step := import_one key i existingKeySet in
      match step with
      | Saved =>
        import_loop keys' (S i) ({[key]} ∪ existingKeySet)
          {| ImportCounts.success := S (ImportCounts.success counts);
             ImportCounts.failed := ImportCounts.failed counts;
             ImportCounts.duplicates := ImportCounts.duplicates counts |}
      | Skipped =>
        import_loop keys' (S i) existingKeySet
          {| ImportCounts.success := ImportCounts.success counts;
             ImportCounts.failed := ImportCounts.failed counts;
             ImportCounts.duplicates := S (ImportCounts.duplicates counts) |}
      | Failed =>
        import_loop keys' (S i) existingKeySet
          {| ImportCounts.success := ImportCounts.success counts;
             ImportCounts.failed := S (ImportCounts.failed counts);
             ImportCounts.duplicates := ImportCounts.duplicates counts |}
      end
    else import_loop keys' (S i) existingKeySet counts
  end.

Definition batchImportKeys (keys : list string) : M ImportCounts.t :=
  let+ existingKeys := lift getAllApiKeys in
  let existingKeySet : gset string := list_to_set (map ApiKeyEntry.key existingKeys) in
  import_loop keys 0 existingKeySet
    {| ImportCounts.success := 0; ImportCounts.failed := 0; ImportCounts.duplicates := 0 |}.

(** *** [batchDeleteKeys] *)

Module DeleteCounts.
Record t := { success : nat; failed : nat }.
End DeleteCounts.

Fixpoint delete_loop (ids : list string) (counts : DeleteCounts.t) : M DeleteCounts.t :=
  match ids with
  | [] => ret counts
  | id :: ids' =>
    let+ ok :=
      try_catch
        (deleteApiKey id >> ret true)
        (fun error =>
           lift (write_console
                   (console_error [Text ("Failed to delete key " ++ id ++ ":"); Caught error])) >>
           ret false) in
    delete_loop ids'
      (if ok : bool
       then {| DeleteCounts.success := S (DeleteCounts.success counts);
               DeleteCounts.failed := DeleteCounts.failed counts |}
       else {| DeleteCounts.success := DeleteCounts.success counts;
               DeleteCounts.failed := S (DeleteCounts.failed counts) |})
  end.

Definition batchDeleteKeys (ids : list string) : M DeleteCounts.t :=
  delete_loop ids {| DeleteCounts.success := 0; DeleteCounts.failed := 0 |}.

(** *** Sessions *)

Definition seven_days : Z := 7 * 24 * 60 * 60 * 1000.

Definition createSession : M string :=
  let+ sessionId := randomUUID in
  let+ createdAt := Date_now in
  let+ now := Date_now in
  let session :=
    {| Session.id := sessionId; Session.createdAt := createdAt;
       Session.expiresAt := now + seven_days |} in
  kv_commit >>
  let+ s := get_state in
  set_sessions (<[sessionId := session]> (sessions s)) >>
  ret sessionId.

Definition validateSession (sessionId : string) : M bool :=
  let+ s := get_state in
  match sessions s !! sessionId with
  | None => ret false
  | Some session =>
    let+ now := Date_now in
    if (Session.expiresAt session <? now)%Z then
      kv_commit >>
      let+ s' := get_state in
      set_sessions (delete sessionId (sessions s')) >>
      ret false
    else ret true
  end.

(** Truthiness of an optional string: [undefined] and [""] are falsy. *)
Definition truthy (x : option string) : bool :=
  match x with
  | Some s => negb (String.eqb s "")
  | None => false
  end.

Definition isAuthenticated (req : ServerRequest.t) : M bool :=
  let+ p := platform in
  if negb (truthy (ADMIN_PASSWORD p)) then ret true
  else if negb (truthy (ServerRequest.session req)) then ret false
  else
    match ServerRequest.session req with
    | Some sessionId => validateSession sessionId
    | None => ret false
    end.

End Server.

(** *** Paths *)

(** [s.split("/")] *)
Fixpoint split_slash (s : string) : list string :=
  match s with
  | EmptyString => [""]
  | String c s' =>
    if Ascii.eqb c "/" then "" :: split_slash s'
    else
      match split_slash s' with
      | segment :: segments => String c segment :: segments
      | [] => [String c ""]
      end
  end.

(** [s] without the leading [prefix], when it starts with it. *)
Fixpoint after_prefix (prefix s : string) : option string :=
  match prefix, s with
  | EmptyString, _ => Some s
  | String a prefix', String b s' =>
    if Ascii.eqb a b then after_prefix prefix' s' else None
  | String _ _, EmptyString => None
  end.

(** [s.startsWith(prefix)] *)
Definition startsWith (s prefix : string) : bool :=
  match after_prefix prefix s with Some _ => true | None => false end.

(** What is left of [s] after its longest prefix without a slash. *)
Fixpoint after_segment (s : string) : string :=
  match s with
  | EmptyString => ""
  | String c s' => if Ascii.eqb c "/" then s else after_segment s'
  end.

(** [pathname.match(/^\/api\/keys\/[^\/]+\/full$/)] *)
Definition matches_full_route (pathname : string) : bool :=
  match after_prefix "/api/keys/" pathname with
  | Some rest =>
    negb (String.eqb rest (after_segment rest)) && String.eqb (after_segment rest) "/full"
  | None => false
  end.

(** [parts[i]], [undefined] beyond the end. *)
Definition part (parts : list string) (i : nat) : option string := parts !! i.

(** [parts.pop()] *)
Definition pop (parts : list string) : option string := last parts.

Module SafeKey.
Record t := { id : string; name : option string; createdAt : Z; masked : string }.
End SafeKey.

(** The bodies that [handler] sends. *)
Inductive ResponseBody :=
| NoBody
| ErrorJson (error : option string)
| SuccessJson
| AddedJson (id : string)
| DataJson (data : Snapshot)
| SafeKeysJson (safeKeys : list SafeKey.t)
| FullKeyJson (id key : string)
| ImportJson (result : Server.ImportCounts.t)
| DeleteJson (result : Server.DeleteCounts.t)
| LOGIN_PAGE
| HTML_CONTENT
| NotFoundText.

Module HttpResponse.
Record t := { status : nat; body : ResponseBody; session_cookie : option string }.
End HttpResponse.

Module Handler.
Import Server.

Definition respond (status : nat) (body : ResponseBody) : M HttpResponse.t :=
  ret {| HttpResponse.status := status; HttpResponse.body := body;
         HttpResponse.session_cookie := None |}.

(** [catch (error) { return new Response(JSON.stringify({ error: error.message }),
    { status: 500 }) }]; reading [message] from [null] throws in turn. *)
Definition respond_500 (error : Thrown) : M HttpResponse.t :=
  match ConcurrentTaskRunner.message_of error with
  | Some message => respond 500 (ErrorJson message)
  | None => throw (ErrorObject "Cannot read properties of null (reading 'message')")
  end.

(** [await req.json()] *)
Definition req_json (req : ServerRequest.t) : M RequestBody.t :=
  match ServerRequest.json req with
  | inl error => throw error
  | inr body => ret body
  end.

(** [password === ADMIN_PASSWORD] *)
Definition same_password (password configured : option string) : bool :=
  match password, configured with
  | Some a, Some b => String.eqb a b
  | None, None => true
  | _, _ => false
  end.

Definition login (req : ServerRequest.t) : M HttpResponse.t :=
  try_catch
    (let+ body := req_json req in
     let+ p := platform in
     if same_password (RequestBody.password body) (ADMIN_PASSWORD p) then
       let+ sessionId := createSession in
       ret {| HttpResponse.status := 200; HttpResponse.body := SuccessJson;
              HttpResponse.session_cookie := Some sessionId |}
     else respond 401 (ErrorJson (Some "Invalid password")))
    respond_500.

Definition safeKey (k : ApiKeyEntry.t) : SafeKey.t :=
  {| SafeKey.id := ApiKeyEntry.id k;
     SafeKey.name := ApiKeyEntry.name k;
     SafeKey.createdAt := ApiKeyEntry.createdAt k;
     SafeKey.masked := maskedKey (ApiKeyEntry.key k) |}.

(** The routes behind the authentication check, in the order of the
    source. *)
Definition routes (req : ServerRequest.t) : M HttpResponse.t :=
  let pathname := ServerRequest.pathname req in
  let method := ServerRequest.method req in
  if String.eqb pathname "/api/data" then
    try_catch
      (let+ data := lift getAggregatedData in respond 200 (DataJson data))
      (fun error =>
         lift (write_console (console_error [Caught error])) >>
         respond_500 error)
  else if String.eqb pathname "/api/keys" && String.eqb method "GET" then
    try_catch
      (let+ keys := lift getAllApiKeys in respond 200 (SafeKeysJson (map safeKey keys)))
      respond_500
  else if String.eqb pathname "/api/keys/import" && String.eqb method "POST" then
    try_catch
      (let+ body := req_json req in
       match RequestBody.keys body with
       | None => respond 400 (ErrorJson (Some "Invalid request: 'keys' must be an array"))
       | Some keys =>
         let+ result := batchImportKeys keys in respond 200 (ImportJson result)
       end)
      respond_500
  else if matches_full_route pathname && String.eqb method "GET" then
    try_catch
      (match part (split_slash pathname) 3 with
       | Some id =>
         if String.eqb id "" then respond 400 (ErrorJson (Some "Key ID required"))
         else
           let+ keyEntry := getApiKey id in
           match keyEntry with
           | None => respond 404 (ErrorJson (Some "Key not found"))
           | Some entry =>
             respond 200 (FullKeyJson (ApiKeyEntry.id entry) (ApiKeyEntry.key entry))
           end
       | None => respond 400 (ErrorJson (Some "Key ID required"))
       end)
      respond_500
  else if String.eqb pathname "/api/keys/batch-delete" && String.eqb method "POST" then
    try_catch
      (let+ body := req_json req in
       match RequestBody.ids body with
       | Some (id :: ids) =>
         let+ result := batchDeleteKeys (id :: ids) in respond 200 (DeleteJson result)
       | _ =>
         respond 400 (ErrorJson (Some "Invalid request: 'ids' must be a non-empty array"))
       end)
      respond_500
  else if startsWith pathname "/api/keys/" && String.eqb method "DELETE" then
    try_catch
      (match pop (split_slash pathname) with
       | Some id =>
         if String.eqb id "" || String.eqb id "batch-delete"
         then respond 400 (ErrorJson (Some "Key ID required"))
         else deleteApiKey id >> respond 200 SuccessJson
       | None => respond 400 (ErrorJson (Some "Key ID required"))
       end)
      respond_500
  else if String.eqb pathname "/api/keys" && String.eqb method "POST" then
    try_catch
      (let+ body := req_json req in
       if negb (truthy (RequestBody.key body))
       then respond 400 (ErrorJson (Some "Key is required"))
       else
         match RequestBody.key body with
         | Some key =>
           let+ now := Date_now in
           let id := "key-" ++ pretty now in
           saveApiKey id key (RequestBody.name body) >>
           respond 200 (AddedJson id)
         | None => respond 400 (ErrorJson (Some "Key is required"))
         end)
      respond_500
  else respond 404 NotFoundText.

Definition handler (req : ServerRequest.t) : M HttpResponse.t :=
  let pathname := ServerRequest.pathname req in
  let method := ServerRequest.method req in
  if String.eqb method "OPTIONS" then respond 204 NoBody
  else if String.eqb pathname "/api/login" && String.eqb method "POST" then login req
  else
    let+ p := platform in
    let+ show_login :=
      (if truthy (ADMIN_PASSWORD p) && String.eqb pathname "/" then
         let+ authenticated := isAuthenticated req in ret (negb authenticated)
       else ret false) in
    if show_login : bool then respond 200 LOGIN_PAGE
    else if String.eqb pathname "/" then respond 200 HTML_CONTENT
    else
      let+ authenticated := isAuthenticated req in
      if truthy (ADMIN_PASSWORD p) && negb authenticated
      then respond 401 (ErrorJson (Some "Unauthorized"))
      else routes req.

End Handler.

(** ** Browser side: key cache, paging, status and clean-up *)

Module KeyCache.

Module Item.
Record t := { key : string; timestamp : Z }.
End Item.

(** The cache object together with what it reads and writes: the
    [localStorage] entry under [storageKey] (absent, or what [JSON.parse]
    makes of it), the error that [setItem] throws when the storage is
    full, and the console. *)
Record t := {
  cache : gmap string Item.t;
  maxAge : Z;
  localStorage : option (Thrown + gmap string Item.t);
  quota_error : option Thrown;
  console : list ConsoleLine
}.

Definition default_maxAge : Z := 24 * 60 * 60 * 1000.

Definition with_cache (cache' : gmap string Item.t) (c : t) : t :=
  {| cache := cache'; maxAge := maxAge c; localStorage := localStorage c;
     quota_error := quota_error c; console := console c |}.

Definition log (line : ConsoleLine) (c : t) : t :=
  {| cache := cache c; maxAge := maxAge c; localStorage := localStorage c;
     quota_error := quota_error c; console := console c ++ [line] |}.

(** An item that [loadFromStorage] keeps: [now - item.timestamp < this.maxAge]. *)
Definition in_date (now maxAge : Z) (item : Item.t) : bool :=
  (now - Item.timestamp item <? maxAge)%Z.

(** An item that [get] drops: [Date.now() - item.timestamp > this.maxAge]. *)
Definition expired (now maxAge : Z) (item : Item.t) : bool :=
  (maxAge <? now - Item.timestamp item)%Z.

Definition loadFromStorage (now : Z) (c : t) : t :=
  match localStorage c with
  | None => c
  | Some (inl error) => log (console_error [Text "加载缓存失败:"; Caught error]) c
  | Some (inr data) =>
    let loaded :=
      filter (fun entry => in_date now (maxAge c) (snd entry) = true) data ∪ cache c in
    log (console_log [Text ("✅ 从本地缓存加载了 " ++ pretty (size loaded) ++ " 个 API Key")])
        (with_cache loaded c)
  end.

Definition saveToStorage (c : t) : t :=
  match quota_error c with
  | Some error => log (console_error [Text "保存缓存失败:"; Caught error]) c
  | None =>
    {| cache := cache c; maxAge := maxAge c; localStorage := Some (inr (cache c));
       quota_error := quota_error c; console := console c |}
  end.

(** [new KeyCache(maxAge)] in a browser whose storage and console are
    those of [env]; [None] takes the default age. *)
Definition constructor (maxAge : option Z) (now : Z) (env : t) : t :=
  loadFromStorage now
    {| cache := ∅;
       maxAge := match maxAge with Some age => age | None => default_maxAge end;
       localStorage := localStorage env; quota_error := quota_error env;
       console := console env |}.

Definition set (id key : string) (now : Z) (c : t) : t :=
  saveToStorage
    (with_cache (<[id := {| Item.key := key; Item.timestamp := now |}]> (cache c)) c).

(** [get(id)]: the key, or [null]. *)
Definition get (id : string) (now : Z) (c : t) : option string * t :=
  match cache c !! id with
  | None => (None, c)
  | Some item =>
    if expired now (maxAge c) item
    then (None, saveToStorage (with_cache (delete id (cache c)) c))
    else (Some (Item.key item), c)
  end.

End KeyCache.

(** [a.slice(start, end)]: a negative index counts from the end, and
    both are clamped to the array. *)
Definition relative_index (i : Z) (len : nat) : nat :=
  if (i <? 0)%Z then Z.to_nat (Z.max (Z.of_nat len + i) 0)
  else Nat.min (Z.to_nat i) len.

Definition js_slice {A} (a : list A) (start final : Z) : list A :=
  take (relative_index final (length a) - relative_index start (length a))
       (drop (relative_index start (length a)) a).

Module Pager.

(** [itemsPerPage]: [Infinity], or a positive number of rows, which is
    what [getStoredPageSize] and the page-size selector produce. *)
Inductive PageSize :=
| Infinity
| PerPage (n : positive).

Record t := { currentPage : Z; itemsPerPage : PageSize }.

(** [Math.ceil(totalItems / n)] *)
Definition ceil_div (totalItems : nat) (n : positive) : Z :=
  ((Z.of_nat totalItems + Z.pos n - 1) / Z.pos n)%Z.

Definition totalPages (totalItems : nat) (itemsPerPage : PageSize) : Z :=
  match itemsPerPage with
  | Infinity => 1
  | PerPage n => Z.max 1 (ceil_div totalItems n)
  end.

(** The part that [renderTable] and [renderCards] share: the page is
    brought back into range and the rows of that page are cut out. *)
Definition render {A} (data : list A) (pager : t) : t * list A :=
  let totalItems := length data in
  let totalPages := totalPages totalItems (itemsPerPage pager) in
  let currentPage :=
    if (totalPages <? currentPage pager)%Z then totalPages else currentPage pager in
  let startIndex :=
    match itemsPerPage pager with
    | Infinity => 0%Z
    | PerPage n => ((currentPage - 1) * Z.pos n)%Z
    end in
  let endIndex :=
    match itemsPerPage pager with
    | Infinity => Z.of_nat totalItems
    | PerPage n => (startIndex + Z.pos n)%Z
    end in
  ({| currentPage := currentPage; itemsPerPage := itemsPerPage pager |},
   js_slice data startIndex endIndex).

(** [changePage(page)]: the pager afterwards and the rows drawn, if any. *)
Definition changePage {A} (allData : option (list A)) (page : Z) (pager : t)
  : t * option (list A) :=
  match allData with
  | None => (pager, None)
  | Some data =>
    match itemsPerPage pager with
    | Infinity =>
      let '(pager', rows) :=
        render data {| currentPage := 1; itemsPerPage := Infinity |} in
      (pager', Some rows)
    | PerPage n =>
      let totalPages := Z.max 1 (ceil_div (length data) n) in
      if (page <? 1)%Z || (totalPages <? page)%Z then (pager, None)
      else
        let '(pager', rows) :=
          render data {| currentPage := page; itemsPerPage := PerPage n |} in
        (pager', Some rows)
    end
  end.

End Pager.

(** The status badge of a card: its class and its text, the
    [{ class, text }] that [getStatusInfo] returns. *)
Inductive StatusClass :=
| status_danger
| status_warning
| status_good.

Record StatusInfo := { status_class : StatusClass; status_text : string }.

(** [remaining <= 0], false on [NaN]. *)
Definition le0 (remaining : num) : bool :=
  match remaining with Num z => (z <=? 0)%Z | NaN => false end.

(** The double that the literal [0.8] denotes: 3602879701896397 / 2^52. *)
Definition double_08 : Q := Qmake 3602879701896397 4503599627370496.

(** [usedRatio >= 0.8], false on [undefined]; the ratio is the value of
    the double that the browser holds. *)
Definition ge_08 (usedRatio : option Q) : bool :=
  match usedRatio with
  | Some ratio => Qle_bool double_08 ratio
  | None => false
  end.

Definition getStatusInfo (usedRatio : option Q) (remaining : num) : StatusInfo :=
  if le0 remaining then {| status_class := status_danger; status_text := "已用尽" |}
  else if ge_08 usedRatio then {| status_class := status_warning; status_text := "即将用尽" |}
  else {| status_class := status_good; status_text := "正常" |}.

(** The badge that [renderCards] draws on the card of an item: for an
    entry with an error the class [status-danger] and the text are written
    out in the markup, for the others they come from [getStatusInfo]. *)
Definition card_status (item : UsageResult) : StatusInfo :=
  if truthy_error item
  then {| status_class := status_danger; status_text := "错误" |}
  else getStatusInfo (result_usedRatio item)
                     (js_sub (result_allowance item) (result_used item)).

(** The filter of [clearZeroBalanceKeys]. *)
Definition zero_balance (item : UsageResult) : bool :=
  if truthy_error item then false
  else le0 (js_sub (result_allowance item) (result_used item)).

Definition zeroBalanceKeys (data : list UsageResult) : list UsageResult :=
  List.filter zero_balance data.

(** [overallRatio] of [displayData], [renderCards] and [renderTable]:
    [totalAllowance > 0 ? (totalAllowance - totalRemaining) / totalAllowance : 0],
    as the exact quotient, which the browser rounds to a double.  The
    totals have passed through JSON, where a [NaN] remainder becomes
    [null], and [null] counts as 0 in the subtraction. *)
Definition overallRatio (totals : Totals) : Q :=
  match total_totalAllowance totals with
  | Zpos allowance =>
    match total_tokensRemaining totals with
    | Num remaining => Qmake (Zpos allowance - remaining) allowance
    | NaN => Qmake (Zpos allowance) allowance
    end
  | _ => Qmake 0 1
  end.

(** Selection of rows: [toggleSelection] and [toggleSelectAll]. *)
Definition toggleSelection (id : string) (selectedKeys : gset string) : gset string :=
  if decide (id ∈ selectedKeys) then selectedKeys ∖ {[id]} else {[id]} ∪ selectedKeys.

Definition toggleSelectAll (allIds : list string) (selectedKeys : gset string) : gset string :=
  if decide (size selectedKeys = length allIds) then ∅
  else list_to_set allIds ∪ selectedKeys.

(** ** Vocabulary for the statements about the server *)

(** The credentials held by a state of the server. *)
Definition store_of (s : Server.State) : list ApiKeyEntry.t := kv (Server.effects s).

(** The entries in the order of their ids, each id once. *)
Definition id_before (a b : ApiKeyEntry.t) : Prop :=
  String.compare (ApiKeyEntry.id a) (ApiKeyEntry.id b) = Lt.

Definition ordered (store : list ApiKeyEntry.t) : Prop := StronglySorted id_before store.

(** The secrets of the stored credentials, as a set. *)
Definition secrets (store : list ApiKeyEntry.t) : gset string :=
  list_to_set (map ApiKeyEntry.key store).

(** The keys of a batch that the import loop looks at: trimmed, and not
    empty afterwards. *)
Definition nonblank (p : Server.Platform) (keys : list string) : list string :=
  List.filter (fun key => (0 <? String.length key)%nat) (map (Server.trim p) keys).

(** No write to the key-value store is rejected. *)
Definition never_rejects (p : Server.Platform) : Prop :=
  forall n, Server.kv_write_error p n = None.

(** The id that [batchImportKeys] gives to the key at index [i]. *)
Definition import_id (now : Z) (i : nat) : string :=
  "key-" ++ pretty now ++ "-" ++ pretty i.

(** No stored id is one that an import could produce from the [from]-th
    reading of the clock on, for an index from [i] on. *)
Definition no_import_id (p : Server.Platform) (from i : nat) (store : list ApiKeyEntry.t)
  : Prop :=
  forall e n j, In e store -> from <= n -> i <= j ->
    ApiKeyEntry.id e <> import_id (Server.clock p n) j.

(** The entry that the import loop saves for [key] at index [i], in a
    state [s]. *)
Definition imported_entry (p : Server.Platform) (s : Server.State) (key : string) (i : nat)
  : ApiKeyEntry.t :=
  let id := import_id (Server.clock p (Server.tick s)) i in
  {| ApiKeyEntry.id := id; ApiKeyEntry.key := key;
     ApiKeyEntry.name := Some ("Key " ++ id);
     ApiKeyEntry.createdAt := Server.clock p (S (Server.tick s)) |}.

(** [c] is a decimal digit. *)
Definition is_digit (c : ascii) : bool :=
  (48 <=? nat_of_ascii c)%nat && (nat_of_ascii c <=? 57)%nat.

(** [c] occurs in [s]. *)
Fixpoint occurs (c : ascii) (s : string) : bool :=
  match s with
  | EmptyString => false
  | String a s' => Ascii.eqb a c || occurs c s'
  end.

(** A computation keeps a property of the stored credentials. *)
Definition keeps (I : list ApiKeyEntry.t -> Prop) {A} (m : Server.M A) : Prop :=
  forall p s, I (store_of s) -> I (store_of (snd (m p s))).

(** The request is one that [handler] answers only after the
    authentication check: not a preflight, not a login, not the page. *)
Definition behind_gate (req : ServerRequest.t) : bool :=
  negb (String.eqb (ServerRequest.method req) "OPTIONS")
  && negb (String.eqb (ServerRequest.pathname req) "/api/login"
           && String.eqb (ServerRequest.method req) "POST")
  && negb (String.eqb (ServerRequest.pathname req) "/").

(** The request carries the id of a stored session that has not expired
    at the next reading of the clock. *)
Definition valid_session (p : Server.Platform) (s : Server.State) (req : ServerRequest.t)
  : bool :=
  match ServerRequest.session req with
  | Some sessionId =>
    negb (String.eqb sessionId "")
    && match Server.sessions s !! sessionId with
       | Some session => negb (Session.expiresAt session <? Server.clock p (Server.tick s))%Z
       | None => false
       end
  | None => false
  end.

(** The request passes the check: no password is configured, or its
    session is valid. *)
Definition authorized (p : Server.Platform) (s : Server.State) (req : ServerRequest.t) : bool :=
  negb (Server.truthy (Server.ADMIN_PASSWORD p)) || valid_session p s req.

(** The state after a check that was passed: with a password configured,
    the clock has been read once. *)
Definition checked (p : Server.Platform) (s : Server.State) : Server.State :=
  if Server.truthy (Server.ADMIN_PASSWORD p)
  then {| Server.effects := Server.effects s; Server.sessions := Server.sessions s;
          Server.tick := S (Server.tick s) |}
  else s.

Definition unauthorized_response : HttpResponse.t :=
  {| HttpResponse.status := 401; HttpResponse.body := ErrorJson (Some "Unauthorized");
     HttpResponse.session_cookie := None |}.

(** A thrown value from which [error.message] can be read. *)
Definition has_message (error : Thrown) : Prop := error <> Nullish.

(** Nothing that the platform throws at [handler] is [null] or
    [undefined]. *)
Definition throws_objects (p : Server.Platform) (req : ServerRequest.t) : Prop :=
  (forall n error, Server.kv_write_error p n = Some error -> has_message error)
  /\ (forall error, ServerRequest.json req = inl error -> has_message error).

(** A computation ends with a value, or throws something with a
    message to read. *)
Definition catchable {A} (p : Server.Platform) (m : Server.M A) : Prop :=
  forall s error, fst (m p s) = Throw error -> has_message error.

Definition answers {A} (p : Server.Platform) (m : Server.M A) : Prop :=
  forall s, exists a s', m p s = (Normal a, s').

(** ** Vocabulary for the statements about the browser script *)

(** The rows that page [k] shows, [n] rows to a page. *)
Definition page_rows {A} (data : list A) (n : positive) (k : Z) : list A :=
  snd (Pager.render data {| Pager.currentPage := k; Pager.itemsPerPage := Pager.PerPage n |}).

(** What the usage entries have used, each counted up to its allowance. *)
Definition capped_use (results : list UsageResult) : Z :=
  sumZ (map (fun r => Z.min (or0 (result_used r)) (or0 (result_allowance r)))
            (List.filter is_ok results)).

(** ** Browser side: copying and forgetting keys *)

Module BatchCopy.
Import ConcurrentTaskRunner.

(** What a task of [batchCopyKeys] returns: a key, [null] for an answer
    that is not [ok], or [undefined] when the body carries no [key]. *)
Inductive Copied :=
| KeyText (key : string)
| JsNull
| JsUndefined.

(** The answer to [fetch(`/api/keys/${id}/full`)]: [response.ok], and
    what reading [(await response.json()).key] gives, which throws when
    the body does not parse or is [null]; the field is a string when it is
    present, as in the answers of [handler]. *)
Record FullResponse := { ok : bool; key_field : Thrown + option string }.

(** The task for one id, given what [keyCache.get(id)] returns when the
    task runs and how the server answers. *)
Definition task (cachedKey : option string) (answer : Thrown + FullResponse)
  : Settlement Copied :=
  match cachedKey with
  | Some key =>
    if negb (String.eqb key "") then Fulfilled (KeyText key)
    else
      match answer with
      | inl error => Rejected error
      | inr response =>
        if ok response then
          match key_field response with
          | inl error => Rejected error
          | inr (Some fetched) => Fulfilled (KeyText fetched)
          | inr None => Fulfilled JsUndefined
          end
        else Fulfilled JsNull
      end
  | None =>
    match answer with
    | inl error => Rejected error
    | inr response =>
      if ok response then
        match key_field response with
        | inl error => Rejected error
        | inr (Some fetched) => Fulfilled (KeyText fetched)
        | inr None => Fulfilled JsUndefined
        end
      else Fulfilled JsNull
    end
  end.

(** [results.filter(k => k !== null)]; [filter] passes over the holes
    of the array. *)
Definition not_null (slot : Slot Copied) : bool :=
  match slot with Value JsNull => false | _ => true end.

Definition keys (results : list (option (Slot Copied))) : list (Slot Copied) :=
  List.filter not_null (omap (fun slot => slot) results).

(** The text that [join] makes of one element: [undefined] gives the
    empty string, an object that is not a string gives
    "[object Object]". *)
Definition joined (slot : Slot Copied) : string :=
  match slot with
  | Value (KeyText key) => key
  | Value JsNull => ""
  | Value JsUndefined => ""
  | ErrorPlaceholder _ => "[object Object]"
  end.

(** What [batchCopyKeys] hands to [copyToClipboard], if anything:
    [keys.join('\n')] when [keys.length > 0]. *)
Definition clipboard (results : list (option (Slot Copied))) : option string :=
  match keys results with
  | [] => None
  | slots => Some (String.concat nl (map joined slots))
  end.

(** The line that a settled task contributes to the text. *)
Definition line (settlement : Settlement Copied) : option string :=
  match settlement with
  | Fulfilled (KeyText key) => Some key
  | Fulfilled JsNull => None
  | Fulfilled JsUndefined => Some ""
  | Rejected _ => Some "[object Object]"
  end.

End BatchCopy.

(** The clean-up of the cache in the browser's [batchDeleteKeys]:
    [if (keyCache.cache.has(id)) keyCache.cache.delete(id)] for every
    selected id; the storage is not written. *)
Definition forget (ids : list string) (c : KeyCache.t) : KeyCache.t :=
  KeyCache.with_cache (fold_left (fun cache id => delete id cache) ids (KeyCache.cache c)) c.

(** ** Sample platforms and requests, used to evaluate the definitions *)

Module ServerSamples.

Fixpoint trim_left (s : string) : string :=
  match s with
  | String c s' => if Ascii.eqb c " " then trim_left s' else s
  | EmptyString => ""
  end.

Fixpoint trim_right (s : string) : string :=
  match s with
  | String c s' =>
    match trim_right s' with
    | EmptyString => if Ascii.eqb c " " then "" else String c ""
    | rest => String c rest
    end
  | EmptyString => ""
  end.

(** A platform whose store takes every write, whose clock advances by
    one millisecond per reading, and whose [trim] strips blanks. *)
Definition platform (password : option string) : Server.Platform :=
  {| Server.world := Samples.clamped_world;
     Server.ADMIN_PASSWORD := password;
     Server.clock := fun n => (1762128000000 + Z.of_nat n)%Z;
     Server.uuid := fun n => "session-" ++ pretty n;
     Server.kv_write_error := fun _ => None;
     Server.trim := fun s => trim_right (trim_left s) |}.

Definition locked : Server.Platform := platform (Some "hunter2").

Definition unlocked : Server.Platform := platform None.

(** The same, with a store that rejects every write. *)
Definition read_only : Server.Platform :=
  {| Server.world := Samples.clamped_world;
     Server.ADMIN_PASSWORD := None;
     Server.clock := fun n => (1762128000000 + Z.of_nat n)%Z;
     Server.uuid := fun n => "session-" ++ pretty n;
     Server.kv_write_error := fun _ => Some (ErrorObject "database is locked");
     Server.trim := fun s => trim_right (trim_left s) |}.

Definition state (keyEntries : list ApiKeyEntry.t) (sessions : gmap string Session.t)
  : Server.State :=
  {| Server.effects := Samples.store keyEntries; Server.sessions := sessions;
     Server.tick := 0 |}.

Definition two_keys : Server.State :=
  state [Samples.entry "key-1" Samples.key_a; Samples.entry "key-2" Samples.key_b] ∅.

Definition no_keys : Server.State := state [] ∅.

(** A state with one session that has expired and one that has not. *)
Definition old_session : Session.t :=
  {| Session.id := "old"; Session.createdAt := 1761000000000;
     Session.expiresAt := 1761604800000 |}.

Definition new_session : Session.t :=
  {| Session.id := "new"; Session.createdAt := 1762000000000;
     Session.expiresAt := 1762604800000 |}.

Definition with_sessions : Server.State :=
  state [Samples.entry "key-1" Samples.key_a]
        (<["old" := old_session]> (<["new" := new_session]> ∅)).

Definition no_body : RequestBody.t :=
  {| RequestBody.password := None; RequestBody.keys := None; RequestBody.ids := None;
     RequestBody.key := None; RequestBody.name := None |}.

Definition request (method pathname : string) (session : option string)
    (body : RequestBody.t) : ServerRequest.t :=
  {| ServerRequest.method := method; ServerRequest.pathname := pathname;
     ServerRequest.session := session; ServerRequest.json := inr body |}.

Definition login_body (password : string) : RequestBody.t :=
  {| RequestBody.password := Some password; RequestBody.keys := None;
     RequestBody.ids := None; RequestBody.key := None; RequestBody.name := None |}.

Definition add_body (key : string) : RequestBody.t :=
  {| RequestBody.password := None; RequestBody.keys := None; RequestBody.ids := None;
     RequestBody.key := Some key; RequestBody.name := None |}.

(** A batch with a padded key, a blank one, a repetition and a key that
    [two_keys] holds already. *)
Definition batch : list string :=
  ["  fk-new-0001  "; "   "; "fk-new-0001"; Samples.key_a; "fk-new-0002"].

(** A cache of the browser with an empty storage that takes writes. *)
Definition empty_cache : KeyCache.t :=
  {| KeyCache.cache := ∅; KeyCache.maxAge := KeyCache.default_maxAge;
     KeyCache.localStorage := None; KeyCache.quota_error := None;
     KeyCache.console := [] |}.

(** Three selected ids: one in the cache, one whose download fails, one
    that the server no longer knows. *)
Definition copy_inputs : list (option string * (Thrown + BatchCopy.FullResponse)) :=
  [(Some Samples.key_a, inl (ErrorObject "Failed to fetch"));
   (None, inl (ErrorObject "Failed to fetch"));
   (None, inr {| BatchCopy.ok := false; BatchCopy.key_field := inr None |})].

End ServerSamples.

(** * Properties *)

(** ** Strings *)

Lemma length_append (a b : string) :
  String.length (a ++ b) = String.length a + String.length b.
Proof. induction a as [|c a IH]; simpl; [reflexivity | now rewrite IH]. Qed.

Lemma append_empty_r (s : string) : s ++ "" = s.
Proof.
  induction s as [|c s IH]; [reflexivity|].
  change (String c (s ++ "") = String c s). now rewrite IH.
Qed.

Lemma length_substring_le (n m : nat) (s : string) :
  String.length (substring n m s) <= m.
Proof.
  revert n m; induction s as [|c s IH]; intros n m.
  - destruct n, m; simpl; lia.
  - destruct n as [|n].
    + destruct m as [|m]; simpl; [lia|]. specialize (IH 0 m). lia.
    + simpl. apply IH.
Qed.

(** Asking [substring] for more characters than are left gives what is
    left. *)
Lemma substring_clamp (n m k : nat) (s : string) :
  String.length s - n <= m -> String.length s - n <= k ->
  substring n m s = substring n k s.
Proof.
  revert n m k; induction s as [|c s IH]; intros n m k Hm Hk.
  - destruct n, m, k; reflexivity.
  - destruct n as [|n].
    + simpl in Hm, Hk. destruct m as [|m]; [lia|]. destruct k as [|k]; [lia|].
      simpl. f_equal. apply IH; lia.
    + simpl. apply IH; simpl in *; lia.
Qed.

(** [maskedKey] is the first four characters, three dots and the last
    four characters. *)
Lemma maskedKey_first_last (key : string) :
  maskedKey key =
  substring 0 4 key ++ "..." ++ substring (String.length key - 4) 4 key.
Proof.
  unfold maskedKey. do 2 f_equal. apply substring_clamp; lia.
Qed.

Lemma length_key_prefix (key : string) : String.length (key_prefix key) <= 7.
Proof.
  unfold key_prefix. rewrite length_append.
  pose proof (length_substring_le 0 4 key). simpl. lia.
Qed.

Lemma length_maskedKey (key : string) : String.length (maskedKey key) <= 11.
Proof.
  rewrite maskedKey_first_last, !length_append.
  pose proof (length_substring_le 0 4 key).
  pose proof (length_substring_le (String.length key - 4) 4 key). simpl. lia.
Qed.

(** A string is not a part of a shorter one. *)
Lemma longer_not_inside (s pre post masked : string) :
  String.length masked < String.length s -> masked <> pre ++ s ++ post.
Proof.
  intros Hlen ->. rewrite !length_append in Hlen. lia.
Qed.

(** ** The usage fetcher *)

(** [fetchApiKeyData] never throws: it issues one request, writes at most
    one [console.error] line, and resolves to the entry that [fetched]
    describes. *)
Lemma fetchApiKeyData_run (id key : string) (w : World) (fx : Effects) :
  exists r lines,
    fetchApiKeyData id key w fx = (Normal r, sent fx (usage_request key) lines)
    /\ Forall is_console_error lines
    /\ fetched w id key r.
Proof.
  unfold fetchApiKeyData, fetched, usage_payload, try_catch, bind, fetch, await, sent.
  destruct (upstream w (usage_request key)) as [error | response]; simpl.
  { eexists _, [_]. split; [reflexivity|]. split.
    - repeat constructor. eexists; reflexivity.
    - eexists; split; [reflexivity | discriminate]. }
  destruct (ok response); simpl.
  - destruct (json response) as [error | [| [usageInfo |]]]; simpl.
    + eexists _, [_]. split; [reflexivity|]. split.
      * repeat constructor. eexists; reflexivity.
      * eexists; split; [reflexivity | discriminate].
    + eexists _, [_]. split; [reflexivity|]. split.
      * repeat constructor. eexists; reflexivity.
      * eexists; split; [reflexivity | discriminate].
    + destruct (standard usageInfo) as [standardUsage |]; simpl.
      * eexists _, []. rewrite app_nil_r. split; [reflexivity|]. split; [constructor | reflexivity].
      * eexists _, []. rewrite app_nil_r. split; [reflexivity|]. split; [constructor|].
        eexists; split; [reflexivity | discriminate].
    + eexists _, []. rewrite app_nil_r. split; [reflexivity|]. split; [constructor|].
      eexists; split; [reflexivity | discriminate].
  - destruct (text response) as [error | errorBody]; simpl.
    + eexists _, [_]. split; [reflexivity|]. split.
      * repeat constructor. eexists; reflexivity.
      * eexists; split; [reflexivity | discriminate].
    + eexists _, [_]. split; [reflexivity|]. split.
      * repeat constructor. eexists; reflexivity.
      * eexists; split; [reflexivity | discriminate].
Qed.

(** ** The snapshot assembly *)

Lemma fan_out_run (keyEntries : list ApiKeyEntry.t) (w : World) (fx : Effects) :
  exists results lines,
    fan_out keyEntries w fx = (Normal results, after_fan_out fx keyEntries lines)
    /\ Forall is_console_error lines
    /\ Forall2 (fetched_entry w) keyEntries results.
Proof.
  revert fx; induction keyEntries as [|entry keyEntries IH]; intros fx.
  - exists [], []. unfold fan_out, after_fan_out; simpl. rewrite !app_nil_r.
    destruct fx; simpl. repeat split; constructor.
  - destruct (fetchApiKeyData_run (ApiKeyEntry.id entry) (ApiKeyEntry.key entry) w fx)
      as (r & lines1 & Hrun & Hlines1 & Hr).
    destruct (IH (sent fx (usage_request (ApiKeyEntry.key entry)) lines1))
      as (results & lines2 & Hrest & Hlines2 & Hresults).
    exists (r :: results), (lines1 ++ lines2)%list.
    unfold fan_out in *. simpl. rewrite Hrun, Hrest.
    split; [| split].
    + unfold after_fan_out, sent; simpl. now rewrite <- !app_assoc.
    + now apply Forall_app.
    + now constructor.
Qed.

Lemma forEach_log_original_key (keyEntries : list ApiKeyEntry.t) (items : list UsageResult)
    (w : World) (fx : Effects) :
  forEach (log_original_key keyEntries) items w fx =
  (Normal tt,
   {| kv := kv fx; requests := requests fx;
      console := console fx ++
        map (fun e => console_log [Text (ApiKeyEntry.key e)])
            (omap (find_entry keyEntries) items) |}).
Proof.
  revert fx; induction items as [|item items IH]; intros fx.
  - simpl. rewrite app_nil_r. now destruct fx.
  - simpl. unfold bind, log_original_key at 1.
    destruct (find_entry keyEntries item) as [originalEntry |]; simpl.
    + rewrite IH; simpl. now rewrite <- app_assoc.
    + rewrite IH. reflexivity.
Qed.

Lemma getAggregatedData_empty (w : World) (fx : Effects) :
  kv fx = [] ->
  getAggregatedData w fx = (Throw (ErrorObject no_keys_message), fx).
Proof.
  intros Hkv. unfold getAggregatedData, bind, getAllApiKeys. now rewrite Hkv.
Qed.

Lemma getAggregatedData_run (w : World) (fx : Effects) :
  kv fx <> [] ->
  exists results lines,
    getAggregatedData w fx =
      (Normal (snapshot_of w (kv fx) results),
       after_fan_out fx (kv fx) (lines ++ balance_listing (kv fx) results))
    /\ Forall is_console_error lines
    /\ Forall2 (fetched_entry w) (kv fx) results.
Proof.
  intros Hkv.
  destruct (fan_out_run (kv fx) w fx) as (results & lines & Hrun & Hlines & Hres).
  exists results, lines. split; [| now split].
  unfold getAggregatedData, bind at 1, getAllApiKeys.
  destruct (kv fx) as [|entry keyEntries] eqn:Hentries; [congruence|].
  change (length (entry :: keyEntries) =? 0)%nat with false. cbv iota.
  unfold fan_out in Hrun. unfold bind at 1. rewrite Hrun.
  unfold bind at 1, ask. unfold balance_listing, snapshot_of.
  destruct (keysWithBalance results) as [|item items] eqn:Hitems.
  - change (0 <? length [])%nat with false. cbv iota.
    unfold bind, write_console, ret, after_fan_out. cbn [kv requests console].
    now rewrite <- app_assoc.
  - change (0 <? length (item :: items))%nat with true. cbv iota.
    unfold bind, write_console, ret. cbn [kv requests console].
    rewrite forEach_log_original_key. unfold after_fan_out. cbn [kv requests console].
    do 2 f_equal. rewrite <- !app_assoc. reflexivity.
Qed.




Lemma fetched_id (w : World) (id key : string) (r : UsageResult) :
  fetched w id key r -> result_id r = id.
Proof.
  unfold fetched.
  destruct (usage_payload (upstream w (usage_request key))) as [[usageInfo standardUsage] |].
  - now intros ->.
  - now intros (error & -> & _).
Qed.

(** An entry produced by the fetcher is valid exactly when it is a usage
    entry. *)
Lemma fetched_valid (w : World) (id key : string) (r : UsageResult) :
  fetched w id key r -> truthy_error r = is_err r.
Proof.
  unfold fetched.
  destruct (usage_payload (upstream w (usage_request key))) as [[usageInfo standardUsage] |].
  - now intros ->.
  - intros (error & -> & Herror). unfold truthy_error, is_err; simpl.
    destruct (String.eqb_spec error ""); [contradiction | reflexivity].
Qed.

Lemma Forall2_fetched_length (w : World) (keyEntries : list ApiKeyEntry.t)
    (results : list UsageResult) :
  Forall2 (fetched_entry w) keyEntries results -> length results = length keyEntries.
Proof. intros H. symmetry. exact (Forall2_length _ _ _ H). Qed.




(** ** The aggregator *)

Lemma fold_totals_step (l : list UsageResult) (acc : Totals) :
  fold_left totals_step l acc =
  {| total_orgTotalTokensUsed :=
       total_orgTotalTokensUsed acc + sumZ (map (fun r => or0 (result_used r)) l);
     total_totalAllowance :=
       total_totalAllowance acc + sumZ (map (fun r => or0 (result_allowance r)) l);
     total_tokensRemaining :=
       fold_left (fun n r => num_add n (Math_max0 (js_sub (result_allowance r) (result_used r))))
                 l (total_tokensRemaining acc) |}.
Proof.
  revert acc; induction l as [|r l IH]; intros acc; simpl.
  - destruct acc; simpl. f_equal; lia.
  - rewrite IH. unfold totals_step at 1 2; simpl. f_equal; lia.
Qed.

(** An error entry that passes the validity filter adds nothing to the
    first two sums. *)
Lemma sum_valid_is_sum_ok (f : UsageResult -> option Z) (results : list UsageResult) :
  (forall id key error, f (ErrEntry id key error) = None) ->
  sumZ (map (fun r => or0 (f r)) (validResults results)) =
  sumZ (map (fun r => or0 (f r)) (AggregatorSpec.ok_results results)).
Proof.
  intros Herr. unfold validResults, AggregatorSpec.ok_results.
  induction results as [|r results IH]; [reflexivity|].
  destruct r as [id key s e used allowance ratio | id key error]; simpl.
  - now rewrite IH.
  - unfold truthy_error at 1; simpl. destruct (negb (String.eqb error "")); simpl.
    + exact IH.
    + rewrite Herr, IH. reflexivity.
Qed.

Lemma valid_well_formed (results : list UsageResult) :
  Forall (fun r => well_formed r = true) results ->
  validResults results = AggregatorSpec.ok_results results
  /\ Forall (fun r => exists a u, result_allowance r = Some a /\ result_used r = Some u)
            (AggregatorSpec.ok_results results).
Proof.
  unfold validResults, AggregatorSpec.ok_results.
  induction 1 as [|r results Hr _ [IH1 IH2]]; [split; [reflexivity | constructor]|].
  destruct r as [id key s e used allowance ratio | id key error]; simpl in *.
  - rewrite IH1. split; [reflexivity|]. constructor; [| exact IH2].
    destruct used, allowance; try discriminate. simpl. eauto.
  - unfold truthy_error; simpl. rewrite Hr. simpl. now split.
Qed.

Lemma fold_remaining (l : list UsageResult) (n : Z) :
  Forall (fun r => exists a u, result_allowance r = Some a /\ result_used r = Some u) l ->
  fold_left (fun n r => num_add n (Math_max0 (js_sub (result_allowance r) (result_used r))))
            l (Num n) =
  Num (n + sumZ (map (fun r => Z.max (or0 (result_allowance r) - or0 (result_used r)) 0) l)).
Proof.
  intros Hl; revert n; induction Hl as [|r l (a & u & Ha & Hu) _ IH]; intros n; simpl.
  - f_equal; lia.
  - rewrite Ha, Hu; simpl. rewrite IH. f_equal; lia.
Qed.

(** C4. The totals of a snapshot are sums over the usage entries alone:
    the allowances, the used amounts, and the remainders
    [max(allowance - used, 0)], each clamped before it is added.  The
    first two hold for every list of results, the third as soon as every
    usage entry carries both numbers.  For the pairs (100,50), (100,150),
    (50,50) the totals are 250, 250 and 50, and the entry of the
    over-used credential still carries 100 and 150, a remainder of -50. *)
Theorem clamped_aggregation :
  (forall results : list UsageResult,
     total_totalAllowance (compute_totals results) = AggregatorSpec.totalAllowance results
     /\ total_orgTotalTokensUsed (compute_totals results) = AggregatorSpec.totalUsed results
     /\ (Forall (fun r => well_formed r = true) results ->
         total_tokensRemaining (compute_totals results) =
         Num (AggregatorSpec.totalRemainingClamped results)))
  /\ (exists snapshot over_used,
        fst (getAggregatedData Samples.clamped_world Samples.clamped_store) = Normal snapshot
        /\ map (fun r => (result_allowance r, result_used r)) (data snapshot) =
           [(Some 100, Some 50); (Some 100, Some 150); (Some 50, Some 50)]%Z
        /\ totals snapshot =
           {| total_orgTotalTokensUsed := 250; total_totalAllowance := 250;
              total_tokensRemaining := Num 50 |}
        /\ data snapshot !! 1%nat = Some over_used
        /\ js_sub (result_allowance over_used) (result_used over_used) = Num (-50)).
Proof.
  split.
  - intros results. unfold compute_totals. rewrite fold_totals_step; simpl.
    split; [| split].
    + apply (sum_valid_is_sum_ok result_allowance). reflexivity.
    + apply (sum_valid_is_sum_ok result_used). reflexivity.
    + intros Hwf. destruct (valid_well_formed results Hwf) as [-> Hok].
      rewrite fold_remaining by exact Hok. reflexivity.
  - eexists _, _. vm_compute. repeat split; reflexivity.
Qed.

Lemma clamped_aggregation_witness :
  total_tokensRemaining (compute_totals Samples.clamped_results)
  = Num (AggregatorSpec.totalRemainingClamped Samples.clamped_results)
  /\ AggregatorSpec.totalRemainingClamped Samples.clamped_results = 50%Z.
Proof.
  split; [| reflexivity].
  apply (proj2 (proj2 (proj1 clamped_aggregation Samples.clamped_results))).
  repeat constructor.
Defined.

(** ** Masking, ratio and the empty secret *)

(** C6 (as stated, refuted). With the empty secret the fetcher does send
    a request, and when the upstream answers with a usage payload the
    result is a usage entry, not an error entry. *)
Lemma empty_secret_is_sent_upstream :
  ~ ((exists id key error,
        fst (fetchApiKeyData "key-1" "" Samples.zero_allowance_world (Samples.store []))
        = Normal (ErrEntry id key error))
     /\ requests (snd (fetchApiKeyData "key-1" "" Samples.zero_allowance_world (Samples.store [])))
        = requests (Samples.store [])).
Proof. vm_compute. intros [_ H]. discriminate H. Qed.

(** C6 (amended). The fetcher has no check on the secret: for the empty
    secret, as for any other, it sends exactly one request, whose bearer
    token is the secret, and resolves to the entry that the answer of the
    upstream determines; the key shown in that entry is "...". *)
Theorem empty_secret_no_special_case (id : string) (w : World) (fx : Effects) :
  exists r lines,
    fetchApiKeyData id "" w fx = (Normal r, sent fx (usage_request "") lines)
    /\ authorization (usage_request "") = "Bearer "
    /\ fetched w id "" r
    /\ result_key r = "...".
Proof.
  destruct (fetchApiKeyData_run id "" w fx) as (r & lines & Hrun & _ & Hr).
  exists r, lines. repeat split; try assumption.
  unfold fetched in Hr.
  destruct (usage_payload (upstream w (usage_request ""))) as [[usageInfo standardUsage] |].
  - now subst r.
  - destruct Hr as (error & -> & _). reflexivity.
Qed.

(** C7 (as stated, refuted). A payload without a ratio and with a zero
    allowance gives an entry without a ratio, not the ratio 0. *)
Lemma zero_allowance_ratio_is_absent :
  exists r,
    fst (fetchApiKeyData "key-1" Samples.key_a Samples.zero_allowance_world (Samples.store []))
      = Normal r
    /\ is_ok r = true
    /\ result_allowance r = Some 0%Z
    /\ result_usedRatio r <> Some (spec_usedRatio None 0 0).
Proof. eexists. vm_compute. repeat split; discriminate. Qed.

(** C7 (amended). The ratio of a usage entry is the ratio of the payload,
    passed through as it is: the supplied value when there is one, and
    absent when the payload has none, whatever the allowance. *)
Theorem usedRatio_is_passed_through (id key : string) (w : World) (fx : Effects)
    (usageInfo : UsageInfo) (standardUsage : StandardUsage) :
  usage_payload (upstream w (usage_request key)) = Some (usageInfo, standardUsage) ->
  exists r,
    fst (fetchApiKeyData id key w fx) = Normal r
    /\ is_ok r = true
    /\ result_allowance r = totalAllowance standardUsage
    /\ result_used r = orgTotalTokensUsed standardUsage
    /\ result_usedRatio r = usedRatio standardUsage.
Proof.
  intros Hpayload.
  destruct (fetchApiKeyData_run id key w fx) as (r & lines & Hrun & _ & Hr).
  exists r. rewrite Hrun. unfold fetched in Hr. rewrite Hpayload in Hr. subst r.
  repeat split; reflexivity.
Qed.

Lemma usedRatio_is_passed_through_witness :
  exists r,
    fst (fetchApiKeyData "key-1" Samples.key_a Samples.clamped_world (Samples.store []))
      = Normal r
    /\ is_ok r = true
    /\ result_usedRatio r = Some (Qmake 1 2).
Proof.
  destruct (usedRatio_is_passed_through "key-1" Samples.key_a Samples.clamped_world
              (Samples.store []) _ _ eq_refl) as (r & Hrun & Hok & _ & _ & Hratio).
  exists r. repeat split; assumption.
Defined.

(** C8 (as stated, refuted). The error entry of a refused credential
    shows the first four characters and the dots only; and a secret of
    three characters is shown in full, before the dots, in the entry of
    its credential. *)
Lemma error_entry_lacks_last_four :
  (exists r,
     fst (fetchApiKeyData "key-4" Samples.key_d Samples.clamped_world (Samples.store []))
       = Normal r
     /\ is_err r = true
     /\ result_key r = "fk-D..."
     /\ result_key r <>
        substring 0 4 Samples.key_d ++ "..."
        ++ substring (String.length Samples.key_d - 4) 4 Samples.key_d)
  /\ (exists r,
        fst (fetchApiKeyData "key-5" "abc" Samples.clamped_world (Samples.store []))
          = Normal r
        /\ result_key r = "" ++ "abc" ++ "...").
Proof.
  split; eexists; vm_compute; repeat split; discriminate.
Qed.

(** C8 (amended). A usage entry shows the first four characters of the
    secret, three dots and its last four characters; an error entry shows
    the first four characters and three dots.  Either way the shown key
    has at most 11 characters, so a secret of more than 11 characters
    occurs nowhere in it. *)
Theorem shown_key_is_masked (id key : string) (w : World) (fx : Effects) (r : UsageResult) :
  fst (fetchApiKeyData id key w fx) = Normal r ->
  (if is_ok r
   then result_key r =
        substring 0 4 key ++ "..." ++ substring (String.length key - 4) 4 key
   else result_key r = substring 0 4 key ++ "...")
  /\ String.length (result_key r) <= 11
  /\ (11 < String.length key -> forall pre post, result_key r <> pre ++ key ++ post).
Proof.
  intros Hrun.
  destruct (fetchApiKeyData_run id key w fx) as (r' & lines & Hrun' & _ & Hr).
  rewrite Hrun' in Hrun. simpl in Hrun. injection Hrun as ->.
  assert ((if is_ok r
           then result_key r = maskedKey key
           else result_key r = key_prefix key)) as Hshape.
  { unfold fetched in Hr.
    destruct (usage_payload (upstream w (usage_request key))) as [[usageInfo standardUsage] |].
    - now subst r.
    - destruct Hr as (error & -> & _). reflexivity. }
  assert (String.length (result_key r) <= 11) as Hlen.
  { destruct (is_ok r); rewrite Hshape.
    - apply length_maskedKey.
    - pose proof (length_key_prefix key). lia. }
  split; [| split].
  - destruct (is_ok r); [now rewrite <- maskedKey_first_last | exact Hshape].
  - exact Hlen.
  - intros Hlong pre post. apply longer_not_inside. lia.
Qed.

Lemma shown_key_is_masked_witness :
  result_key (OkEntry "key-1" "fk-A...0001" "2025-11-01" "2025-11-01"
                (Some 50%Z) (Some 100%Z) (Some (Qmake 1 2)))
  = substring 0 4 Samples.key_a ++ "..."
    ++ substring (String.length Samples.key_a - 4) 4 Samples.key_a
  /\ forall pre post, "fk-A...0001" <> pre ++ Samples.key_a ++ post.
Proof.
  destruct (shown_key_is_masked "key-1" Samples.key_a Samples.clamped_world
              (Samples.store []) _ eq_refl) as (Hshape & _ & Hfull).
  split; [exact Hshape|]. apply Hfull. vm_compute. lia.
Defined.

(** ** What the snapshot assembly logs, and what it counts *)

Lemma find_first {A} (f : A -> bool) (l : list A) (i : nat) (x : A) :
  l !! i = Some x -> f x = true ->
  (forall j y, j < i -> l !! j = Some y -> f y = false) ->
  List.find f l = Some x.
Proof.
  revert i; induction l as [|a l IH]; intros i Hi Hx Hbefore; [discriminate|].
  destruct i as [|i]; simpl in *.
  - injection Hi as ->. now rewrite Hx.
  - rewrite (Hbefore 0 a) by (reflexivity || lia).
    apply (IH i); try assumption.
    intros j y Hj Hy. apply (Hbefore (S j) y); [lia | exact Hy].
Qed.

Lemma In_omap {A B} (f : A -> option B) (l : list A) (x : A) (y : B) :
  In x l -> f x = Some y -> In y (omap f l).
Proof.
  intros Hin Hf. apply list_elem_of_In, list_elem_of_omap.
  exists x. split; [now apply list_elem_of_In | exact Hf].
Qed.

(** C9 (as stated, refuted). The aggregation over the three credentials
    of the clamped example writes the complete secret of the first one to
    the console. *)
Lemma secret_is_logged_in_full :
  logs_in_full Samples.key_a
    (console (snd (getAggregatedData Samples.clamped_world Samples.clamped_store))).
Proof.
  exists (console_log [Text Samples.key_a]), "", "". split.
  - vm_compute. tauto.
  - vm_compute. tauto.
Qed.

(** C9 (amended). What an aggregation call adds to the console is the
    [console.error] lines of the fetcher followed by the listing of the
    credentials with a positive remaining balance, and that listing holds
    the complete secret of every stored credential whose entry is a usage
    entry with [allowance - used > 0] (the first one, should two stored
    credentials share an id). *)
Theorem secrets_with_balance_are_logged (w : World) (fx fx' : Effects) (snapshot : Snapshot) :
  getAggregatedData w fx = (Normal snapshot, fx') ->
  (exists lines,
     console fx' = (console fx ++ lines ++ balance_listing (kv fx) (data snapshot))%list
     /\ Forall is_console_error lines)
  /\ (forall i entry r,
        kv fx !! i = Some entry ->
        data snapshot !! i = Some r ->
        (forall j entry', j < i -> kv fx !! j = Some entry' ->
                          ApiKeyEntry.id entry' <> ApiKeyEntry.id entry) ->
        is_ok r = true ->
        has_balance r = true ->
        In (console_log [Text (ApiKeyEntry.key entry)]) (console fx')
        /\ logs_in_full (ApiKeyEntry.key entry) (console fx')).
Proof.
  intros Hrun.
  assert (kv fx <> []) as Hkv.
  { intros Hempty. rewrite (getAggregatedData_empty w fx Hempty) in Hrun. discriminate. }
  destruct (getAggregatedData_run w fx Hkv) as (results & lines & Hrun' & Hlines & Hres).
  rewrite Hrun' in Hrun. injection Hrun as <- <-. simpl.
  split; [exists lines; now split|].
  intros i entry r Hentry Hr Hfirst Hok Hbalance.
  assert (In (console_log [Text (ApiKeyEntry.key entry)])
             (console fx ++ lines ++ balance_listing (kv fx) results)) as Hin.
  { assert (In r (keysWithBalance results)) as Hitem.
    { unfold keysWithBalance, validResults. apply filter_In. split; [| exact Hbalance].
      apply filter_In. split.
      - apply list_elem_of_In, list_elem_of_lookup. eauto.
      - destruct r; [reflexivity | discriminate]. }
    assert (find_entry (kv fx) r = Some entry) as Hfind.
    { assert (result_id r = ApiKeyEntry.id entry) as Hid.
      { destruct (Forall2_lookup_l _ _ _ _ _ Hres Hentry) as (r' & Hr' & Hfetched).
        rewrite Hr in Hr'. injection Hr' as <-. exact (fetched_id _ _ _ _ Hfetched). }
      unfold find_entry. apply (find_first _ _ i); [exact Hentry | |].
      - rewrite Hid. apply String.eqb_refl.
      - intros j entry' Hj Hentry'. rewrite Hid. apply String.eqb_neq. eauto. }
    apply in_or_app; right. apply in_or_app; right.
    unfold balance_listing. destruct (keysWithBalance results) as [|item items] eqn:Hitems;
      [contradiction|].
    apply in_or_app; right. apply in_or_app; left.
    apply (in_map (fun e => console_log [Text (ApiKeyEntry.key e)])).
    exact (In_omap _ _ _ _ Hitem Hfind). }
  split; [exact Hin|].
  exists (console_log [Text (ApiKeyEntry.key entry)]), "", "". split; [exact Hin|].
  simpl. left. now rewrite append_empty_r.
Qed.

Lemma secrets_with_balance_are_logged_witness :
  In (console_log [Text Samples.key_a])
     (console (snd (getAggregatedData Samples.clamped_world Samples.clamped_store))).
Proof.
  apply (proj2 (secrets_with_balance_are_logged
                  Samples.clamped_world Samples.clamped_store _ _ eq_refl)
               0 (Samples.entry "key-1" Samples.key_a) _ eq_refl eq_refl).
  - intros j entry' Hj. lia.
  - reflexivity.
  - reflexivity.
Defined.

Lemma fetched_validResults (w : World) (keyEntries : list ApiKeyEntry.t)
    (results : list UsageResult) :
  Forall2 (fetched_entry w) keyEntries results ->
  validResults results = List.filter is_ok results.
Proof.
  unfold validResults. induction 1 as [|entry r ? ? Hr _ IH]; [reflexivity|].
  simpl. rewrite (fetched_valid _ _ _ _ Hr). unfold is_err. rewrite negb_involutive, IH.
  reflexivity.
Qed.

(** C10. The [total_count] of a snapshot is the number of stored
    credentials and the length of [data]; it counts the error entries
    together with the usage entries. *)
Theorem total_count_counts_every_credential (w : World) (fx fx' : Effects) (snapshot : Snapshot) :
  getAggregatedData w fx = (Normal snapshot, fx') ->
  total_count snapshot = length (kv fx)
  /\ total_count snapshot = length (data snapshot)
  /\ total_count snapshot =
     length (List.filter is_ok (data snapshot)) + length (List.filter is_err (data snapshot))
  /\ validResults (data snapshot) = List.filter is_ok (data snapshot).
Proof.
  intros Hrun.
  assert (kv fx <> []) as Hkv.
  { intros Hempty. rewrite (getAggregatedData_empty w fx Hempty) in Hrun. discriminate. }
  destruct (getAggregatedData_run w fx Hkv) as (results & lines & Hrun' & _ & Hres).
  rewrite Hrun' in Hrun. injection Hrun as <- _. simpl.
  pose proof (Forall2_fetched_length _ _ _ Hres) as Hlen.
  split; [reflexivity|]. split; [now rewrite Hlen|]. split.
  - rewrite <- Hlen. clear. induction results as [|r results IH]; [reflexivity|].
    unfold is_err in *. simpl. destruct (is_ok r); simpl; lia.
  - exact (fetched_validResults _ _ _ Hres).
Qed.

Lemma total_count_counts_every_credential_witness :
  exists snapshot,
    fst (getAggregatedData Samples.clamped_world Samples.mixed_store) = Normal snapshot
    /\ total_count snapshot = 2
    /\ length (data snapshot) = 2
    /\ length (validResults (data snapshot)) = 1.
Proof.
  eexists. split; [vm_compute; reflexivity|].
  destruct (total_count_counts_every_credential
              Samples.clamped_world Samples.mixed_store _ _ eq_refl)
    as (Hstore & Hdata & _ & Hvalid).
  split; [exact Hstore|]. split; [exact (eq_trans (eq_sym Hdata) Hstore)|].
  exact (f_equal (@length UsageResult) Hvalid).
Defined.

(** * Properties of the server and of the browser script *)

(** ** The stored credentials *)

Lemma compare_refl (a : string) : String.compare a a = Eq.
Proof. now apply String_as_OT.cmp_eq. Qed.

Lemma compare_eqb (a b : string) :
  String.eqb a b = match String.compare a b with Eq => true | _ => false end.
Proof.
  destruct (String.compare a b) eqn:Hcmp.
  - apply String_as_OT.cmp_eq in Hcmp as ->. apply String.eqb_refl.
  - apply String.eqb_neq. intros ->. now rewrite compare_refl in Hcmp.
  - apply String.eqb_neq. intros ->. now rewrite compare_refl in Hcmp.
Qed.

Lemma kv_get_set_eq (entry : ApiKeyEntry.t) (store : list ApiKeyEntry.t) :
  Server.kv_get (ApiKeyEntry.id entry) (Server.kv_set entry store) = Some entry.
Proof.
  unfold Server.kv_get. induction store as [|e store IH]; simpl.
  - now rewrite String.eqb_refl.
  - destruct (String.compare (ApiKeyEntry.id entry) (ApiKeyEntry.id e)) eqn:Hcmp; simpl.
    + now rewrite String.eqb_refl.
    + now rewrite String.eqb_refl.
    + rewrite String.eqb_sym, compare_eqb, Hcmp. exact IH.
Qed.

Lemma kv_get_set_ne (entry : ApiKeyEntry.t) (store : list ApiKeyEntry.t) (id : string) :
  id <> ApiKeyEntry.id entry ->
  Server.kv_get id (Server.kv_set entry store) = Server.kv_get id store.
Proof.
  intros Hne. unfold Server.kv_get.
  assert (String.eqb (ApiKeyEntry.id entry) id = false) as Hentry
    by (apply String.eqb_neq; congruence).
  induction store as [|e store IH]; simpl.
  - now rewrite Hentry.
  - destruct (String.compare (ApiKeyEntry.id entry) (ApiKeyEntry.id e)) eqn:Hcmp; simpl.
    + apply String_as_OT.cmp_eq in Hcmp. rewrite Hentry, <- Hcmp, Hentry. reflexivity.
    + now rewrite Hentry.
    + now rewrite IH.
Qed.

Lemma kv_get_delete_eq (id : string) (store : list ApiKeyEntry.t) :
  Server.kv_get id (Server.kv_delete id store) = None.
Proof.
  unfold Server.kv_get, Server.kv_delete. induction store as [|e store IH]; [reflexivity|].
  simpl. destruct (String.eqb (ApiKeyEntry.id e) id) eqn:He; simpl; [exact IH|].
  now rewrite He.
Qed.

Lemma kv_get_delete_ne (id id' : string) (store : list ApiKeyEntry.t) :
  id' <> id ->
  Server.kv_get id' (Server.kv_delete id store) = Server.kv_get id' store.
Proof.
  intros Hne. unfold Server.kv_get, Server.kv_delete.
  induction store as [|e store IH]; [reflexivity|].
  simpl. destruct (String.eqb (ApiKeyEntry.id e) id) eqn:He; simpl.
  - apply String.eqb_eq in He.
    assert (String.eqb (ApiKeyEntry.id e) id' = false) as ->
      by (apply String.eqb_neq; congruence).
    exact IH.
  - now rewrite IH.
Qed.

(** What [saveApiKey] does, step by step. *)
Lemma saveApiKey_run (id key : string) (name : option string) (p : Server.Platform)
    (s : Server.State) :
  Server.saveApiKey id key name p s =
  match Server.kv_write_error p (S (Server.tick s)) with
  | Some error =>
    (Throw error,
     {| Server.effects := Server.effects s; Server.sessions := Server.sessions s;
        Server.tick := S (S (Server.tick s)) |})
  | None =>
    (Normal tt,
     {| Server.effects :=
          {| kv := Server.kv_set
                     {| ApiKeyEntry.id := id; ApiKeyEntry.key := key;
                        ApiKeyEntry.name := Some (Server.name_or_default name id);
                        ApiKeyEntry.createdAt := Server.clock p (Server.tick s) |}
                     (kv (Server.effects s));
             requests := requests (Server.effects s);
             console := console (Server.effects s) |};
        Server.sessions := Server.sessions s;
        Server.tick := S (S (Server.tick s)) |})
  end.
Proof.
  unfold Server.saveApiKey, Server.Date_now, Server.kv_commit, Server.bind, Server.next_tick,
    Server.platform, Server.ret, Server.get_state, Server.set_store, Server.throw; simpl.
  destruct (Server.kv_write_error p (S (Server.tick s))); reflexivity.
Qed.

Lemma deleteApiKey_run (id : string) (p : Server.Platform) (s : Server.State) :
  Server.deleteApiKey id p s =
  match Server.kv_write_error p (Server.tick s) with
  | Some error =>
    (Throw error,
     {| Server.effects := Server.effects s; Server.sessions := Server.sessions s;
        Server.tick := S (Server.tick s) |})
  | None =>
    (Normal tt,
     {| Server.effects :=
          {| kv := Server.kv_delete id (kv (Server.effects s));
             requests := requests (Server.effects s);
             console := console (Server.effects s) |};
        Server.sessions := Server.sessions s;
        Server.tick := S (Server.tick s) |})
  end.
Proof.
  unfold Server.deleteApiKey, Server.kv_commit, Server.bind, Server.next_tick,
    Server.platform, Server.ret, Server.get_state, Server.set_store, Server.throw; simpl.
  destruct (Server.kv_write_error p (Server.tick s)); reflexivity.
Qed.

(** X1. A credential saved with [saveApiKey] is what [getApiKey] returns
    under its id, with the name defaulting to "Key <id>" when none (or an
    empty one) is given and the creation time read from the clock; every
    other id reads as before.  When the store rejects the write, the call
    throws and nothing is stored. *)
Theorem saveApiKey_then_getApiKey (id key : string) (name : option string)
    (p : Server.Platform) (s : Server.State) :
  match Server.kv_write_error p (S (Server.tick s)) with
  | None =>
    exists s',
      Server.saveApiKey id key name p s = (Normal tt, s')
      /\ fst (Server.getApiKey id p s') =
         Normal (Some {| ApiKeyEntry.id := id; ApiKeyEntry.key := key;
                         ApiKeyEntry.name := Some (Server.name_or_default name id);
                         ApiKeyEntry.createdAt := Server.clock p (Server.tick s) |})
      /\ (forall id', id' <> id ->
            fst (Server.getApiKey id' p s') = fst (Server.getApiKey id' p s))
  | Some error =>
    exists s',
      Server.saveApiKey id key name p s = (Throw error, s')
      /\ Server.effects s' = Server.effects s
  end.
Proof.
  rewrite saveApiKey_run.
  destruct (Server.kv_write_error p (S (Server.tick s))) as [error|].
  - eexists. split; reflexivity.
  - eexists. split; [reflexivity|]. split.
    + unfold Server.getApiKey, Server.bind, Server.get_state, Server.ret; simpl.
      f_equal. apply (kv_get_set_eq {| ApiKeyEntry.id := id |}).
    + intros id' Hne.
      unfold Server.getApiKey, Server.bind, Server.get_state, Server.ret; simpl.
      f_equal. apply (kv_get_set_ne {| ApiKeyEntry.id := id |}). exact Hne.
Qed.

(** X2. After [deleteApiKey] nothing is stored under the id any more and
    every other id reads as before; deleting an id that is not stored
    succeeds as well.  When the store rejects the write, the call throws
    and the store is unchanged. *)
Theorem deleteApiKey_then_getApiKey (id : string) (p : Server.Platform) (s : Server.State) :
  match Server.kv_write_error p (Server.tick s) with
  | None =>
    exists s',
      Server.deleteApiKey id p s = (Normal tt, s')
      /\ fst (Server.getApiKey id p s') = Normal None
      /\ (forall id', id' <> id ->
            fst (Server.getApiKey id' p s') = fst (Server.getApiKey id' p s))
  | Some error =>
    exists s',
      Server.deleteApiKey id p s = (Throw error, s')
      /\ Server.effects s' = Server.effects s
  end.
Proof.
  rewrite deleteApiKey_run.
  destruct (Server.kv_write_error p (Server.tick s)) as [error|].
  - eexists. split; reflexivity.
  - eexists. split; [reflexivity|]. split.
    + unfold Server.getApiKey, Server.bind, Server.get_state, Server.ret; simpl.
      f_equal. apply kv_get_delete_eq.
    + intros id' Hne.
      unfold Server.getApiKey, Server.bind, Server.get_state, Server.ret; simpl.
      f_equal. now apply kv_get_delete_ne.
Qed.

(** ** The order of the stored credentials *)

Lemma id_before_trans (a b c : ApiKeyEntry.t) : id_before a b -> id_before b c -> id_before a c.
Proof.
  unfold id_before. intros Hab Hbc.
  apply String_as_OT.cmp_lt. apply String_as_OT.cmp_lt in Hab, Hbc.
  exact (String_as_OT.lt_trans _ _ _ Hab Hbc).
Qed.

Lemma id_before_irrefl (a b : ApiKeyEntry.t) :
  id_before a b -> ApiKeyEntry.id a <> ApiKeyEntry.id b.
Proof. unfold id_before. intros Hab Heq. rewrite Heq, compare_refl in Hab. discriminate. Qed.

Lemma Forall_kv_set (P : ApiKeyEntry.t -> Prop) (entry : ApiKeyEntry.t)
    (store : list ApiKeyEntry.t) :
  P entry -> List.Forall P store -> List.Forall P (Server.kv_set entry store).
Proof.
  intros Hentry Hstore. induction Hstore as [|e store He Hstore IH]; simpl.
  - now constructor.
  - destruct (String.compare (ApiKeyEntry.id entry) (ApiKeyEntry.id e));
      repeat constructor; assumption.
Qed.

Lemma kv_set_ordered (entry : ApiKeyEntry.t) (store : list ApiKeyEntry.t) :
  ordered store -> ordered (Server.kv_set entry store).
Proof.
  unfold ordered. induction 1 as [|e store Hstore IH He]; simpl.
  - repeat constructor.
  - destruct (String.compare (ApiKeyEntry.id entry) (ApiKeyEntry.id e)) eqn:Hcmp.
    + constructor; [exact Hstore|].
      apply String_as_OT.cmp_eq in Hcmp.
      eapply List.Forall_impl; [|exact He]. unfold id_before. intros x Hx. now rewrite Hcmp.
    + constructor; [now constructor|]. constructor; [exact Hcmp|].
      eapply List.Forall_impl; [|exact He]. intros x Hx. now apply id_before_trans with e.
    + constructor; [exact IH|]. apply Forall_kv_set; [|exact He].
      unfold id_before. rewrite String_as_OT.cmp_antisym.
      change String_as_OT.cmp with String.compare. now rewrite Hcmp.
Qed.

Lemma kv_delete_ordered (id : string) (store : list ApiKeyEntry.t) :
  ordered store -> ordered (Server.kv_delete id store).
Proof.
  unfold ordered, Server.kv_delete. induction 1 as [|e store Hstore IH He]; simpl.
  - constructor.
  - destruct (negb (String.eqb (ApiKeyEntry.id e) id)); [|exact IH].
    constructor; [exact IH|].
    apply List.Forall_forall. intros x Hx. apply List.filter_In in Hx as [Hx _].
    exact (proj1 (List.Forall_forall _ _) He x Hx).
Qed.

Lemma ordered_NoDup (store : list ApiKeyEntry.t) :
  ordered store -> List.NoDup (map ApiKeyEntry.id store).
Proof.
  unfold ordered. induction 1 as [|e store Hstore IH He]; simpl; constructor; [|exact IH].
  intros Hin. apply List.in_map_iff in Hin as (x & Hid & Hx).
  apply (proj1 (List.Forall_forall _ _) He) in Hx. apply id_before_irrefl in Hx.
  congruence.
Qed.

(** ** Properties kept by whole computations *)

Lemma keeps_ret (I : list ApiKeyEntry.t -> Prop) {A} (a : A) : keeps I (Server.ret a).
Proof. intros p s Hs. exact Hs. Qed.

Lemma keeps_throw (I : list ApiKeyEntry.t -> Prop) {A} (error : Thrown) :
  keeps I (@Server.throw A error).
Proof. intros p s Hs. exact Hs. Qed.

Lemma keeps_bind (I : list ApiKeyEntry.t -> Prop) {A B} (m : Server.M A) (k : A -> Server.M B) :
  keeps I m -> (forall a, keeps I (k a)) -> keeps I (Server.bind m k).
Proof.
  intros Hm Hk p s Hs. unfold Server.bind. specialize (Hm p s Hs).
  destruct (m p s) as [[a|error] s']; simpl in *; [|exact Hm]. now apply Hk.
Qed.

Lemma keeps_try_catch (I : list ApiKeyEntry.t -> Prop) {A} (body : Server.M A)
    (handler : Thrown -> Server.M A) :
  keeps I body -> (forall error, keeps I (handler error)) ->
  keeps I (Server.try_catch body handler).
Proof.
  intros Hm Hk p s Hs. unfold Server.try_catch. specialize (Hm p s Hs).
  destruct (body p s) as [[a|error] s']; simpl in *; [exact Hm|]. now apply Hk.
Qed.

Lemma keeps_lift (I : list ApiKeyEntry.t -> Prop) {A} (m : Async A) :
  (forall w fx, kv (snd (m w fx)) = kv fx) -> keeps I (Server.lift m).
Proof.
  intros Hm p s Hs. unfold Server.lift, store_of.
  specialize (Hm (Server.world p) (Server.effects s)).
  destruct (m (Server.world p) (Server.effects s)) as [c fx']; simpl in *. now rewrite Hm.
Qed.

Lemma keeps_platform (I : list ApiKeyEntry.t -> Prop) : keeps I Server.platform.
Proof. intros p s Hs. exact Hs. Qed.

Lemma keeps_get_state (I : list ApiKeyEntry.t -> Prop) : keeps I Server.get_state.
Proof. intros p s Hs. exact Hs. Qed.

Lemma keeps_next_tick (I : list ApiKeyEntry.t -> Prop) : keeps I Server.next_tick.
Proof. intros p s Hs. exact Hs. Qed.

Lemma keeps_set_sessions (I : list ApiKeyEntry.t -> Prop) (sessions' : gmap string Session.t) :
  keeps I (Server.set_sessions sessions').
Proof. intros p s Hs. exact Hs. Qed.

Lemma keeps_Date_now (I : list ApiKeyEntry.t -> Prop) : keeps I Server.Date_now.
Proof. intros p s Hs. exact Hs. Qed.

Lemma keeps_randomUUID (I : list ApiKeyEntry.t -> Prop) : keeps I Server.randomUUID.
Proof. intros p s Hs. exact Hs. Qed.

Lemma keeps_kv_commit (I : list ApiKeyEntry.t -> Prop) : keeps I Server.kv_commit.
Proof.
  intros p s Hs. unfold Server.kv_commit, Server.bind, Server.next_tick, Server.platform.
  simpl. destruct (Server.kv_write_error p (Server.tick s)); exact Hs.
Qed.

Lemma getAggregatedData_kv (w : World) (fx : Effects) :
  kv (snd (getAggregatedData w fx)) = kv fx.
Proof.
  destruct (kv fx) as [|e store] eqn:Hkv.
  - rewrite getAggregatedData_empty by exact Hkv. exact Hkv.
  - destruct (getAggregatedData_run w fx) as (results & lines & Hrun & _); [congruence|].
    rewrite Hrun. exact Hkv.
Qed.

Section Kept.

Variable I : list ApiKeyEntry.t -> Prop.
Hypothesis I_set : forall entry store, I store -> I (Server.kv_set entry store).
Hypothesis I_delete : forall id store, I store -> I (Server.kv_delete id store).

Lemma keeps_saveApiKey (id key : string) (name : option string) :
  keeps I (Server.saveApiKey id key name).
Proof.
  intros p s Hs. rewrite saveApiKey_run.
  destruct (Server.kv_write_error p (S (Server.tick s))); [exact Hs|]. now apply I_set.
Qed.

Lemma keeps_deleteApiKey (id : string) : keeps I (Server.deleteApiKey id).
Proof.
  intros p s Hs. rewrite deleteApiKey_run.
  destruct (Server.kv_write_error p (Server.tick s)); [exact Hs|]. now apply I_delete.
Qed.

Lemma keeps_write_console (line : ConsoleLine) : keeps I (Server.lift (write_console line)).
Proof. now apply keeps_lift. Qed.

Lemma keeps_import_one (key : string) (i : nat) (existingKeySet : gset string) :
  keeps I (Server.import_one key i existingKeySet).
Proof.
  unfold Server.import_one. apply keeps_try_catch.
  - destruct (decide (key ∈ existingKeySet)).
    + apply keeps_bind; [apply keeps_write_console|]. intros _. apply keeps_ret.
    + apply keeps_bind; [apply keeps_Date_now|]. intros now.
      apply keeps_bind; [apply keeps_saveApiKey|]. intros _. apply keeps_ret.
  - intros error. apply keeps_bind; [apply keeps_write_console|]. intros _. apply keeps_ret.
Qed.

Lemma keeps_import_loop (keys : list string) (i : nat) (existingKeySet : gset string)
    (counts : Server.ImportCounts.t) :
  keeps I (Server.import_loop keys i existingKeySet counts).
Proof.
  revert i existingKeySet counts. induction keys as [|raw keys IH]; intros i set counts; simpl.
  - apply keeps_ret.
  - apply keeps_bind; [apply keeps_platform|]. intros p.
    destruct (0 <? String.length (Server.trim p raw))%nat; [|apply IH].
    apply keeps_bind; [apply keeps_import_one|]. intros [| |]; apply IH.
Qed.

Lemma keeps_batchImportKeys (keys : list string) : keeps I (Server.batchImportKeys keys).
Proof.
  unfold Server.batchImportKeys. apply keeps_bind; [now apply keeps_lift|].
  intros existing. apply keeps_import_loop.
Qed.

Lemma keeps_delete_loop (ids : list string) (counts : Server.DeleteCounts.t) :
  keeps I (Server.delete_loop ids counts).
Proof.
  revert counts. induction ids as [|id ids IH]; intros counts; simpl.
  - apply keeps_ret.
  - apply keeps_bind; [|intros ok; apply IH].
    apply keeps_try_catch.
    + apply keeps_bind; [apply keeps_deleteApiKey|]. intros _. apply keeps_ret.
    + intros error. apply keeps_bind; [apply keeps_write_console|]. intros _. apply keeps_ret.
Qed.

Lemma keeps_createSession : keeps I Server.createSession.
Proof.
  unfold Server.createSession.
  apply keeps_bind; [apply keeps_randomUUID|]. intros sessionId.
  apply keeps_bind; [apply keeps_Date_now|]. intros createdAt.
  apply keeps_bind; [apply keeps_Date_now|]. intros now.
  apply keeps_bind; [apply keeps_kv_commit|]. intros _.
  apply keeps_bind; [apply keeps_get_state|]. intros s.
  apply keeps_bind; [apply keeps_set_sessions|]. intros _. apply keeps_ret.
Qed.

Lemma keeps_validateSession (sessionId : string) : keeps I (Server.validateSession sessionId).
Proof.
  unfold Server.validateSession.
  apply keeps_bind; [apply keeps_get_state|]. intros s.
  destruct (Server.sessions s !! sessionId) as [session|]; [|apply keeps_ret].
  apply keeps_bind; [apply keeps_Date_now|]. intros now.
  destruct (Session.expiresAt session <? now)%Z; [|apply keeps_ret].
  apply keeps_bind; [apply keeps_kv_commit|]. intros _.
  apply keeps_bind; [apply keeps_get_state|]. intros s'.
  apply keeps_bind; [apply keeps_set_sessions|]. intros _. apply keeps_ret.
Qed.

Lemma keeps_isAuthenticated (req : ServerRequest.t) : keeps I (Server.isAuthenticated req).
Proof.
  unfold Server.isAuthenticated.
  apply keeps_bind; [apply keeps_platform|]. intros p.
  destruct (negb (Server.truthy (Server.ADMIN_PASSWORD p))); [apply keeps_ret|].
  destruct (negb (Server.truthy (ServerRequest.session req))); [apply keeps_ret|].
  destruct (ServerRequest.session req); [apply keeps_validateSession|apply keeps_ret].
Qed.

Lemma keeps_respond (status : nat) (body : ResponseBody) : keeps I (Handler.respond status body).
Proof. apply keeps_ret. Qed.

Lemma keeps_respond_500 (error : Thrown) : keeps I (Handler.respond_500 error).
Proof.
  unfold Handler.respond_500.
  destruct (ConcurrentTaskRunner.message_of error); [apply keeps_respond|apply keeps_throw].
Qed.

Lemma keeps_req_json (req : ServerRequest.t) : keeps I (Handler.req_json req).
Proof.
  unfold Handler.req_json. destruct (ServerRequest.json req); [apply keeps_throw|apply keeps_ret].
Qed.

Lemma keeps_login (req : ServerRequest.t) : keeps I (Handler.login req).
Proof.
  unfold Handler.login. apply keeps_try_catch; [|apply keeps_respond_500].
  apply keeps_bind; [apply keeps_req_json|]. intros body.
  apply keeps_bind; [apply keeps_platform|]. intros p.
  destruct (Handler.same_password _ _); [|apply keeps_respond].
  apply keeps_bind; [apply keeps_createSession|]. intros sessionId. apply keeps_ret.
Qed.

Lemma keeps_routes (req : ServerRequest.t) : keeps I (Handler.routes req).
Proof.
  unfold Handler.routes.
  destruct (String.eqb (ServerRequest.pathname req) "/api/data").
  { apply keeps_try_catch.
    - apply keeps_bind; [apply keeps_lift, getAggregatedData_kv|]. intros data.
      apply keeps_respond.
    - intros error. apply keeps_bind; [apply keeps_write_console|].
      intros _. apply keeps_respond_500. }
  destruct (String.eqb (ServerRequest.pathname req) "/api/keys" && _).
  { apply keeps_try_catch; [|apply keeps_respond_500].
    apply keeps_bind; [now apply keeps_lift|]. intros keys. apply keeps_respond. }
  destruct (String.eqb (ServerRequest.pathname req) "/api/keys/import" && _).
  { apply keeps_try_catch; [|apply keeps_respond_500].
    apply keeps_bind; [apply keeps_req_json|]. intros body.
    destruct (RequestBody.keys body); [|apply keeps_respond].
    apply keeps_bind; [apply keeps_batchImportKeys|]. intros result. apply keeps_respond. }
  destruct (matches_full_route (ServerRequest.pathname req) && _).
  { apply keeps_try_catch; [|apply keeps_respond_500].
    destruct (part _ _) as [id|]; [|apply keeps_respond].
    destruct (String.eqb id ""); [apply keeps_respond|].
    apply keeps_bind; [apply keeps_bind; [apply keeps_get_state|intros s; apply keeps_ret]|].
    intros [entry|]; apply keeps_respond. }
  destruct (String.eqb (ServerRequest.pathname req) "/api/keys/batch-delete" && _).
  { apply keeps_try_catch; [|apply keeps_respond_500].
    apply keeps_bind; [apply keeps_req_json|]. intros body.
    destruct (RequestBody.ids body) as [[|id ids]|]; try apply keeps_respond.
    apply keeps_bind; [apply keeps_delete_loop|]. intros result. apply keeps_respond. }
  destruct (startsWith (ServerRequest.pathname req) "/api/keys/" && _).
  { apply keeps_try_catch; [|apply keeps_respond_500].
    destruct (pop _) as [id|]; [|apply keeps_respond].
    destruct (String.eqb id "" || String.eqb id "batch-delete"); [apply keeps_respond|].
    apply keeps_bind; [apply keeps_deleteApiKey|]. intros _. apply keeps_respond. }
  destruct (String.eqb (ServerRequest.pathname req) "/api/keys" && _).
  { apply keeps_try_catch; [|apply keeps_respond_500].
    apply keeps_bind; [apply keeps_req_json|]. intros body.
    destruct (negb (Server.truthy (RequestBody.key body))); [apply keeps_respond|].
    destruct (RequestBody.key body) as [key|]; [|apply keeps_respond].
    apply keeps_bind; [apply keeps_Date_now|]. intros now.
    apply keeps_bind; [apply keeps_saveApiKey|]. intros _. apply keeps_respond. }
  apply keeps_respond.
Qed.

Lemma keeps_handler (req : ServerRequest.t) : keeps I (Handler.handler req).
Proof.
  unfold Handler.handler.
  destruct (String.eqb (ServerRequest.method req) "OPTIONS"); [apply keeps_respond|].
  destruct (String.eqb (ServerRequest.pathname req) "/api/login" && _); [apply keeps_login|].
  apply keeps_bind; [apply keeps_platform|]. intros p.
  apply keeps_bind.
  - destruct (Server.truthy (Server.ADMIN_PASSWORD p) && _); [|apply keeps_ret].
    apply keeps_bind; [apply keeps_isAuthenticated|]. intros authenticated. apply keeps_ret.
  - intros [|]; [apply keeps_respond|].
    destruct (String.eqb (ServerRequest.pathname req) "/"); [apply keeps_respond|].
    apply keeps_bind; [apply keeps_isAuthenticated|]. intros authenticated.
    destruct (Server.truthy (Server.ADMIN_PASSWORD p) && negb authenticated);
      [apply keeps_respond|apply keeps_routes].
Qed.

End Kept.

(** X3. Whatever the request, [handler] keeps the credentials in the
    order of their ids with every id stored once, so the listing that
    [getAllApiKeys] returns never shows an id twice. *)
Theorem handler_keeps_store_ordered (req : ServerRequest.t) (p : Server.Platform)
    (s : Server.State) :
  ordered (store_of s) ->
  let s' := snd (Handler.handler req p s) in
  ordered (store_of s')
  /\ List.NoDup (map ApiKeyEntry.id (store_of s'))
  /\ fst (getAllApiKeys (Server.world p) (Server.effects s')) = Normal (store_of s').
Proof.
  intros Hs s'.
  assert (ordered (store_of s')) as Hs'.
  { apply (keeps_handler ordered kv_set_ordered kv_delete_ordered req p s Hs). }
  split; [exact Hs'|]. split; [now apply ordered_NoDup|reflexivity].
Qed.

(** ** Decimal numerals in generated ids *)

Lemma string_app_cons (c : ascii) (s t : string) : String c s ++ t = String c (s ++ t).
Proof. reflexivity. Qed.

Lemma string_app_assoc (a b c : string) : (a ++ b) ++ c = a ++ b ++ c.
Proof. induction a as [|x a IH]; [reflexivity|]. now rewrite !string_app_cons, IH. Qed.

Lemma occurs_app (c : ascii) (a b : string) : occurs c (a ++ b) = occurs c a || occurs c b.
Proof.
  induction a as [|x a IH]; [reflexivity|].
  rewrite string_app_cons. cbn [occurs]. now rewrite IH, orb_assoc.
Qed.

Lemma is_digit_pretty_N_char (x : N) : is_digit (pretty_N_char x) = true.
Proof. unfold pretty_N_char. repeat case_match; reflexivity. Qed.

Lemma occurs_pretty_N_go (c : ascii) (x : N) (s : string) :
  is_digit c = false -> occurs c (pretty_N_go x s) = occurs c s.
Proof.
  intros Hc. revert s. induction (N.lt_wf_0 x) as [x _ IH]. intros s.
  assert (x = 0 \/ 0 < x)%N as [->|Hx] by lia.
  - now rewrite pretty_N_go_0.
  - rewrite pretty_N_go_step by exact Hx. rewrite IH by now apply N.div_lt.
    cbn [occurs].
    destruct (Ascii.eqb_spec (pretty_N_char (x `mod` 10)) c) as [Heq|]; [|reflexivity].
    rewrite <- Heq, is_digit_pretty_N_char in Hc. discriminate.
Qed.

Lemma occurs_pretty_N (c : ascii) (x : N) : is_digit c = false -> occurs c (pretty x) = false.
Proof.
  intros Hc. unfold pretty, pretty_N. destruct (decide (x = 0%N)).
  - cbn [occurs]. destruct (Ascii.eqb_spec "0" c) as [<-|]; [discriminate|reflexivity].
  - now rewrite occurs_pretty_N_go.
Qed.

Lemma occurs_pretty_nat (c : ascii) (n : nat) : is_digit c = false -> occurs c (pretty n) = false.
Proof. apply occurs_pretty_N. Qed.

Lemma occurs_pretty_Z (c : ascii) (z : Z) :
  is_digit c = false -> c <> "-"%char -> occurs c (pretty z) = false.
Proof.
  intros Hc Hdash. destruct z as [|x|x]; unfold pretty, pretty_Z.
  - cbn [occurs]. destruct (Ascii.eqb_spec "0" c) as [<-|]; [discriminate|reflexivity].
  - now apply occurs_pretty_N.
  - change ("-" +:+ pretty x) with (String "-" (pretty (N.pos x))). cbn [occurs].
    destruct (Ascii.eqb_spec "-" c) as [<-|]; [congruence|]. now apply occurs_pretty_N.
Qed.

Lemma append_dash_inj (a b d1 d2 : string) :
  occurs "-" d1 = false -> occurs "-" d2 = false ->
  a ++ "-" ++ d1 = b ++ "-" ++ d2 -> a = b /\ d1 = d2.
Proof.
  intros H1 H2. revert b. induction a as [|x a IH]; intros [|y b] Heq.
  - change (String "-" d1 = String "-" d2) in Heq. now injection Heq.
  - change (String "-" d1 = String y (b ++ "-" ++ d2)) in Heq. injection Heq as _ Heq.
    rewrite Heq, occurs_app in H1. simpl in H1. rewrite orb_true_r in H1. discriminate.
  - change (String x (a ++ "-" ++ d1) = String "-" d2) in Heq. injection Heq as _ Heq.
    rewrite <- Heq, occurs_app in H2. simpl in H2. rewrite orb_true_r in H2. discriminate.
  - rewrite !string_app_cons in Heq. injection Heq as -> Heq.
    destruct (IH b Heq) as [-> ->]. now split.
Qed.

Lemma import_id_inj (now now' : Z) (i j : nat) :
  import_id now i = import_id now' j -> i = j.
Proof.
  unfold import_id. intros Heq.
  change ("key-" ++ pretty now ++ "-" ++ pretty i)
    with (String "k" (String "e" (String "y" (String "-" (pretty now ++ "-" ++ pretty i)))))
    in Heq.
  change ("key-" ++ pretty now' ++ "-" ++ pretty j)
    with (String "k" (String "e" (String "y" (String "-" (pretty now' ++ "-" ++ pretty j)))))
    in Heq.
  injection Heq as Heq.
  apply append_dash_inj in Heq as [_ Heq]; try (now apply occurs_pretty_nat).
  now apply pretty_nat_inj in Heq.
Qed.

(** ** [batchImportKeys] *)


Lemma kv_set_fresh (entry : ApiKeyEntry.t) (store : list ApiKeyEntry.t) :
  (forall e, In e store -> ApiKeyEntry.id e <> ApiKeyEntry.id entry) ->
  (forall x, In x (Server.kv_set entry store) <-> x = entry \/ In x store)
  /\ length (Server.kv_set entry store) = S (length store).
Proof.
  induction store as [|e store IH]; intros Hfresh; simpl.
  - split; [|reflexivity]. intros x. split; [intros [<-|[]]; now left|intros [->|[]]; now left].
  - destruct (String.compare (ApiKeyEntry.id entry) (ApiKeyEntry.id e)) eqn:Hcmp.
    + apply String_as_OT.cmp_eq in Hcmp. exfalso. apply (Hfresh e); [now left|congruence].
    + split; [|reflexivity]. intros x. simpl. split; intros [<-|H]; auto.
    + destruct IH as [IHin IHlen]; [intros e' He'; apply Hfresh; now right|].
      split; [|simpl; now rewrite IHlen].
      intros x. simpl. rewrite IHin. tauto.
Qed.

Lemma elem_of_secrets (k : string) (store : list ApiKeyEntry.t) :
  k ∈ secrets store <-> exists e, In e store /\ ApiKeyEntry.key e = k.
Proof.
  unfold secrets. rewrite elem_of_list_to_set, list_elem_of_In, List.in_map_iff.
  split; intros (e & H1 & H2); exists e; auto.
Qed.

Lemma secrets_kv_set_fresh (entry : ApiKeyEntry.t) (store : list ApiKeyEntry.t) :
  (forall e, In e store -> ApiKeyEntry.id e <> ApiKeyEntry.id entry) ->
  secrets (Server.kv_set entry store) = {[ApiKeyEntry.key entry]} ∪ secrets store.
Proof.
  intros Hfresh. destruct (kv_set_fresh entry store Hfresh) as [Hin _].
  apply set_eq. intros k. rewrite elem_of_union, elem_of_singleton, !elem_of_secrets.
  split.
  - intros (e & He & Hk). apply Hin in He as [->|He]; [now left|right; now exists e].
  - intros [->|(e & He & Hk)].
    + exists entry. split; [apply Hin; now left|reflexivity].
    + exists e. split; [apply Hin; now right|exact Hk].
Qed.


(** One pass of the loop body, by cases. *)
Lemma import_one_run (key : string) (i : nat) (existingKeySet : gset string)
    (p : Server.Platform) (s : Server.State) :
  exists step s',
    Server.import_one key i existingKeySet p s = (Normal step, s')
    /\ Server.tick s <= Server.tick s'
    /\ match step with
       | Server.Skipped => (key ∈ existingKeySet) /\ store_of s' = store_of s
       | Server.Failed =>
         (key ∉ existingKeySet) /\ store_of s' = store_of s /\ ~ never_rejects p
       | Server.Saved =>
         (key ∉ existingKeySet)
         /\ store_of s' = Server.kv_set (imported_entry p s key i) (store_of s)
       end.
Proof.
  unfold Server.import_one, Server.try_catch.
  destruct (decide (key ∈ existingKeySet)) as [Hin|Hin].
  - eexists _, _. split; [reflexivity|]. split; [simpl; lia|]. now split.
  - unfold Server.bind at 1.
    change (Server.Date_now p s)
      with (Normal (Server.clock p (Server.tick s)),
            {| Server.effects := Server.effects s; Server.sessions := Server.sessions s;
               Server.tick := S (Server.tick s) |}).
    cbv iota beta. unfold Server.bind at 1. rewrite saveApiKey_run. cbn [Server.tick].
    destruct (Server.kv_write_error p (S (S (Server.tick s)))) as [error|] eqn:Hw.
    + eexists _, _. split; [reflexivity|]. split; [simpl; lia|].
      split; [exact Hin|]. split; [reflexivity|].
      intros Hnever. rewrite Hnever in Hw. discriminate.
    + eexists _, _. split; [reflexivity|]. split; [simpl; lia|]. split; [exact Hin|reflexivity].
Qed.

Lemma nonblank_cons (p : Server.Platform) (raw : string) (keys : list string) :
  nonblank p (raw :: keys) =
  if (0 <? String.length (Server.trim p raw))%nat
  then Server.trim p raw :: nonblank p keys else nonblank p keys.
Proof. reflexivity. Qed.

Lemma import_loop_counts (p : Server.Platform) (keys : list string) :
  forall i existingKeySet counts s,
  exists counts' s',
    Server.import_loop keys i existingKeySet counts p s = (Normal counts', s')
    /\ Server.ImportCounts.success counts' + Server.ImportCounts.failed counts'
       + Server.ImportCounts.duplicates counts'
       = Server.ImportCounts.success counts + Server.ImportCounts.failed counts
         + Server.ImportCounts.duplicates counts + length (nonblank p keys)
    /\ (never_rejects p ->
        Server.ImportCounts.failed counts' = Server.ImportCounts.failed counts).
Proof.
  induction keys as [|raw keys IH]; intros i E counts s.
  - exists counts, s. split; [reflexivity|]. split; [simpl; lia|reflexivity].
  - cbn [Server.import_loop]. unfold Server.bind at 1, Server.platform.
    rewrite nonblank_cons.
    destruct (0 <? String.length (Server.trim p raw))%nat.
    + unfold Server.bind at 1.
      destruct (import_one_run (Server.trim p raw) i E p s) as (step & s1 & -> & _ & Hstep).
      destruct step.
      * destruct (IH (S i) ({[Server.trim p raw]} ∪ E)
                    {| Server.ImportCounts.success := S (Server.ImportCounts.success counts);
                       Server.ImportCounts.failed := Server.ImportCounts.failed counts;
                       Server.ImportCounts.duplicates :=
                         Server.ImportCounts.duplicates counts |} s1)
          as (c' & s' & -> & Hsum & Hf).
        exists c', s'. split; [reflexivity|]. simpl in *. split; [lia|exact Hf].
      * destruct (IH (S i) E
                    {| Server.ImportCounts.success := Server.ImportCounts.success counts;
                       Server.ImportCounts.failed := Server.ImportCounts.failed counts;
                       Server.ImportCounts.duplicates :=
                         S (Server.ImportCounts.duplicates counts) |} s1)
          as (c' & s' & -> & Hsum & Hf).
        exists c', s'. split; [reflexivity|]. simpl in *. split; [lia|exact Hf].
      * destruct (IH (S i) E
                    {| Server.ImportCounts.success := Server.ImportCounts.success counts;
                       Server.ImportCounts.failed := S (Server.ImportCounts.failed counts);
                       Server.ImportCounts.duplicates :=
                         Server.ImportCounts.duplicates counts |} s1)
          as (c' & s' & -> & Hsum & Hf).
        exists c', s'. split; [reflexivity|]. simpl in *. split; [lia|].
        intros Hnever. now destruct Hstep as (_ & _ & []).
    + apply IH.
Qed.

(** X4. Once the store has been listed, [batchImportKeys] does not
    throw, and its three counters account for every key of the batch that
    is not blank after trimming: each such key is counted once, as stored,
    failed or duplicate.  Blank keys are passed over without being counted,
    and when the store rejects no write nothing is counted as failed. *)
Theorem batchImportKeys_accounts_for_every_key (keys : list string) (p : Server.Platform)
    (s : Server.State) :
  exists result s',
    Server.batchImportKeys keys p s = (Normal result, s')
    /\ Server.ImportCounts.success result + Server.ImportCounts.failed result
       + Server.ImportCounts.duplicates result = length (nonblank p keys)
    /\ length (nonblank p keys) <= length keys
    /\ (never_rejects p -> Server.ImportCounts.failed result = 0).
Proof.
  unfold Server.batchImportKeys, Server.bind at 1, Server.lift, getAllApiKeys.
  destruct (import_loop_counts p keys 0
              (list_to_set (map ApiKeyEntry.key (kv (Server.effects s))))
              {| Server.ImportCounts.success := 0; Server.ImportCounts.failed := 0;
                 Server.ImportCounts.duplicates := 0 |}
              {| Server.effects := Server.effects s; Server.sessions := Server.sessions s;
                 Server.tick := Server.tick s |})
    as (result & s' & Hrun & Hsum & Hfailed).
  exists result, s'. split; [exact Hrun|]. split; [exact Hsum|]. split; [|exact Hfailed].
  unfold nonblank. etransitivity; [apply filter_length_le|]. now rewrite length_map.
Qed.



Lemma size_new_key (k : string) (keys existingKeySet : gset string) :
  k ∉ existingKeySet ->
  size (({[k]} ∪ keys) ∖ existingKeySet) = S (size (keys ∖ ({[k]} ∪ existingKeySet))).
Proof.
  intros Hk.
  assert (({[k]} ∪ keys) ∖ existingKeySet = {[k]} ∪ keys ∖ ({[k]} ∪ existingKeySet)) as ->.
  { set_unfold. intros x. destruct (decide (x = k)) as [->|]; tauto. }
  rewrite size_union, size_singleton; [reflexivity|].
  set_unfold. intros x. tauto.
Qed.

Lemma import_loop_complete (p : Server.Platform) (keys : list string) :
  never_rejects p ->
  forall i existingKeySet counts s,
  secrets (store_of s) = existingKeySet ->
  no_import_id p (Server.tick s) i (store_of s) ->
  exists counts' s',
    Server.import_loop keys i existingKeySet counts p s = (Normal counts', s')
    /\ secrets (store_of s') = existingKeySet ∪ list_to_set (nonblank p keys)
    /\ (forall e, In e (store_of s) -> In e (store_of s'))
    /\ Server.ImportCounts.success counts'
       = Server.ImportCounts.success counts
         + size (list_to_set (nonblank p keys) ∖ existingKeySet)
    /\ length (store_of s')
       = length (store_of s) + size (list_to_set (nonblank p keys) ∖ existingKeySet).
Proof.
  intros Hnever. induction keys as [|raw keys IH]; intros i E counts s HE Hfresh.
  - exists counts, s. split; [reflexivity|]. cbn [nonblank map List.filter list_to_set].
    rewrite HE. split; [set_unfold; tauto|]. split; [auto|].
    assert ((∅ : gset string) ∖ E = ∅) as -> by (set_unfold; tauto).
    rewrite size_empty. split; lia.
  - cbn [Server.import_loop]. unfold Server.bind at 1, Server.platform.
    rewrite nonblank_cons.
    destruct (0 <? String.length (Server.trim p raw))%nat;
      [|apply IH; [exact HE|]; intros e n j He Hn Hj; apply Hfresh; [exact He|lia..]].
    unfold Server.bind at 1.
    destruct (import_one_run (Server.trim p raw) i E p s) as (step & s1 & -> & Htick & Hstep).
    set (k := Server.trim p raw) in *.
    destruct step.
    + destruct Hstep as [Hnew Hstore].
      assert (forall e, In e (store_of s) ->
                ApiKeyEntry.id e <> ApiKeyEntry.id (imported_entry p s k i)) as Hid.
      { intros e He. apply Hfresh; [exact He|lia..]. }
      destruct (kv_set_fresh _ _ Hid) as [Hin Hlen].
      destruct (IH (S i) ({[k]} ∪ E) 
                  {| Server.ImportCounts.success := S (Server.ImportCounts.success counts);
                     Server.ImportCounts.failed := Server.ImportCounts.failed counts;
                     Server.ImportCounts.duplicates := Server.ImportCounts.duplicates counts |}
                  s1)
        as (c' & s' & -> & Hsec & Hold & Hsucc & Hlength).
      * rewrite Hstore, secrets_kv_set_fresh by exact Hid. now rewrite <- HE.
      * intros e n j He Hn Hj. rewrite Hstore in He. apply Hin in He as [->|He].
        -- cbn [imported_entry ApiKeyEntry.id]. intros Heq. apply import_id_inj in Heq. lia.
        -- apply Hfresh; [exact He|lia..].
      * exists c', s'. split; [reflexivity|].
        cbn [list_to_set]. cbn [Server.ImportCounts.success] in Hsucc.
        rewrite size_new_key by exact Hnew.
        split; [rewrite Hsec; set_unfold; tauto|].
        split; [intros e He; apply Hold; rewrite Hstore; apply Hin; now right|].
        rewrite Hstore, Hlen in Hlength. split; lia.
    + destruct Hstep as [Hold Hstore].
      destruct (IH (S i) E
                  {| Server.ImportCounts.success := Server.ImportCounts.success counts;
                     Server.ImportCounts.failed := Server.ImportCounts.failed counts;
                     Server.ImportCounts.duplicates :=
                       S (Server.ImportCounts.duplicates counts) |}
                  s1)
        as (c' & s' & -> & Hsec & Hkeep & Hsucc & Hlength).
      * now rewrite Hstore.
      * rewrite Hstore. intros e n j He Hn Hj. apply Hfresh; [exact He|lia..].
      * exists c', s'. split; [reflexivity|]. cbn [list_to_set].
        assert (({[k]} ∪ list_to_set (nonblank p keys)) ∖ E
                = (list_to_set (nonblank p keys) : gset string) ∖ E) as ->.
        { set_unfold. intros x. destruct (decide (x = k)) as [->|]; tauto. }
        rewrite Hstore in Hkeep, Hlength.
        split; [rewrite Hsec; set_unfold; intros x; destruct (decide (x = k)) as [->|]; tauto|]. split; [exact Hkeep|]. split; assumption.
    + now destruct Hstep as (_ & _ & []).
Qed.

(** X6. When the store rejects no write and no stored id is one that
    this import could generate, [batchImportKeys] loses nothing and stores
    exactly what is new: afterwards the stored secrets are the old ones
    together with the non-blank trimmed keys of the batch, every old entry
    is still there, and the number of entries has grown by [success], which
    is the number of distinct new secrets of the batch. *)
Theorem batchImportKeys_stores_every_new_key (keys : list string) (p : Server.Platform)
    (s : Server.State) :
  never_rejects p ->
  no_import_id p (Server.tick s) 0 (store_of s) ->
  exists result s',
    Server.batchImportKeys keys p s = (Normal result, s')
    /\ secrets (store_of s') = secrets (store_of s) ∪ list_to_set (nonblank p keys)
    /\ (forall e, In e (store_of s) -> In e (store_of s'))
    /\ Server.ImportCounts.success result
       = size (list_to_set (nonblank p keys) ∖ secrets (store_of s))
    /\ length (store_of s') = length (store_of s) + Server.ImportCounts.success result.
Proof.
  intros Hnever Hfresh.
  unfold Server.batchImportKeys, Server.bind at 1, Server.lift, getAllApiKeys.
  destruct (import_loop_complete p keys Hnever 0 (secrets (store_of s))
              {| Server.ImportCounts.success := 0; Server.ImportCounts.failed := 0;
                 Server.ImportCounts.duplicates := 0 |}
              {| Server.effects := Server.effects s; Server.sessions := Server.sessions s;
                 Server.tick := Server.tick s |} eq_refl Hfresh)
    as (result & s' & Hrun & Hsec & Hold & Hsucc & Hlen).
  exists result, s'. split; [exact Hrun|]. split; [exact Hsec|]. split; [exact Hold|].
  cbn [Server.ImportCounts.success] in Hsucc. split; [exact Hsucc|].
  rewrite Hsucc. exact Hlen.
Qed.

(** ** [batchDeleteKeys] *)

Lemma In_kv_delete (id : string) (e : ApiKeyEntry.t) (store : list ApiKeyEntry.t) :
  In e (Server.kv_delete id store) <-> In e store /\ ApiKeyEntry.id e <> id.
Proof.
  unfold Server.kv_delete. rewrite List.filter_In, negb_true_iff, String.eqb_neq. tauto.
Qed.

Lemma delete_loop_run (p : Server.Platform) (ids : list string) :
  forall counts s,
  exists counts' s',
    Server.delete_loop ids counts p s = (Normal counts', s')
    /\ Server.DeleteCounts.success counts' + Server.DeleteCounts.failed counts'
       = Server.DeleteCounts.success counts + Server.DeleteCounts.failed counts + length ids
    /\ (forall e, In e (store_of s') -> In e (store_of s))
    /\ (forall e, In e (store_of s) -> ~ In (ApiKeyEntry.id e) ids -> In e (store_of s'))
    /\ (never_rejects p ->
        Server.DeleteCounts.failed counts' = Server.DeleteCounts.failed counts
        /\ forall e, In e (store_of s') -> ~ In (ApiKeyEntry.id e) ids).
Proof.
  induction ids as [|id ids IH]; intros counts s.
  - exists counts, s. split; [reflexivity|]. split; [simpl; lia|].
    split; [auto|]. split; [auto|]. intros _. split; [reflexivity|]. intros e _ [].
  - cbn [Server.delete_loop]. unfold Server.bind at 1, Server.try_catch, Server.bind at 1.
    rewrite deleteApiKey_run.
    destruct (Server.kv_write_error p (Server.tick s)) as [error|] eqn:Hw.
    + unfold Server.bind at 1, Server.lift, write_console, Server.ret. cbv iota beta.
      match goal with |- context [Server.delete_loop ids ?c p ?s1] =>
        destruct (IH c s1) as (c' & s' & -> & Hsum & Hsub & Hkeep & Hall) end.
      exists c', s'. split; [reflexivity|]. cbn in Hsum. split; [simpl; lia|].
      split; [exact Hsub|]. split.
      * intros e He Hid. apply Hkeep; [exact He|]. intros Hin. apply Hid. now right.
      * intros Hnever. rewrite Hnever in Hw. discriminate.
    + unfold Server.ret. cbv iota beta.
      match goal with |- context [Server.delete_loop ids ?c p ?s1] =>
        destruct (IH c s1) as (c' & s' & -> & Hsum & Hsub & Hkeep & Hall) end.
      exists c', s'. split; [reflexivity|]. cbn in Hsum. split; [simpl; lia|].
      unfold store_of in *. cbn [Server.effects kv] in *.
      split; [intros e He; exact (proj1 (proj1 (In_kv_delete _ _ _) (Hsub e He)))|].
      split.
      * intros e He Hid. apply Hkeep.
        -- apply In_kv_delete. split; [exact He|]. intros Heq. apply Hid. now left.
        -- intros Hin. apply Hid. now right.
      * intros Hnever. destruct (Hall Hnever) as [Hfailed Hgone].
        split; [exact Hfailed|]. intros e He [Heq|Hin].
        -- apply Hsub, In_kv_delete in He. destruct He as [_ Hne]. now apply Hne.
        -- now apply (Hgone e).
Qed.

(** X7. [batchDeleteKeys] never throws and counts every id it is given,
    as deleted or failed.  It adds nothing and leaves every credential
    whose id is not listed in place.  When the store rejects no write,
    every listed id counts as deleted, also one that was never stored or
    is listed twice, and afterwards no credential with a listed id is
    left. *)
Theorem batchDeleteKeys_removes_listed_ids (ids : list string) (p : Server.Platform)
    (s : Server.State) :
  exists result s',
    Server.batchDeleteKeys ids p s = (Normal result, s')
    /\ Server.DeleteCounts.success result + Server.DeleteCounts.failed result = length ids
    /\ (forall e, In e (store_of s') -> In e (store_of s))
    /\ (forall e, In e (store_of s) -> ~ In (ApiKeyEntry.id e) ids -> In e (store_of s'))
    /\ (never_rejects p ->
        Server.DeleteCounts.success result = length ids
        /\ forall e, In e (store_of s') -> ~ In (ApiKeyEntry.id e) ids).
Proof.
  destruct (delete_loop_run p ids
              {| Server.DeleteCounts.success := 0; Server.DeleteCounts.failed := 0 |} s)
    as (result & s' & Hrun & Hsum & Hsub & Hkeep & Hall).
  exists result, s'. split; [exact Hrun|]. cbn in Hsum. split; [exact Hsum|].
  split; [exact Hsub|]. split; [exact Hkeep|].
  intros Hnever. destruct (Hall Hnever) as [Hfailed Hgone]. cbn in Hfailed.
  split; [lia|exact Hgone].
Qed.

(** ** Sessions *)

Lemma createSession_run (p : Server.Platform) (s : Server.State) :
  Server.createSession p s =
  match Server.kv_write_error p (3 + Server.tick s) with
  | Some error =>
    (Throw error,
     {| Server.effects := Server.effects s; Server.sessions := Server.sessions s;
        Server.tick := 4 + Server.tick s |})
  | None =>
    (Normal (Server.uuid p (Server.tick s)),
     {| Server.effects := Server.effects s;
        Server.sessions :=
          <[Server.uuid p (Server.tick s) :=
              {| Session.id := Server.uuid p (Server.tick s);
                 Session.createdAt := Server.clock p (1 + Server.tick s);
                 Session.expiresAt := Server.clock p (2 + Server.tick s) + Server.seven_days |}]>
            (Server.sessions s);
        Server.tick := 4 + Server.tick s |})
  end.
Proof.
  unfold Server.createSession, Server.randomUUID, Server.Date_now, Server.kv_commit,
    Server.bind, Server.next_tick, Server.platform, Server.ret, Server.get_state,
    Server.set_sessions, Server.throw; simpl.
  destruct (Server.kv_write_error p (S (S (S (Server.tick s))))); reflexivity.
Qed.

Lemma validateSession_run (sessionId : string) (p : Server.Platform) (s : Server.State) :
  Server.validateSession sessionId p s =
  match Server.sessions s !! sessionId with
  | None => (Normal false, s)
  | Some session =>
    if (Session.expiresAt session <? Server.clock p (Server.tick s))%Z then
      match Server.kv_write_error p (1 + Server.tick s) with
      | Some error =>
        (Throw error,
         {| Server.effects := Server.effects s; Server.sessions := Server.sessions s;
            Server.tick := 2 + Server.tick s |})
      | None =>
        (Normal false,
         {| Server.effects := Server.effects s;
            Server.sessions := delete sessionId (Server.sessions s);
            Server.tick := 2 + Server.tick s |})
      end
    else
      (Normal true,
       {| Server.effects := Server.effects s; Server.sessions := Server.sessions s;
          Server.tick := 1 + Server.tick s |})
  end.
Proof.
  unfold Server.validateSession, Server.bind at 1, Server.get_state.
  destruct (Server.sessions s !! sessionId) as [session|]; [|reflexivity].
  unfold Server.Date_now, Server.kv_commit, Server.bind, Server.next_tick, Server.platform,
    Server.ret, Server.get_state, Server.set_sessions, Server.throw; simpl.
  destruct (Session.expiresAt session <? Server.clock p (Server.tick s))%Z; [|reflexivity].
  cbn. destruct (Server.kv_write_error p (S (Server.tick s))); reflexivity.
Qed.

(** X8. A session made by [createSession] is good for seven days and
    not longer: the id returned is stored with an expiry 604800000 ms
    after the clock reading taken for it, and as long as the session is
    stored [validateSession] accepts the id exactly when the clock has not
    passed that expiry.  The credentials are not touched. *)
Theorem session_valid_for_seven_days (p : Server.Platform) (s : Server.State) :
  Server.kv_write_error p (3 + Server.tick s) = None ->
  exists sessionId s1,
    Server.createSession p s = (Normal sessionId, s1)
    /\ Server.effects s1 = Server.effects s
    /\ (forall s2,
          Server.sessions s2 !! sessionId = Server.sessions s1 !! sessionId ->
          fst (Server.validateSession sessionId p s2) = Normal true
          <-> (Server.clock p (Server.tick s2)
               <= Server.clock p (2 + Server.tick s) + 604800000)%Z).
Proof.
  intros Hw. rewrite createSession_run, Hw. eexists _, _. split; [reflexivity|].
  split; [reflexivity|]. intros s2 Hs2. cbn [Server.sessions] in Hs2.
  rewrite lookup_insert_eq in Hs2. rewrite validateSession_run, Hs2.
  cbn [Session.expiresAt]. change Server.seven_days with 604800000%Z.
  destruct (Z.ltb_spec (Server.clock p (2 + Server.tick s) + 604800000)
              (Server.clock p (Server.tick s2))) as [Hlt|Hle].
  - split; [|lia]. destruct (Server.kv_write_error p (1 + Server.tick s2)); discriminate.
  - split; [intros _; exact Hle|reflexivity].
Qed.

(** X9. A session whose expiry the clock has passed is refused and
    deleted by [validateSession], so that the same id is refused from then
    on without looking at the clock; an id that is not stored is refused
    with nothing changed. *)
Theorem expired_session_is_deleted (sessionId : string) (session : Session.t)
    (p : Server.Platform) (s : Server.State) :
  (Server.sessions s !! sessionId = None ->
   Server.validateSession sessionId p s = (Normal false, s))
  /\ (Server.sessions s !! sessionId = Some session ->
      (Session.expiresAt session < Server.clock p (Server.tick s))%Z ->
      Server.kv_write_error p (1 + Server.tick s) = None ->
      exists s',
        Server.validateSession sessionId p s = (Normal false, s')
        /\ Server.sessions s' = delete sessionId (Server.sessions s)
        /\ Server.effects s' = Server.effects s
        /\ Server.validateSession sessionId p s' = (Normal false, s')).
Proof.
  split.
  - intros Hnone. now rewrite validateSession_run, Hnone.
  - intros Hsome Hexpired Hw. rewrite validateSession_run, Hsome, Hw.
    apply Z.ltb_lt in Hexpired. rewrite Hexpired.
    eexists. split; [reflexivity|]. split; [reflexivity|]. split; [reflexivity|].
    rewrite validateSession_run. cbn [Server.sessions]. now rewrite lookup_delete_eq.
Qed.

(** ** The authentication check of [handler] *)

Lemma isAuthenticated_run (req : ServerRequest.t) (p : Server.Platform) (s : Server.State) :
  Server.isAuthenticated req p s =
  if negb (Server.truthy (Server.ADMIN_PASSWORD p)) then (Normal true, s)
  else
    match ServerRequest.session req with
    | Some sessionId =>
      if String.eqb sessionId "" then (Normal false, s)
      else Server.validateSession sessionId p s
    | None => (Normal false, s)
    end.
Proof.
  unfold Server.isAuthenticated, Server.bind, Server.platform.
  destruct (negb (Server.truthy (Server.ADMIN_PASSWORD p))); [reflexivity|].
  destruct (ServerRequest.session req) as [sessionId|]; [|reflexivity].
  simpl. now destruct (String.eqb sessionId "").
Qed.

Lemma isAuthenticated_authorized (req : ServerRequest.t) (p : Server.Platform)
    (s : Server.State) :
  authorized p s req = true ->
  Server.isAuthenticated req p s = (Normal true, checked p s).
Proof.
  unfold authorized, valid_session, checked. rewrite isAuthenticated_run. intros Hauth.
  destruct (Server.truthy (Server.ADMIN_PASSWORD p)); [|reflexivity].
  cbn [negb orb] in *.
  destruct (ServerRequest.session req) as [sessionId|]; [|discriminate].
  destruct (String.eqb sessionId ""); [discriminate|].
  rewrite validateSession_run.
  destruct (Server.sessions s !! sessionId) as [session|]; [|discriminate].
  cbn [negb andb] in Hauth. apply negb_true_iff in Hauth. now rewrite Hauth.
Qed.

Lemma behind_gate_spec (req : ServerRequest.t) :
  behind_gate req = true ->
  String.eqb (ServerRequest.method req) "OPTIONS" = false
  /\ String.eqb (ServerRequest.pathname req) "/api/login"
     && String.eqb (ServerRequest.method req) "POST" = false
  /\ String.eqb (ServerRequest.pathname req) "/" = false.
Proof.
  unfold behind_gate. rewrite !andb_true_iff, !negb_true_iff. tauto.
Qed.

(** Behind the gate, [handler] is the check followed by [routes]. *)
Lemma handler_behind_gate (req : ServerRequest.t) (p : Server.Platform) (s : Server.State) :
  behind_gate req = true ->
  Handler.handler req p s =
  match Server.isAuthenticated req p s with
  | (Normal authenticated, s1) =>
    if Server.truthy (Server.ADMIN_PASSWORD p) && negb authenticated
    then (Normal unauthorized_response, s1)
    else Handler.routes req p s1
  | (Throw error, s1) => (Throw error, s1)
  end.
Proof.
  intros Hgate. apply behind_gate_spec in Hgate as (Hoptions & Hlogin & Hpage).
  unfold Handler.handler. rewrite Hoptions, Hlogin, Hpage.
  unfold Server.bind at 1, Server.platform. rewrite andb_false_r.
  unfold Server.bind at 1, Server.ret. cbv iota beta. unfold Server.bind at 1.
  destruct (Server.isAuthenticated req p s) as [[authenticated|error] s1]; [|reflexivity].
  destruct (Server.truthy (Server.ADMIN_PASSWORD p) && negb authenticated); reflexivity.
Qed.

(** Behind the gate and authorized, [handler] is [routes]. *)
Lemma handler_authorized (req : ServerRequest.t) (p : Server.Platform) (s : Server.State) :
  behind_gate req = true -> authorized p s req = true ->
  Handler.handler req p s = Handler.routes req p (checked p s).
Proof.
  intros Hgate Hauth. rewrite handler_behind_gate by exact Hgate.
  rewrite isAuthenticated_authorized by exact Hauth. now rewrite andb_false_r.
Qed.

(** X10. With a password configured, no request passes the gate without
    a valid session: whatever its method, path and body, a request that is
    not a preflight, a login or the page is answered 401 "Unauthorized",
    or the call throws when the store rejects the removal of the expired
    session; the credentials, the upstream requests and the console are as
    before, and a session is at most removed. *)
Theorem handler_rejects_without_session (req : ServerRequest.t) (p : Server.Platform)
    (s : Server.State) :
  Server.truthy (Server.ADMIN_PASSWORD p) = true ->
  behind_gate req = true ->
  valid_session p s req = false ->
  exists completion s',
    Handler.handler req p s = (completion, s')
    /\ (completion = Normal unauthorized_response
        \/ exists error, completion = Throw error
                         /\ Server.kv_write_error p (1 + Server.tick s) = Some error)
    /\ Server.effects s' = Server.effects s
    /\ Server.sessions s' ⊆ Server.sessions s.
Proof.
  intros Hpw Hgate Hvalid. rewrite handler_behind_gate by exact Hgate.
  rewrite isAuthenticated_run, Hpw. cbn [negb andb].
  unfold valid_session in Hvalid.
  destruct (ServerRequest.session req) as [sessionId|];
    [|eexists _, _; split; [reflexivity|]; split; [now left|split; reflexivity]].
  destruct (String.eqb sessionId "");
    [eexists _, _; split; [reflexivity|]; split; [now left|split; reflexivity]|].
  rewrite validateSession_run.
  destruct (Server.sessions s !! sessionId) as [session|];
    [|eexists _, _; split; [reflexivity|]; split; [now left|split; reflexivity]].
  cbn [negb andb] in Hvalid. apply negb_false_iff in Hvalid. rewrite Hvalid.
  destruct (Server.kv_write_error p (1 + Server.tick s)) as [error|].
  - eexists _, _. split; [reflexivity|].
    split; [right; now exists error|split; reflexivity].
  - eexists _, _. split; [reflexivity|]. split; [now left|]. split; [reflexivity|].
    apply delete_subseteq.
Qed.

(** X11. With a password configured, the page itself is served only to
    a valid session: [/] answers the application page when the request
    passes the check (always, when no password is configured), and the
    login page otherwise; in neither case are the credentials, the upstream
    requests or the console touched. *)
Theorem page_needs_session (req : ServerRequest.t) (p : Server.Platform) (s : Server.State) :
  ServerRequest.method req <> "OPTIONS" ->
  ServerRequest.pathname req = "/" ->
  (authorized p s req = true ->
   Handler.handler req p s =
   (Normal {| HttpResponse.status := 200; HttpResponse.body := HTML_CONTENT;
              HttpResponse.session_cookie := None |}, checked p s))
  /\ (authorized p s req = false ->
      Server.kv_write_error p (1 + Server.tick s) = None ->
      exists s',
        Handler.handler req p s =
        (Normal {| HttpResponse.status := 200; HttpResponse.body := LOGIN_PAGE;
                   HttpResponse.session_cookie := None |}, s')
        /\ Server.effects s' = Server.effects s).
Proof.
  intros Hmethod Hpath. apply String.eqb_neq in Hmethod.
  unfold Handler.handler. rewrite Hmethod, Hpath.
  change (String.eqb "/" "/api/login") with false.
  change (String.eqb "/" "/") with true. cbn [andb].
  cbv [Server.bind Server.platform Server.ret Handler.respond]. rewrite andb_true_r.
  split.
  - intros Hauth. pose proof (isAuthenticated_authorized req p s Hauth) as Hrun.
    unfold checked in *. destruct (Server.truthy (Server.ADMIN_PASSWORD p)); [|reflexivity].
    now rewrite Hrun.
  - intros Hauth Hw. unfold authorized in Hauth. apply orb_false_iff in Hauth as [Hpw Hvalid].
    apply negb_false_iff in Hpw. rewrite Hpw, isAuthenticated_run, Hpw. cbn [negb].
    unfold valid_session in Hvalid.
    destruct (ServerRequest.session req) as [sessionId|]; [|now eexists].
    destruct (String.eqb sessionId ""); [now eexists|].
    rewrite validateSession_run, Hw.
    destruct (Server.sessions s !! sessionId) as [session|]; [|now eexists].
    cbn [negb andb] in Hvalid. apply negb_false_iff in Hvalid. rewrite Hvalid. now eexists.
Qed.

(** ** Paths *)

Lemma after_prefix_app (prefix s : string) : after_prefix prefix (prefix ++ s) = Some s.
Proof.
  induction prefix as [|c prefix IH]; [now destruct s|].
  rewrite string_app_cons. simpl. now rewrite Ascii.eqb_refl.
Qed.

Lemma after_prefix_inv (prefix s rest : string) :
  after_prefix prefix s = Some rest -> s = prefix ++ rest.
Proof.
  revert s. induction prefix as [|c prefix IH]; intros s.
  - destruct s; simpl; intros [= <-]; reflexivity.
  - destruct s as [|d s]; simpl; [discriminate|].
    destruct (Ascii.eqb_spec c d) as [->|]; [|discriminate].
    intros Hs. rewrite string_app_cons. f_equal. now apply IH.
Qed.

Lemma eqb_prefix_false (prefix s t : string) :
  after_prefix prefix t = None -> String.eqb (prefix ++ s) t = false.
Proof.
  intros Hnone. apply String.eqb_neq. intros <-. now rewrite after_prefix_app in Hnone.
Qed.

Lemma split_slash_segment (s t : string) :
  occurs "/" s = false -> split_slash (s ++ String "/" t) = s :: split_slash t.
Proof.
  induction s as [|c s IH]; [reflexivity|].
  cbn [occurs]. intros Hc. apply orb_false_iff in Hc as [Hc Hs].
  rewrite string_app_cons. cbn [split_slash]. now rewrite Hc, IH.
Qed.

Lemma split_slash_last (s : string) : occurs "/" s = false -> split_slash s = [s].
Proof.
  induction s as [|c s IH]; [reflexivity|].
  cbn [occurs]. intros Hc. apply orb_false_iff in Hc as [Hc Hs].
  cbn [split_slash]. now rewrite Hc, IH.
Qed.

Lemma after_segment_app (s t : string) :
  occurs "/" s = false -> after_segment (s ++ String "/" t) = String "/" t.
Proof.
  induction s as [|c s IH]; [reflexivity|].
  cbn [occurs]. intros Hc. apply orb_false_iff in Hc as [Hc Hs].
  rewrite string_app_cons. cbn [after_segment]. now rewrite Hc, IH.
Qed.

(** The path of the full-key route of an id is recognised, and the id
    is read back from it. *)
Lemma full_route_of_id (id : string) :
  occurs "/" id = false -> id <> "" ->
  matches_full_route ("/api/keys/" ++ id ++ "/full") = true
  /\ part (split_slash ("/api/keys/" ++ id ++ "/full")) 3 = Some id.
Proof.
  intros Hslash Hid. split.
  - unfold matches_full_route. rewrite after_prefix_app.
    change (id ++ "/full") with (id ++ String "/" "full").
    rewrite after_segment_app by exact Hslash.
    rewrite String.eqb_refl, andb_true_r. apply negb_true_iff, String.eqb_neq.
    intros Heq. apply (f_equal String.length) in Heq. rewrite length_append in Heq.
    destruct id; [congruence|]. simpl in Heq. lia.
  - change ("/api/keys/" ++ id ++ "/full")
      with ("" ++ String "/" ("api" ++ String "/" ("keys" ++ String "/"
              (id ++ String "/" "full")))).
    rewrite !split_slash_segment by (exact Hslash || reflexivity). reflexivity.
Qed.

Lemma delete_route_of_id (id : string) :
  occurs "/" id = false ->
  startsWith ("/api/keys/" ++ id) "/api/keys/" = true
  /\ pop (split_slash ("/api/keys/" ++ id)) = Some id.
Proof.
  intros Hslash. split.
  - unfold startsWith. now rewrite after_prefix_app.
  - change ("/api/keys/" ++ id)
      with ("" ++ String "/" ("api" ++ String "/" ("keys" ++ String "/" id))).
    rewrite !split_slash_segment by reflexivity.
    now rewrite split_slash_last by exact Hslash.
Qed.

Lemma occurs_slash_added_id (now : Z) : occurs "/" ("key-" ++ pretty now) = false.
Proof. rewrite occurs_app. now rewrite occurs_pretty_Z. Qed.

(** ** Login *)

Lemma same_password_spec (password configured : option string) :
  Handler.same_password password configured = true <-> password = configured.
Proof.
  destruct password as [a|], configured as [b|]; simpl; try (split; congruence).
  rewrite String.eqb_eq. split; congruence.
Qed.

(** X12. [POST /api/login] opens a session exactly for the configured
    password.  A body with another password, or none while one is
    configured, is answered 401 and leaves every part of the state as it
    was.  The right password is answered with a session cookie, and a
    request that carries it passes the check as long as the clock has not
    passed the expiry, seven days after the login. *)
Theorem login_needs_the_password (req : ServerRequest.t) (body : RequestBody.t)
    (p : Server.Platform) (s : Server.State) :
  ServerRequest.method req = "POST" ->
  ServerRequest.pathname req = "/api/login" ->
  ServerRequest.json req = inr body ->
  (RequestBody.password body <> Server.ADMIN_PASSWORD p ->
   Handler.handler req p s =
   (Normal {| HttpResponse.status := 401;
              HttpResponse.body := ErrorJson (Some "Invalid password");
              HttpResponse.session_cookie := None |}, s))
  /\ (RequestBody.password body = Server.ADMIN_PASSWORD p ->
      Server.kv_write_error p (3 + Server.tick s) = None ->
      exists sessionId s',
        Handler.handler req p s =
        (Normal {| HttpResponse.status := 200; HttpResponse.body := SuccessJson;
                   HttpResponse.session_cookie := Some sessionId |}, s')
        /\ Server.effects s' = Server.effects s
        /\ forall req',
             ServerRequest.session req' = Some sessionId -> sessionId <> "" ->
             (Server.clock p (Server.tick s')
              <= Server.clock p (2 + Server.tick s) + 604800000)%Z ->
             authorized p s' req' = true).
Proof.
  intros Hmethod Hpath Hjson.
  assert (Handler.handler req p s = Handler.login req p s) as ->.
  { unfold Handler.handler. now rewrite Hmethod, Hpath. }
  unfold Handler.login, Handler.req_json. rewrite Hjson.
  cbv [Server.try_catch Server.bind Server.ret Server.platform Handler.respond].
  split.
  - intros Hne. destruct (Handler.same_password _ _) eqn:Hsame; [|reflexivity].
    now apply same_password_spec in Hsame.
  - intros Heq Hw. apply same_password_spec in Heq. rewrite Heq.
    rewrite createSession_run, Hw.
    eexists _, _. split; [reflexivity|]. split; [reflexivity|].
    intros req' Hcookie Hid Hclock. unfold authorized, valid_session.
    rewrite Hcookie. cbn [Server.sessions Server.tick] in *.
    rewrite lookup_insert_eq. cbn [Session.expiresAt].
    change Server.seven_days with 604800000%Z.
    apply String.eqb_neq in Hid. rewrite Hid. cbn [negb andb].
    apply orb_true_iff. right. apply negb_true_iff, Z.ltb_ge. exact Hclock.
Qed.

(** ** The routes *)

Lemma store_of_checked (p : Server.Platform) (s : Server.State) :
  store_of (checked p s) = store_of s.
Proof. unfold checked. now destruct (Server.truthy (Server.ADMIN_PASSWORD p)). Qed.

(** X13. [GET /api/keys], once past the check, lists the stored
    credentials in their order with the secret replaced by its mask; the
    state is not changed, a mask has at most 11 characters, and no secret
    longer than that occurs in the mask of its entry. *)
Theorem key_listing_is_masked (req : ServerRequest.t) (p : Server.Platform)
    (s : Server.State) :
  ServerRequest.method req = "GET" ->
  ServerRequest.pathname req = "/api/keys" ->
  authorized p s req = true ->
  Handler.handler req p s =
  (Normal {| HttpResponse.status := 200;
             HttpResponse.body := SafeKeysJson (map Handler.safeKey (store_of s));
             HttpResponse.session_cookie := None |}, checked p s)
  /\ store_of (checked p s) = store_of s
  /\ forall e, In e (store_of s) ->
       SafeKey.id (Handler.safeKey e) = ApiKeyEntry.id e
       /\ String.length (SafeKey.masked (Handler.safeKey e)) <= 11
       /\ (11 < String.length (ApiKeyEntry.key e) ->
           forall pre post,
             SafeKey.masked (Handler.safeKey e) <> pre ++ ApiKeyEntry.key e ++ post).
Proof.
  intros Hmethod Hpath Hauth.
  pose proof (store_of_checked p s) as Hstore.
  split; [|split; [exact Hstore|]].
  - rewrite handler_authorized; [|unfold behind_gate; now rewrite Hmethod, Hpath|exact Hauth].
    unfold Handler.routes. rewrite Hmethod, Hpath.
    change (String.eqb "/api/keys" "/api/data") with false.
    change (String.eqb "/api/keys" "/api/keys" && String.eqb "GET" "GET") with true.
    cbv iota.
    cbv [Server.try_catch Server.bind Server.lift getAllApiKeys Handler.respond Server.ret].
    fold (store_of (checked p s)). rewrite Hstore. do 2 f_equal.
    unfold checked. now destruct (Server.truthy (Server.ADMIN_PASSWORD p)), s.
  - intros e He. split; [reflexivity|]. cbn [Handler.safeKey SafeKey.masked].
    pose proof (length_maskedKey (ApiKeyEntry.key e)) as Hlen. split; [exact Hlen|].
    intros Hlong pre post. apply longer_not_inside. lia.
Qed.

Lemma routes_add (req : ServerRequest.t) (body : RequestBody.t) (key : string)
    (p : Server.Platform) (s : Server.State) :
  ServerRequest.method req = "POST" ->
  ServerRequest.pathname req = "/api/keys" ->
  ServerRequest.json req = inr body ->
  RequestBody.key body = Some key -> key <> "" ->
  Handler.routes req p s =
  Server.try_catch
    (Server.bind (Server.saveApiKey ("key-" ++ pretty (Server.clock p (Server.tick s))) key
                    (RequestBody.name body))
       (fun _ => Handler.respond 200
                   (AddedJson ("key-" ++ pretty (Server.clock p (Server.tick s))))))
    Handler.respond_500 p
    {| Server.effects := Server.effects s; Server.sessions := Server.sessions s;
       Server.tick := S (Server.tick s) |}.
Proof.
  intros Hmethod Hpath Hjson Hkey Hne.
  unfold Handler.routes. rewrite Hmethod, Hpath.
  change (String.eqb "/api/keys" "/api/data") with false.
  change (String.eqb "/api/keys" "/api/keys" && String.eqb "POST" "GET") with false.
  change (String.eqb "/api/keys" "/api/keys/import" && String.eqb "POST" "POST") with false.
  change (matches_full_route "/api/keys" && String.eqb "POST" "GET") with false.
  change (String.eqb "/api/keys" "/api/keys/batch-delete" && String.eqb "POST" "POST")
    with false.
  change (startsWith "/api/keys" "/api/keys/" && String.eqb "POST" "DELETE") with false.
  change (String.eqb "/api/keys" "/api/keys" && String.eqb "POST" "POST") with true.
  cbv iota. unfold Handler.req_json. rewrite Hjson.
  cbv [Server.try_catch Server.bind Server.ret Server.Date_now Server.next_tick
       Server.platform].
  rewrite Hkey. unfold Server.truthy. apply String.eqb_neq in Hne. rewrite Hne.
  reflexivity.
Qed.

Lemma routes_full (req : ServerRequest.t) (id : string) (p : Server.Platform)
    (s : Server.State) :
  ServerRequest.method req = "GET" ->
  ServerRequest.pathname req = "/api/keys/" ++ id ++ "/full" ->
  occurs "/" id = false -> id <> "" ->
  Handler.routes req p s =
  (Normal
     match Server.kv_get id (store_of s) with
     | Some entry =>
       {| HttpResponse.status := 200;
          HttpResponse.body := FullKeyJson (ApiKeyEntry.id entry) (ApiKeyEntry.key entry);
          HttpResponse.session_cookie := None |}
     | None =>
       {| HttpResponse.status := 404; HttpResponse.body := ErrorJson (Some "Key not found");
          HttpResponse.session_cookie := None |}
     end, s).
Proof.
  intros Hmethod Hpath Hslash Hne.
  destruct (full_route_of_id id Hslash Hne) as [Hmatch Hpart].
  unfold Handler.routes. rewrite Hmethod, Hpath, Hmatch, Hpart.
  rewrite (eqb_prefix_false "/api/keys/" (id ++ "/full") "/api/data") by reflexivity.
  rewrite (eqb_prefix_false "/api/keys/" (id ++ "/full") "/api/keys") by reflexivity.
  change (String.eqb "GET" "POST") with false. rewrite andb_false_r.
  change (String.eqb "GET" "GET") with true. cbn [andb].
  apply String.eqb_neq in Hne. rewrite Hne.
  cbv [Server.try_catch Server.bind Server.getApiKey Server.get_state Server.ret
       Handler.respond store_of].
  now destruct (Server.kv_get id (kv (Server.effects s))).
Qed.

Lemma tick_checked (p : Server.Platform) (s : Server.State) :
  Server.tick s <= Server.tick (checked p s)
  /\ Server.effects (checked p s) = Server.effects s
  /\ Server.sessions (checked p s) = Server.sessions s.
Proof.
  unfold checked. destruct (Server.truthy (Server.ADMIN_PASSWORD p)); simpl; auto.
Qed.

(** X14. A key added with [POST /api/keys] can be read back in full:
    the answer names the id "key-<clock reading>", and [GET
    /api/keys/<id>/full] then returns that id with the key exactly as it
    was posted.  Every credential stored under another id is kept, also
    one with the same secret: this route looks for no duplicate. *)
Theorem added_key_is_read_back (req : ServerRequest.t) (body : RequestBody.t) (key : string)
    (p : Server.Platform) (s : Server.State) :
  ServerRequest.method req = "POST" ->
  ServerRequest.pathname req = "/api/keys" ->
  ServerRequest.json req = inr body ->
  RequestBody.key body = Some key -> key <> "" ->
  authorized p s req = true ->
  Server.kv_write_error p (2 + Server.tick (checked p s)) = None ->
  exists id s1,
    Handler.handler req p s =
    (Normal {| HttpResponse.status := 200; HttpResponse.body := AddedJson id;
               HttpResponse.session_cookie := None |}, s1)
    /\ id = "key-" ++ pretty (Server.clock p (Server.tick (checked p s)))
    /\ (forall e, In e (store_of s) -> ApiKeyEntry.id e <> id -> In e (store_of s1))
    /\ forall req',
         ServerRequest.method req' = "GET" ->
         ServerRequest.pathname req' = "/api/keys/" ++ id ++ "/full" ->
         authorized p s1 req' = true ->
         fst (Handler.handler req' p s1) =
         Normal {| HttpResponse.status := 200; HttpResponse.body := FullKeyJson id key;
                   HttpResponse.session_cookie := None |}.
Proof.
  intros Hmethod Hpath Hjson Hkey Hne Hauth Hw.
  rewrite handler_authorized; [|unfold behind_gate; now rewrite Hmethod, Hpath|exact Hauth].
  rewrite (routes_add req body key) by assumption.
  set (s0 := checked p s) in *. set (id := "key-" ++ pretty (Server.clock p (Server.tick s0))).
  unfold Server.try_catch, Server.bind. rewrite saveApiKey_run. cbn [Server.tick].
  change (S (S (Server.tick s0))) with (2 + Server.tick s0). rewrite Hw.
  unfold Handler.respond, Server.ret. eexists id, _. split; [reflexivity|].
  split; [reflexivity|]. split.
  - intros e He Hid. unfold store_of. cbn [Server.effects kv].
    destruct (tick_checked p s) as (_ & Hfx & _). fold s0 in Hfx. rewrite Hfx.
    clear - He Hid. unfold store_of in He.
    induction (kv (Server.effects s)) as [|x store IH]; [destruct He|].
    cbn [Server.kv_set ApiKeyEntry.id].
    destruct (String.compare id (ApiKeyEntry.id x)) eqn:Hcmp.
    + apply String_as_OT.cmp_eq in Hcmp. destruct He as [->|He]; [congruence|now right].
    + now right.
    + destruct He as [->|He]; [now left|right; now apply IH].
  - intros req' Hmethod' Hpath' Hauth'.
    rewrite handler_authorized;
      [|unfold behind_gate; rewrite Hmethod', Hpath';
        now rewrite !(eqb_prefix_false "/api/keys/") by reflexivity|exact Hauth'].
    rewrite (routes_full req' id); try assumption;
      [|apply occurs_slash_added_id|discriminate].
    cbn [fst]. f_equal.
    rewrite store_of_checked. unfold store_of. cbn [Server.effects kv].
    now rewrite (kv_get_set_eq {| ApiKeyEntry.id := id |}).
Qed.

(** X15. [DELETE /api/keys/<id>] removes the credential stored under
    the id and answers success also when nothing was stored under it; the
    other credentials stay.  With an empty last segment or the segment
    "batch-delete" it answers 400 and removes nothing. *)
Theorem delete_route_removes_the_id (req : ServerRequest.t) (id : string)
    (p : Server.Platform) (s : Server.State) :
  ServerRequest.method req = "DELETE" ->
  ServerRequest.pathname req = "/api/keys/" ++ id ->
  occurs "/" id = false ->
  authorized p s req = true ->
  Server.kv_write_error p (Server.tick (checked p s)) = None ->
  exists response s',
    Handler.handler req p s = (Normal response, s')
    /\ if String.eqb id "" || String.eqb id "batch-delete"
       then HttpResponse.status response = 400
            /\ HttpResponse.body response = ErrorJson (Some "Key ID required")
            /\ store_of s' = store_of s
       else HttpResponse.status response = 200
            /\ HttpResponse.body response = SuccessJson
            /\ store_of s' = Server.kv_delete id (store_of s).
Proof.
  intros Hmethod Hpath Hslash Hauth Hw.
  rewrite handler_authorized;
    [|unfold behind_gate; rewrite Hmethod, Hpath;
      now rewrite !(eqb_prefix_false "/api/keys/") by reflexivity|exact Hauth].
  destruct (delete_route_of_id id Hslash) as [Hstarts Hpop].
  unfold Handler.routes. rewrite Hmethod, Hpath, Hstarts, Hpop.
  rewrite (eqb_prefix_false "/api/keys/" id "/api/data") by reflexivity.
  rewrite (eqb_prefix_false "/api/keys/" id "/api/keys") by reflexivity.
  change (String.eqb "DELETE" "POST") with false.
  change (String.eqb "DELETE" "GET") with false. rewrite !andb_false_r.
  change (String.eqb "DELETE" "DELETE") with true. cbn [andb].
  pose proof (store_of_checked p s) as Hstore.
  unfold Server.try_catch.
  destruct (String.eqb id "" || String.eqb id "batch-delete").
  - eexists _, _. split; [reflexivity|]. now repeat split.
  - unfold Server.bind. rewrite deleteApiKey_run, Hw.
    eexists _, _. split; [reflexivity|]. repeat split.
    unfold store_of in *. cbn [Server.effects kv]. now rewrite Hstore.
Qed.

(** X16. [/api/data], once past the check and for every method but the
    preflight, answers 500 with the message "No API keys found in
    storage..." when nothing is stored, after writing the error to the
    console and without any upstream request; otherwise it answers 200 with
    a snapshot that counts and lists one entry per stored credential, after
    exactly one upstream request per credential.  The store is unchanged in
    both cases. *)
Theorem data_route_answers (req : ServerRequest.t) (p : Server.Platform) (s : Server.State) :
  ServerRequest.method req <> "OPTIONS" ->
  ServerRequest.pathname req = "/api/data" ->
  authorized p s req = true ->
  exists response s',
    Handler.handler req p s = (Normal response, s')
    /\ store_of s' = store_of s
    /\ match store_of s with
       | [] =>
         response = {| HttpResponse.status := 500;
                       HttpResponse.body := ErrorJson (Some no_keys_message);
                       HttpResponse.session_cookie := None |}
         /\ requests (Server.effects s') = requests (Server.effects s)
         /\ console (Server.effects s')
            = (console (Server.effects s)
               ++ [console_error [Caught (ErrorObject no_keys_message)]])%list
       | keyEntries =>
         exists snapshot,
           response = {| HttpResponse.status := 200; HttpResponse.body := DataJson snapshot;
                         HttpResponse.session_cookie := None |}
           /\ total_count snapshot = length keyEntries
           /\ length (data snapshot) = length keyEntries
           /\ requests (Server.effects s')
              = (requests (Server.effects s)
                 ++ map (fun e => usage_request (ApiKeyEntry.key e)) keyEntries)%list
       end.
Proof.
  intros Hmethod Hpath Hauth. apply String.eqb_neq in Hmethod.
  rewrite handler_authorized; [|unfold behind_gate; now rewrite Hmethod, Hpath|exact Hauth].
  unfold Handler.routes. rewrite Hpath.
  change (String.eqb "/api/data" "/api/data") with true. cbv iota.
  pose proof (store_of_checked p s) as Hstore.
  destruct (tick_checked p s) as (_ & Hfx & _).
  cbv [Server.try_catch Server.bind Server.lift].
  destruct (store_of s) as [|e store] eqn:Hkv.
  - rewrite getAggregatedData_empty by exact Hstore.
    cbv [write_console Server.ret Handler.respond_500 ConcurrentTaskRunner.message_of
         Handler.respond].
    eexists _, _. split; [reflexivity|]. cbn [Server.effects kv requests console].
    rewrite Hfx. split; [exact Hkv|]. now repeat split.
  - destruct (getAggregatedData_run (Server.world p) (Server.effects (checked p s)))
      as (results & lines & Hrun & _ & Hres).
    { fold (store_of (checked p s)). rewrite Hstore. discriminate. }
    rewrite Hrun. cbv [Handler.respond Server.ret].
    eexists _, _. split; [reflexivity|].
    fold (store_of (checked p s)) in *. rewrite Hstore in *.
    cbn [Server.effects kv requests after_fan_out].
    split; [unfold store_of; cbn [Server.effects kv after_fan_out]; now rewrite Hfx|].
    eexists. split; [reflexivity|]. cbn [total_count data snapshot_of].
    split; [reflexivity|]. split.
    + now apply Forall2_fetched_length in Hres.
    + now rewrite Hfx.
Qed.

(** ** Failures inside a route *)

Lemma catchable_answers {A} (p : Server.Platform) (m : Server.M A) :
  answers p m -> catchable p m.
Proof. intros Hm s error Hthrow. destruct (Hm s) as (a & s' & Hrun). now rewrite Hrun in Hthrow. Qed.

Lemma answers_ret {A} (p : Server.Platform) (a : A) : answers p (Server.ret a).
Proof. intros s. now exists a, s. Qed.

Lemma answers_bind {A B} (p : Server.Platform) (m : Server.M A) (k : A -> Server.M B) :
  answers p m -> (forall a, answers p (k a)) -> answers p (Server.bind m k).
Proof.
  intros Hm Hk s. unfold Server.bind. destruct (Hm s) as (a & s1 & ->). apply Hk.
Qed.

Lemma catchable_bind {A B} (p : Server.Platform) (m : Server.M A) (k : A -> Server.M B) :
  catchable p m -> (forall a, catchable p (k a)) -> catchable p (Server.bind m k).
Proof.
  intros Hm Hk s error. unfold Server.bind. specialize (Hm s).
  destruct (m p s) as [[a|error'] s1]; [apply Hk|].
  intros [= <-]. now apply Hm.
Qed.

Lemma answers_respond_500 (p : Server.Platform) (error : Thrown) :
  has_message error -> answers p (Handler.respond_500 error).
Proof.
  intros Hmessage s. destruct error; [..|now destruct Hmessage];
    eexists _, _; reflexivity.
Qed.

Lemma answers_try_catch (p : Server.Platform) (body : Server.M HttpResponse.t)
    (handler : Thrown -> Server.M HttpResponse.t) :
  catchable p body -> (forall error, has_message error -> answers p (handler error)) ->
  answers p (Server.try_catch body handler).
Proof.
  intros Hbody Hhandler s. unfold Server.try_catch. specialize (Hbody s).
  destruct (body p s) as [[a|error] s1]; [now exists a, s1|].
  apply Hhandler. now apply Hbody.
Qed.

Lemma answers_write_console (p : Server.Platform) (line : ConsoleLine) :
  answers p (Server.lift (write_console line)).
Proof. intros s. eexists _, _. reflexivity. Qed.

Lemma catchable_getAggregatedData (p : Server.Platform) :
  catchable p (Server.lift getAggregatedData).
Proof.
  intros s error. unfold Server.lift.
  destruct (kv (Server.effects s)) as [|e store] eqn:Hkv.
  - rewrite getAggregatedData_empty by exact Hkv. intros [= <-]. discriminate.
  - destruct (getAggregatedData_run (Server.world p) (Server.effects s))
      as (results & lines & -> & _); [congruence|]. discriminate.
Qed.

Section Caught.

Variable p : Server.Platform.
Variable req : ServerRequest.t.
Hypothesis Hthrows : throws_objects p req.

Lemma catchable_req_json : catchable p (Handler.req_json req).
Proof.
  intros s error. unfold Handler.req_json.
  destruct (ServerRequest.json req) as [error'|body] eqn:Hjson; [|discriminate].
  intros [= <-]. now apply (proj2 Hthrows).
Qed.

Lemma catchable_saveApiKey (id key : string) (name : option string) :
  catchable p (Server.saveApiKey id key name).
Proof.
  intros s error. rewrite saveApiKey_run.
  destruct (Server.kv_write_error p (S (Server.tick s))) as [error'|] eqn:Hw; [|discriminate].
  intros [= <-]. now apply (proj1 Hthrows) in Hw.
Qed.

Lemma catchable_deleteApiKey (id : string) : catchable p (Server.deleteApiKey id).
Proof.
  intros s error. rewrite deleteApiKey_run.
  destruct (Server.kv_write_error p (Server.tick s)) as [error'|] eqn:Hw; [|discriminate].
  intros [= <-]. now apply (proj1 Hthrows) in Hw.
Qed.

Lemma catchable_createSession : catchable p Server.createSession.
Proof.
  intros s error. rewrite createSession_run.
  destruct (Server.kv_write_error p (3 + Server.tick s)) as [error'|] eqn:Hw; [|discriminate].
  intros [= <-]. now apply (proj1 Hthrows) in Hw.
Qed.

Lemma answers_batchImportKeys (keys : list string) : answers p (Server.batchImportKeys keys).
Proof.
  intros s. unfold Server.batchImportKeys, Server.bind at 1, Server.lift, getAllApiKeys.
  match goal with |- context [Server.import_loop keys 0 ?E ?c p ?s1] =>
    destruct (import_loop_counts p keys 0 E c s1) as (c' & s' & -> & _) end.
  now exists c', s'.
Qed.

Lemma answers_batchDeleteKeys (ids : list string) : answers p (Server.batchDeleteKeys ids).
Proof.
  intros s. unfold Server.batchDeleteKeys.
  match goal with |- context [Server.delete_loop ids ?c p s] =>
    destruct (delete_loop_run p ids c s) as (c' & s' & -> & _) end.
  now exists c', s'.
Qed.

Lemma answers_routes : answers p (Handler.routes req).
Proof.
  unfold Handler.routes.
  destruct (String.eqb (ServerRequest.pathname req) "/api/data").
  { apply answers_try_catch.
    - apply catchable_bind; [apply catchable_getAggregatedData|].
      intros data. apply catchable_answers, answers_ret.
    - intros error Herror. apply answers_bind; [apply answers_write_console|].
      intros _. now apply answers_respond_500. }
  destruct (String.eqb (ServerRequest.pathname req) "/api/keys" && _).
  { apply answers_try_catch; [|apply answers_respond_500].
    apply catchable_answers, answers_bind; [|intros keys; apply answers_ret].
    intros s. eexists _, _. reflexivity. }
  destruct (String.eqb (ServerRequest.pathname req) "/api/keys/import" && _).
  { apply answers_try_catch; [|apply answers_respond_500].
    apply catchable_bind; [apply catchable_req_json|]. intros body.
    apply catchable_answers.
    destruct (RequestBody.keys body); [|apply answers_ret].
    apply answers_bind; [apply answers_batchImportKeys|]. intros result. apply answers_ret. }
  destruct (matches_full_route (ServerRequest.pathname req) && _).
  { apply answers_try_catch; [|apply answers_respond_500].
    apply catchable_answers.
    destruct (part _ _) as [id|]; [|apply answers_ret].
    destruct (String.eqb id ""); [apply answers_ret|].
    apply answers_bind; [intros s; eexists _, _; reflexivity|].
    intros [entry|]; apply answers_ret. }
  destruct (String.eqb (ServerRequest.pathname req) "/api/keys/batch-delete" && _).
  { apply answers_try_catch; [|apply answers_respond_500].
    apply catchable_bind; [apply catchable_req_json|]. intros body.
    apply catchable_answers.
    destruct (RequestBody.ids body) as [[|id ids]|]; try apply answers_ret.
    apply answers_bind; [apply answers_batchDeleteKeys|]. intros result. apply answers_ret. }
  destruct (startsWith (ServerRequest.pathname req) "/api/keys/" && _).
  { apply answers_try_catch; [|apply answers_respond_500].
    destruct (pop _) as [id|]; [|apply catchable_answers, answers_ret].
    destruct (String.eqb id "" || String.eqb id "batch-delete");
      [apply catchable_answers, answers_ret|].
    apply catchable_bind; [apply catchable_deleteApiKey|].
    intros _. apply catchable_answers, answers_ret. }
  destruct (String.eqb (ServerRequest.pathname req) "/api/keys" && _).
  { apply answers_try_catch; [|apply answers_respond_500].
    apply catchable_bind; [apply catchable_req_json|]. intros body.
    destruct (negb (Server.truthy (RequestBody.key body)));
      [apply catchable_answers, answers_ret|].
    destruct (RequestBody.key body) as [key|]; [|apply catchable_answers, answers_ret].
    apply catchable_bind; [apply catchable_answers; intros s; eexists _, _; reflexivity|].
    intros now. apply catchable_bind; [apply catchable_saveApiKey|].
    intros _. apply catchable_answers, answers_ret. }
  apply answers_ret.
Qed.

Lemma answers_login : answers p (Handler.login req).
Proof.
  unfold Handler.login. apply answers_try_catch; [|apply answers_respond_500].
  apply catchable_bind; [apply catchable_req_json|]. intros body.
  apply catchable_bind; [apply catchable_answers; intros s; eexists _, _; reflexivity|].
  intros p'. destruct (Handler.same_password _ _); [|apply catchable_answers, answers_ret].
  apply catchable_bind; [apply catchable_createSession|].
  intros sessionId. apply catchable_answers, answers_ret.
Qed.

End Caught.

Lemma isAuthenticated_answers (req : ServerRequest.t) (p : Server.Platform) (s : Server.State) :
  Server.kv_write_error p (1 + Server.tick s) = None ->
  exists authenticated s',
    Server.isAuthenticated req p s = (Normal authenticated, s').
Proof.
  intros Hw. rewrite isAuthenticated_run.
  destruct (negb (Server.truthy (Server.ADMIN_PASSWORD p))); [now eexists _, _|].
  destruct (ServerRequest.session req) as [sessionId|]; [|now eexists _, _].
  destruct (String.eqb sessionId ""); [now eexists _, _|].
  rewrite validateSession_run, Hw.
  destruct (Server.sessions s !! sessionId) as [session|]; [|now eexists _, _].
  destruct (Session.expiresAt session <? Server.clock p (Server.tick s))%Z; now eexists _, _.
Qed.

(** X17. A failure inside a route never escapes it: whatever the
    request and the state, and whichever writes the store rejects, every
    route ends with a response as long as what is thrown is an object (not
    [null] or [undefined]), because each [catch] turns the failure into a
    500.  [handler] as a whole answers too, provided the removal of an
    expired session, which happens outside any [try], is not rejected. *)
Theorem failures_become_responses (req : ServerRequest.t) (p : Server.Platform)
    (s : Server.State) :
  throws_objects p req ->
  (exists response s', Handler.routes req p s = (Normal response, s'))
  /\ (Server.kv_write_error p (1 + Server.tick s) = None ->
      exists response s', Handler.handler req p s = (Normal response, s')).
Proof.
  intros Hthrows. split; [apply (answers_routes p req Hthrows)|].
  intros Hw. unfold Handler.handler.
  destruct (String.eqb (ServerRequest.method req) "OPTIONS"); [now eexists _, _|].
  destruct (String.eqb (ServerRequest.pathname req) "/api/login" && _);
    [apply (answers_login p req Hthrows)|].
  destruct (isAuthenticated_answers req p s Hw) as (authenticated & s1 & Hauth).
  cbv [Server.bind Server.platform Server.ret Handler.respond].
  destruct (Server.truthy (Server.ADMIN_PASSWORD p) && _) eqn:Hpage.
  - rewrite Hauth. destruct authenticated; cbn [negb]; [|now eexists _, _].
    apply andb_true_iff in Hpage as [_ ->]. now eexists _, _.
  - destruct (String.eqb (ServerRequest.pathname req) "/"); [now eexists _, _|].
    rewrite Hauth.
    destruct (Server.truthy (Server.ADMIN_PASSWORD p) && negb authenticated);
      [now eexists _, _|].
    apply (answers_routes p req Hthrows).
Qed.

(** ** The key cache of the browser script *)

Lemma cache_saveToStorage (c : KeyCache.t) :
  KeyCache.cache (KeyCache.saveToStorage c) = KeyCache.cache c
  /\ KeyCache.maxAge (KeyCache.saveToStorage c) = KeyCache.maxAge c.
Proof. unfold KeyCache.saveToStorage. now destruct (KeyCache.quota_error c). Qed.

Lemma cache_set (id key : string) (now : Z) (c : KeyCache.t) :
  KeyCache.cache (KeyCache.set id key now c)
  = <[id := {| KeyCache.Item.key := key; KeyCache.Item.timestamp := now |}]> (KeyCache.cache c)
  /\ KeyCache.maxAge (KeyCache.set id key now c) = KeyCache.maxAge c.
Proof.
  unfold KeyCache.set.
  destruct (cache_saveToStorage
              (KeyCache.with_cache
                 (<[id := {| KeyCache.Item.key := key; KeyCache.Item.timestamp := now |}]>
                    (KeyCache.cache c)) c)) as [-> ->].
  now split.
Qed.

(** X18. The key cache hands out a key only while it is at most
    [maxAge] old: after [set(id, key)] at time [t0], [get(id)] at time
    [now] returns the key when [now - t0 <= maxAge] and [null] otherwise;
    an entry found too old is dropped, so that every later [get] of the id
    returns [null] whatever the clock shows.  Other ids are not affected,
    and all of this holds whether or not the browser storage takes the
    write. *)
Theorem cached_key_expires (id key : string) (t0 now : Z) (c : KeyCache.t) :
  fst (KeyCache.get id now (KeyCache.set id key t0 c))
  = (if (KeyCache.maxAge c <? now - t0)%Z then None else Some key)
  /\ ((KeyCache.maxAge c < now - t0)%Z ->
      forall now',
        fst (KeyCache.get id now' (snd (KeyCache.get id now (KeyCache.set id key t0 c))))
        = None)
  /\ (forall id', id' <> id ->
        fst (KeyCache.get id' now (KeyCache.set id key t0 c)) = fst (KeyCache.get id' now c)).
Proof.
  destruct (cache_set id key t0 c) as [Hcache Hage].
  assert (forall id' now', KeyCache.get id' now' (KeyCache.set id key t0 c)
            = match KeyCache.cache (KeyCache.set id key t0 c) !! id' with
              | None => (None, KeyCache.set id key t0 c)
              | Some item =>
                if KeyCache.expired now' (KeyCache.maxAge c) item
                then (None, KeyCache.saveToStorage
                              (KeyCache.with_cache
                                 (delete id' (KeyCache.cache (KeyCache.set id key t0 c)))
                                 (KeyCache.set id key t0 c)))
                else (Some (KeyCache.Item.key item), KeyCache.set id key t0 c)
              end) as Hget.
  { intros id' now'. unfold KeyCache.get at 1. now rewrite Hage. }
  split; [|split].
  - rewrite Hget, Hcache, lookup_insert_eq. unfold KeyCache.expired. cbn.
    now destruct (KeyCache.maxAge c <? now - t0)%Z.
  - intros Hold now'. rewrite Hget, Hcache, lookup_insert_eq. unfold KeyCache.expired. cbn.
    apply Z.ltb_lt in Hold. rewrite Hold. cbn [snd]. unfold KeyCache.get.
    destruct (cache_saveToStorage
                (KeyCache.with_cache
                   (delete id (<[id := {| KeyCache.Item.key := key;
                                          KeyCache.Item.timestamp := t0 |}]>
                                 (KeyCache.cache c)))
                   (KeyCache.set id key t0 c))) as [-> _].
    cbn [KeyCache.with_cache KeyCache.cache]. now rewrite lookup_delete_eq.
  - intros id' Hne. rewrite Hget, Hcache, lookup_insert_ne by congruence.
    unfold KeyCache.get.
    destruct (KeyCache.cache c !! id') as [item|]; [|reflexivity].
    now destruct (KeyCache.expired now (KeyCache.maxAge c) item).
Qed.

Lemma cache_loadFromStorage (now : Z) (c : KeyCache.t) :
  KeyCache.cache (KeyCache.loadFromStorage now c)
  = match KeyCache.localStorage c with
    | Some (inr data) =>
      filter (fun entry => KeyCache.in_date now (KeyCache.maxAge c) (snd entry) = true) data
      ∪ KeyCache.cache c
    | _ => KeyCache.cache c
    end
  /\ KeyCache.maxAge (KeyCache.loadFromStorage now c) = KeyCache.maxAge c.
Proof.
  unfold KeyCache.loadFromStorage. now destruct (KeyCache.localStorage c) as [[?|?]|].
Qed.

(** X19. What the cache holds survives a reload of the page while it
    is younger than [maxAge]: when the browser storage takes the write, a
    cache constructed at time [t1] from what [set(id, key)] stored at time
    [t0] holds the key with its original timestamp if [t1 - t0 < maxAge],
    and nothing under the id otherwise.  When the storage refuses the
    write, the new cache has only what the storage held before. *)
Theorem cache_survives_reload (id key : string) (t0 t1 : Z) (age : option Z)
    (c : KeyCache.t) :
  let maxAge := match age with Some a => a | None => 86400000%Z end in
  let reloaded := KeyCache.constructor age t1 (KeyCache.set id key t0 c) in
  KeyCache.maxAge reloaded = maxAge
  /\ (KeyCache.quota_error c = None ->
      KeyCache.cache reloaded !! id
      = if (t1 - t0 <? maxAge)%Z
        then Some {| KeyCache.Item.key := key; KeyCache.Item.timestamp := t0 |}
        else None)
  /\ (KeyCache.quota_error c <> None ->
      KeyCache.cache reloaded = KeyCache.cache (KeyCache.constructor age t1 c)).
Proof.
  intros maxAge reloaded. subst reloaded. unfold KeyCache.constructor.
  change KeyCache.default_maxAge with 86400000%Z. fold maxAge.
  split; [apply cache_loadFromStorage|].
  rewrite !(proj1 (cache_loadFromStorage _ _)).
  cbn [KeyCache.localStorage KeyCache.cache KeyCache.maxAge].
  unfold KeyCache.set, KeyCache.saveToStorage.
  cbn [KeyCache.with_cache KeyCache.quota_error KeyCache.cache KeyCache.maxAge
       KeyCache.localStorage KeyCache.console].
  destruct (KeyCache.quota_error c) as [error|] eqn:Hquota.
  - split; [discriminate|]. intros _. reflexivity.
  - cbn [KeyCache.localStorage]. split; [|congruence]. intros _.
    rewrite (right_id_L ∅ (∪)).
    destruct (t1 - t0 <? maxAge)%Z eqn:Hage.
    + apply map_lookup_filter_Some. split; [apply lookup_insert_eq|exact Hage].
    + apply map_lookup_filter_None. right. intros item. rewrite lookup_insert_eq.
      intros [= <-]. unfold KeyCache.in_date. cbn. now rewrite Hage.
Qed.

(** ** Forgetting keys in the browser *)

Lemma cache_forget (c : KeyCache.t) (ids : list string) (id : string) :
  KeyCache.cache (forget ids c) !! id
  = if decide (id ∈ ids) then None else KeyCache.cache c !! id.
Proof.
  unfold forget. cbn [KeyCache.with_cache KeyCache.cache].
  generalize (KeyCache.cache c). induction ids as [|x ids IH]; intros cache.
  - cbn [fold_left]. rewrite decide_False by apply not_elem_of_nil. reflexivity.
  - cbn [fold_left]. rewrite IH.
    destruct (decide (id ∈ ids)) as [Hin|Hout].
    + rewrite decide_True by now right. reflexivity.
    + destruct (decide (id = x)) as [->|Hne].
      * rewrite decide_True by now left. apply lookup_delete_eq.
      * rewrite decide_False by (intros [?|?]%elem_of_cons; congruence).
        now apply lookup_delete_ne.
Qed.

(** X20. The browser's batch delete forgets a key in memory only:
    after [set(id, key)] at [t0] and the clean-up of a batch delete that
    lists the id, [get(id)] returns [null]; but the storage still holds the
    entry, so a cache constructed by a reload at [t1] with [t1 - t0 <
    maxAge], before anything else has written the cache, holds the secret
    of the deleted credential again. *)
Theorem deleted_key_stays_in_storage (id key : string) (ids : list string) (t0 t1 now : Z)
    (age : option Z) (c : KeyCache.t) :
  let maxAge := match age with Some a => a | None => 86400000%Z end in
  let forgotten := forget ids (KeyCache.set id key t0 c) in
  id ∈ ids ->
  fst (KeyCache.get id now forgotten) = None
  /\ (KeyCache.quota_error c = None -> (t1 - t0 < maxAge)%Z ->
      KeyCache.cache (KeyCache.constructor age t1 forgotten) !! id
      = Some {| KeyCache.Item.key := key; KeyCache.Item.timestamp := t0 |}).
Proof.
  intros maxAge forgotten Hin. subst forgotten. split.
  - unfold KeyCache.get. rewrite cache_forget, decide_True by exact Hin. reflexivity.
  - intros Hquota Hage. unfold KeyCache.constructor.
    change KeyCache.default_maxAge with 86400000%Z. fold maxAge.
    rewrite (proj1 (cache_loadFromStorage _ _)).
    cbn [KeyCache.localStorage KeyCache.cache KeyCache.maxAge forget KeyCache.with_cache].
    unfold KeyCache.set, KeyCache.saveToStorage.
    cbn [KeyCache.with_cache KeyCache.quota_error]. rewrite Hquota.
    cbn [KeyCache.localStorage KeyCache.cache]. rewrite (right_id_L ∅ (∪)).
    apply map_lookup_filter_Some. split; [apply lookup_insert_eq|].
    unfold KeyCache.in_date. cbn. now apply Z.ltb_lt.
Qed.

(** ** Paging *)

Lemma take_min_length {A} (c : nat) (l : list A) : take (Nat.min c (length l)) l = take c l.
Proof.
  destruct (Nat.le_gt_cases c (length l)) as [Hle|Hgt].
  - now rewrite Nat.min_l.
  - rewrite Nat.min_r by lia. now rewrite !take_ge by lia.
Qed.

Lemma js_slice_nonneg {A} (a : list A) (start count : Z) :
  (0 <= start)%Z -> (0 <= count)%Z ->
  js_slice a start (start + count) = take (Z.to_nat count) (drop (Z.to_nat start) a).
Proof.
  intros Hstart Hcount. unfold js_slice, relative_index.
  destruct (Z.ltb_spec start 0) as [|_]; [lia|].
  destruct (Z.ltb_spec (start + count) 0) as [|_]; [lia|].
  rewrite Z2Nat.inj_add by lia.
  destruct (Nat.le_gt_cases (length a) (Z.to_nat start)) as [Hge|Hlt].
  - rewrite (Nat.min_r (Z.to_nat start)) by lia. rewrite !drop_ge by lia.
    now rewrite !take_nil.
  - rewrite (Nat.min_l (Z.to_nat start)) by lia.
    rewrite <- (take_min_length (Z.to_nat count)). rewrite length_drop. f_equal. lia.
Qed.

Lemma ceil_div_bounds (totalItems : nat) (n : positive) :
  (Z.of_nat totalItems <= Pager.ceil_div totalItems n * Z.pos n)%Z
  /\ (((Pager.ceil_div totalItems n - 1) * Z.pos n < Z.of_nat totalItems)%Z
      \/ totalItems = 0)
  /\ (0 <= Pager.ceil_div totalItems n)%Z.
Proof.
  unfold Pager.ceil_div.
  pose proof (Z.div_mod (Z.of_nat totalItems + Z.pos n - 1) (Z.pos n)) as Hdiv.
  pose proof (Z.mod_pos_bound (Z.of_nat totalItems + Z.pos n - 1) (Z.pos n)) as Hmod.
  assert (0 <= (Z.of_nat totalItems + Z.pos n - 1) / Z.pos n)%Z
    by (apply Z.div_pos; lia).
  split; [|split; [|assumption]].
  - nia.
  - destruct totalItems; [now right|left]. nia.
Qed.

Lemma page_rows_spec {A} (data : list A) (n : positive) (k : Z) :
  (1 <= k <= Pager.totalPages (length data) (Pager.PerPage n))%Z ->
  page_rows data n k
  = take (Pos.to_nat n) (drop (Z.to_nat (k - 1) * Pos.to_nat n) data).
Proof.
  intros Hk. unfold page_rows, Pager.render.
  cbn [Pager.itemsPerPage Pager.currentPage snd].
  destruct (Z.ltb_spec (Pager.totalPages (length data) (Pager.PerPage n)) k) as [|_]; [lia|].
  rewrite js_slice_nonneg by nia.
  change (Z.to_nat (Z.pos n)) with (Pos.to_nat n). do 2 f_equal.
  rewrite Z2Nat.inj_mul by lia. reflexivity.
Qed.

Lemma chunks_concat {A} (n : nat) :
  0 < n ->
  forall (m : nat) (data : list A),
  length data <= m * n ->
  concat (map (fun j => take n (drop (j * n) data)) (seq 0 m)) = data.
Proof.
  intros Hn. induction m as [|m IH]; intros data Hlen.
  - destruct data; [reflexivity|simpl in Hlen; lia].
  - cbn [seq map concat]. rewrite <- seq_shift, map_map.
    change (0 * n) with 0. rewrite drop_0.
    rewrite <- (take_drop n data) at 2. f_equal.
    rewrite <- (IH (drop n data)) by (rewrite length_drop; lia).
    f_equal. apply map_ext. intros j. rewrite drop_drop. reflexivity.
Qed.

Lemma page_rows_nonempty {A} (data : list A) (n : positive) (k : Z) :
  (1 <= k <= Pager.totalPages (length data) (Pager.PerPage n))%Z ->
  data <> [] -> page_rows data n k <> [].
Proof.
  intros Hrange Hdata. rewrite page_rows_spec by exact Hrange. intros Hrows.
  destruct (ceil_div_bounds (length data) n) as (_ & [Hlow|Hzero] & _);
    [|destruct data; [congruence|discriminate]].
  apply (f_equal length) in Hrows. rewrite length_take, length_drop in Hrows.
  cbn [length] in Hrows. cbn [Pager.totalPages] in Hrange.
  pose proof (Pos2Nat.is_pos n) as Hn.
  assert ((k - 1) * Z.pos n < Z.of_nat (length data))%Z as Hstart.
  { destruct (Z.eq_dec k 1%Z) as [Hone|Hne];
      [rewrite Hone; destruct data; [congruence|simpl; lia]|].
    apply Z.le_lt_trans with ((Pager.ceil_div (length data) n - 1) * Z.pos n)%Z;
      [|exact Hlow].
    apply Z.mul_le_mono_nonneg_r; lia. }
  assert (Z.to_nat (k - 1) * Pos.to_nat n < length data) as Hstart'.
  { apply Nat2Z.inj_lt. rewrite Nat2Z.inj_mul, Z2Nat.id, positive_nat_Z by lia.
    exact Hstart. }
  lia.
Qed.

(** X21. The pages cut the rows into consecutive pieces and lose none:
    for every list of rows and every positive page size, the rows of the
    pages 1 to [totalPages], one after the other, are the list itself. *)
Theorem pages_partition_the_rows {A} (data : list A) (n : positive) :
  concat (map (fun k => page_rows data n (Z.of_nat k))
              (seq 1 (Z.to_nat (Pager.totalPages (length data) (Pager.PerPage n)))))
  = data.
Proof.
  destruct (ceil_div_bounds (length data) n) as (Hup & _ & Hpos).
  set (pages := Z.to_nat (Pager.totalPages (length data) (Pager.PerPage n))).
  assert (Z.of_nat pages = Pager.totalPages (length data) (Pager.PerPage n)) as Hpages
    by (unfold pages; cbn [Pager.totalPages]; lia).
  rewrite <- seq_shift, map_map.
  transitivity (concat (map (fun j => take (Pos.to_nat n) (drop (j * Pos.to_nat n) data))
                            (seq 0 pages))).
  - f_equal. apply map_ext_in. intros j Hj. apply in_seq in Hj.
    rewrite page_rows_spec by lia. do 3 f_equal. lia.
  - apply chunks_concat; [apply Pos2Nat.is_pos|].
    cbn [Pager.totalPages] in Hpages. nia.
Qed.

(** X22. Drawing never leaves the view beyond the last page: for a
    current page of at least 1, [renderTable] and [renderCards] bring the
    current page into 1..[totalPages] (it only ever goes down), keep the
    page size, show rows of the list only, at most a page full, and show at
    least one row whenever there is one; with the size "all" they show
    every row. *)
Theorem render_stays_in_range {A} (data : list A) (pager : Pager.t) :
  (1 <= Pager.currentPage pager)%Z ->
  let pager' := fst (Pager.render data pager) in
  let rows := snd (Pager.render data pager) in
  Pager.itemsPerPage pager' = Pager.itemsPerPage pager
  /\ (1 <= Pager.currentPage pager'
      <= Pager.totalPages (length data) (Pager.itemsPerPage pager))%Z
  /\ (Pager.currentPage pager' <= Pager.currentPage pager)%Z
  /\ (data <> [] -> rows <> [])
  /\ (forall x, In x rows -> In x data)
  /\ match Pager.itemsPerPage pager with
     | Pager.Infinity => rows = data
     | Pager.PerPage n => length rows <= Pos.to_nat n
     end.
Proof.
  intros Hpage pager' rows. subst pager' rows. destruct pager as [page [|n]].
  - unfold Pager.render. cbn [Pager.itemsPerPage Pager.currentPage Pager.totalPages fst snd].
    cbn [Pager.currentPage] in Hpage.
    assert (js_slice data 0 (Z.of_nat (length data)) = data) as ->.
    { change (Z.of_nat (length data)) with (0 + Z.of_nat (length data))%Z.
      rewrite (js_slice_nonneg data 0 (Z.of_nat (length data))) by lia.
      rewrite Nat2Z.id. change (Z.to_nat 0) with 0. rewrite drop_0. now apply take_ge. }
    split; [reflexivity|]. destruct (Z.ltb_spec 1 page); repeat split; auto; lia.
  - cbn [Pager.currentPage] in Hpage.
    set (total := Pager.totalPages (length data) (Pager.PerPage n)).
    set (page' := if (total <? page)%Z then total else page).
    assert (1 <= page' <= total /\ page' <= page)%Z as [Hrange Hdown].
    { unfold page', total. cbn [Pager.totalPages]. destruct (Z.ltb_spec
        (Z.max 1 (Pager.ceil_div (length data) n)) page); lia. }
    assert (fst (Pager.render data {| Pager.currentPage := page;
                                      Pager.itemsPerPage := Pager.PerPage n |})
            = {| Pager.currentPage := page'; Pager.itemsPerPage := Pager.PerPage n |})
      as -> by reflexivity.
    assert (snd (Pager.render data {| Pager.currentPage := page;
                                      Pager.itemsPerPage := Pager.PerPage n |})
            = page_rows data n page') as ->.
    { unfold page_rows, Pager.render.
      cbn [Pager.itemsPerPage Pager.currentPage snd]. fold total. fold page'.
      destruct (Z.ltb_spec total page') as [|_]; [lia|reflexivity]. }
    cbn [Pager.itemsPerPage Pager.currentPage].
    split; [reflexivity|]. split; [exact Hrange|]. split; [exact Hdown|].
    split; [now apply page_rows_nonempty|].
    rewrite page_rows_spec by exact Hrange. split.
    + intros x Hx. apply list_elem_of_In in Hx. apply list_elem_of_In.
      apply elem_of_take in Hx as (i & Hx & _). rewrite lookup_drop in Hx.
      now apply list_elem_of_lookup_2 in Hx.
    + rewrite length_take. lia.
Qed.

(** X23. A change of page never leads to an empty view: [changePage]
    ignores a page below 1 or beyond the last one, leaving the pager as it
    is and drawing nothing; for a page in range it makes that page the
    current one and draws its rows, of which there is at least one whenever
    there is a row at all.  With the size "all" it goes to page 1 and draws
    every row. *)
Theorem changePage_ignores_pages_out_of_range {A} (data : list A) (page : Z)
    (pager : Pager.t) :
  match Pager.itemsPerPage pager with
  | Pager.PerPage n =>
    ((page < 1 \/ Pager.totalPages (length data) (Pager.PerPage n) < page)%Z ->
     Pager.changePage (Some data) page pager = (pager, None))
    /\ ((1 <= page <= Pager.totalPages (length data) (Pager.PerPage n))%Z ->
        Pager.changePage (Some data) page pager
        = ({| Pager.currentPage := page; Pager.itemsPerPage := Pager.PerPage n |},
           Some (page_rows data n page))
        /\ (data <> [] -> page_rows data n page <> []))
  | Pager.Infinity =>
    Pager.changePage (Some data) page pager
    = ({| Pager.currentPage := 1; Pager.itemsPerPage := Pager.Infinity |}, Some data)
  end.
Proof.
  destruct pager as [current [|n]]; cbn [Pager.itemsPerPage].
  - unfold Pager.changePage, Pager.render.
    cbn [Pager.itemsPerPage Pager.currentPage Pager.totalPages].
    change (1 <? 1)%Z with false. cbv iota. do 2 f_equal.
    change (Z.of_nat (length data)) with (0 + Z.of_nat (length data))%Z.
    rewrite (js_slice_nonneg data 0 (Z.of_nat (length data))) by lia.
    rewrite Nat2Z.id. change (Z.to_nat 0) with 0. rewrite drop_0. now apply take_ge.
  - unfold Pager.changePage. cbn [Pager.itemsPerPage Pager.totalPages]. split.
    + intros Hout.
      destruct (Z.ltb_spec page 1); [reflexivity|].
      destruct (Z.ltb_spec (Z.max 1 (Pager.ceil_div (length data) n)) page);
        [reflexivity|lia].
    + intros Hin. split; [|now apply page_rows_nonempty].
      destruct (Z.ltb_spec page 1); [lia|].
      destruct (Z.ltb_spec (Z.max 1 (Pager.ceil_div (length data) n)) page); [lia|].
      cbn [orb]. unfold page_rows.
      destruct (Pager.render data _) as [pager' rows] eqn:Hrender.
      unfold Pager.render in Hrender.
      cbn [Pager.itemsPerPage Pager.currentPage Pager.totalPages] in Hrender.
      destruct (Z.ltb_spec (Z.max 1 (Pager.ceil_div (length data) n)) page); [lia|].
      injection Hrender as <- <-. reflexivity.
Qed.

(** ** Status of a card and the clean-up of exhausted keys *)

Lemma zero_balance_status (item : UsageResult) :
  zero_balance item = true
  <-> truthy_error item = false /\ status_class (card_status item) = status_danger.
Proof.
  unfold zero_balance, card_status, getStatusInfo.
  destruct (truthy_error item); [split; [discriminate|intros [? _]; discriminate]|].
  destruct (le0 _); [now split|].
  destruct (ge_08 _); (split; [discriminate|intros [_ ?]; discriminate]).
Qed.

Lemma zero_balance_text (item : UsageResult) :
  zero_balance item = true <-> status_text (card_status item) = "已用尽".
Proof.
  unfold zero_balance, card_status, getStatusInfo.
  destruct (truthy_error item); [split; discriminate|].
  destruct (le0 _); [now split|].
  destruct (ge_08 _); split; discriminate.
Qed.

Lemma zero_balance_counts (item : UsageResult) :
  zero_balance item = true ->
  exists allowance used,
    is_ok item = true /\ truthy_error item = false
    /\ result_allowance item = Some allowance /\ result_used item = Some used
    /\ (allowance - used <= 0)%Z.
Proof.
  unfold zero_balance. destruct (truthy_error item) eqn:Herror; [discriminate|].
  destruct item as [id key s e used allowance ratio | id key error]; [|discriminate].
  destruct allowance as [a|], used as [u|]; try discriminate. cbn.
  intros Hle. apply Z.leb_le in Hle. now exists a, u.
Qed.

(** X24. The clean-up of the browser takes exactly the cards labelled
    as used up: an entry is among the keys that [clearZeroBalanceKeys]
    deletes if and only if it is listed, has no error and its card has the
    class "status-danger", which is to say that its badge reads "已用尽".
    The card of an entry with an error is drawn with the class
    "status-danger" as well, under the text "错误", but such an entry is
    never taken.  An entry that is taken is a usage entry and never one
    that the server logs as having balance left; and a usage entry that
    carries both numbers is in exactly one of the two groups. *)
Theorem clean_up_takes_the_exhausted_keys (data : list UsageResult) (item : UsageResult) :
  (In item (zeroBalanceKeys data)
   <-> In item data /\ truthy_error item = false
       /\ status_class (card_status item) = status_danger)
  /\ (In item (zeroBalanceKeys data)
      <-> In item data /\ status_text (card_status item) = "已用尽")
  /\ (truthy_error item = true ->
      card_status item = {| status_class := status_danger; status_text := "错误" |}
      /\ ~ In item (zeroBalanceKeys data))
  /\ (In item (zeroBalanceKeys data) ->
      is_ok item = true /\ ~ In item (keysWithBalance data))
  /\ (In item data -> is_ok item = true -> well_formed item = true ->
      In item (zeroBalanceKeys data) \/ In item (keysWithBalance data)).
Proof.
  unfold zeroBalanceKeys, keysWithBalance, validResults.
  split; [|split; [|split; [|split]]].
  - rewrite List.filter_In, zero_balance_status. tauto.
  - rewrite List.filter_In, zero_balance_text. tauto.
  - intros Herror. split; [unfold card_status; now rewrite Herror|].
    rewrite List.filter_In, zero_balance_status. rewrite Herror.
    intros (_ & Hno & _). discriminate.
  - rewrite List.filter_In. intros [_ Hzero].
    destruct (zero_balance_counts item Hzero) as (a & u & Hok & _ & Ha & Hu & Hle).
    split; [exact Hok|]. rewrite List.filter_In. intros [_ Hbalance].
    unfold has_balance in Hbalance. rewrite Ha, Hu in Hbalance. cbn in Hbalance.
    apply Z.ltb_lt in Hbalance. lia.
  - intros Hin Hok Hwf.
    destruct item as [id key s e used allowance ratio | id key error]; [|discriminate].
    destruct allowance as [a|], used as [u|]; try discriminate.
    rewrite !List.filter_In. unfold zero_balance, has_balance. cbn.
    destruct (Z.leb_spec (a - u) 0) as [Hle|Hgt].
    + left. now split.
    + right. split; [now split|]. now apply Z.ltb_lt.
Qed.

(** ** The overall usage ratio *)

Lemma sumZ_cons (x : Z) (l : list Z) : sumZ (x :: l) = (x + sumZ l)%Z.
Proof. reflexivity. Qed.

Lemma capped_use_sum (l : list UsageResult) :
  (sumZ (map (fun r => or0 (result_allowance r)) l)
   - sumZ (map (fun r => Z.max (or0 (result_allowance r) - or0 (result_used r)) 0) l)
   = sumZ (map (fun r => Z.min (or0 (result_used r)) (or0 (result_allowance r))) l))%Z.
Proof. induction l as [|r l IH]; [reflexivity|]. cbn [map]. rewrite !sumZ_cons. lia. Qed.

Lemma capped_use_bounds (l : list UsageResult) :
  (sumZ (map (fun r => Z.min (or0 (result_used r)) (or0 (result_allowance r))) l)
   <= sumZ (map (fun r => or0 (result_allowance r)) l))%Z
  /\ (List.Forall (fun r => 0 <= or0 (result_used r) /\ 0 <= or0 (result_allowance r))%Z l ->
      0 <= sumZ (map (fun r => Z.min (or0 (result_used r)) (or0 (result_allowance r))) l))%Z.
Proof.
  split.
  - induction l as [|r l IH]; [reflexivity|]. cbn [map]. rewrite !sumZ_cons. lia.
  - induction 1 as [|r l Hr _ IH]; [reflexivity|]. cbn [map]. rewrite !sumZ_cons. lia.
Qed.

(** X25. The overall usage ratio that the page shows counts each key
    up to its allowance: when every usage entry carries both numbers and
    the allowances add up to a positive total, [overallRatio] is the sum of
    [min(used, allowance)] over the usage entries divided by the sum of the
    allowances.  So it never exceeds 1, however far single keys are
    overdrawn, and it is not negative when no count is; with a total
    allowance of 0 or less it is 0. *)
Theorem overall_ratio_caps_each_key (results : list UsageResult) :
  List.Forall (fun r => well_formed r = true) results ->
  match total_totalAllowance (compute_totals results) with
  | Zpos allowance =>
    overallRatio (compute_totals results) = Qmake (capped_use results) allowance
    /\ (capped_use results <= Zpos allowance)%Z
    /\ (List.Forall (fun r => 0 <= or0 (result_used r) /\ 0 <= or0 (result_allowance r))%Z
                    results ->
        0 <= capped_use results)%Z
  | _ => overallRatio (compute_totals results) = Qmake 0 1
  end.
Proof.
  intros Hwf. destruct (valid_well_formed results Hwf) as [Hvalid Hcounts].
  unfold compute_totals. rewrite fold_totals_step, Hvalid.
  unfold AggregatorSpec.ok_results in *.
  cbn [totals_init total_totalAllowance total_tokensRemaining total_orgTotalTokensUsed].
  rewrite fold_remaining by exact Hcounts.
  unfold overallRatio. cbn [total_totalAllowance total_tokensRemaining].
  rewrite !Z.add_0_l.
  pose proof (capped_use_sum (List.filter is_ok results)) as Hsum.
  destruct (capped_use_bounds (List.filter is_ok results)) as [Hle Hpos].
  fold (capped_use results) in Hsum, Hle, Hpos.
  destruct (sumZ (map (fun r => or0 (result_allowance r)) (List.filter is_ok results)))
    as [|allowance|allowance] eqn:Htotal; try reflexivity.
  split; [now rewrite Hsum|]. split; [exact Hle|].
  intros Hnonneg. apply Hpos. apply List.Forall_forall. intros r Hr.
  apply List.filter_In in Hr as [Hr _]. revert r Hr. now apply List.Forall_forall.
Qed.

(** ** Selection of rows *)

(** X26. Ticking a row twice leaves the selection as it was, and
    after one tick the row is selected exactly if it was not before.
    "Select all" selects every row, or clears the selection when every row
    is selected already, as long as the rows have distinct ids and only
    ids of rows are selected. *)
Theorem selection_toggles (id : string) (allIds : list string) (selectedKeys : gset string) :
  toggleSelection id (toggleSelection id selectedKeys) = selectedKeys
  /\ (id ∈ toggleSelection id selectedKeys <-> id ∉ selectedKeys)
  /\ (List.NoDup allIds -> selectedKeys ⊆ list_to_set allIds ->
      toggleSelectAll allIds selectedKeys
      = if decide (selectedKeys = list_to_set allIds) then ∅ else list_to_set allIds).
Proof.
  split; [|split].
  - unfold toggleSelection. destruct (decide (id ∈ selectedKeys)) as [Hin|Hout].
    + destruct (decide (id ∈ selectedKeys ∖ {[id]})) as [Hin'|_].
      * apply elem_of_difference in Hin' as [_ Hne]. exfalso. apply Hne.
        now apply elem_of_singleton.
      * apply set_eq. intros x. rewrite elem_of_union, elem_of_difference, elem_of_singleton.
        destruct (decide (x = id)) as [->|]; tauto.
    + destruct (decide (id ∈ {[id]} ∪ selectedKeys)) as [_|Hout'].
      * apply set_eq. intros x. rewrite elem_of_difference, elem_of_union, elem_of_singleton.
        destruct (decide (x = id)) as [->|]; tauto.
      * exfalso. apply Hout'. apply elem_of_union_l. now apply elem_of_singleton.
  - unfold toggleSelection. destruct (decide (id ∈ selectedKeys)) as [Hin|Hout].
    + rewrite elem_of_difference, elem_of_singleton. tauto.
    + rewrite elem_of_union, elem_of_singleton. tauto.
  - intros Hnodup Hsub. unfold toggleSelectAll.
    assert (size (list_to_set allIds : gset string) = length allIds) as Hsize.
    { apply size_list_to_set. now apply NoDup_ListNoDup. }
    destruct (decide (size selectedKeys = length allIds)) as [Heq|Hne].
    + rewrite decide_True; [reflexivity|].
      apply set_subseteq_size_eq; [exact Hsub|]. lia.
    + rewrite decide_False by (intros ->; lia).
      apply set_eq. intros x. rewrite elem_of_union. split; [|tauto].
      intros [Hx|Hx]; [exact Hx|now apply Hsub].
Qed.


(** ** The statements at sample inputs *)

Lemma saveApiKey_then_getApiKey_witness :
  "key-1" <> "key-9"
  /\ fst (Server.getApiKey "key-1" ServerSamples.unlocked
            (snd (Server.saveApiKey "key-9" "fk-new" None ServerSamples.unlocked
                    ServerSamples.two_keys)))
     = Normal (Some (Samples.entry "key-1" Samples.key_a)).
Proof.
  assert ("key-1" <> "key-9") as Hne by discriminate. split; [exact Hne|].
  destruct (saveApiKey_then_getApiKey "key-9" "fk-new" None ServerSamples.unlocked
              ServerSamples.two_keys) as (s' & Hrun & _ & Hothers).
  rewrite Hrun. exact (Hothers "key-1" Hne).
Defined.

Lemma deleteApiKey_then_getApiKey_witness :
  "key-1" <> "key-2"
  /\ fst (Server.getApiKey "key-1" ServerSamples.unlocked
            (snd (Server.deleteApiKey "key-2" ServerSamples.unlocked ServerSamples.two_keys)))
     = Normal (Some (Samples.entry "key-1" Samples.key_a)).
Proof.
  assert ("key-1" <> "key-2") as Hne by discriminate. split; [exact Hne|].
  destruct (deleteApiKey_then_getApiKey "key-2" ServerSamples.unlocked ServerSamples.two_keys)
    as (s' & Hrun & _ & Hothers).
  rewrite Hrun. exact (Hothers "key-1" Hne).
Defined.

Lemma handler_keeps_store_ordered_witness :
  ordered (store_of ServerSamples.two_keys)
  /\ List.NoDup
       (map ApiKeyEntry.id
          (store_of (snd (Handler.handler
                            (ServerSamples.request "POST" "/api/keys" None
                               (ServerSamples.add_body "fk-new"))
                            ServerSamples.unlocked ServerSamples.two_keys)))).
Proof.
  assert (ordered (store_of ServerSamples.two_keys)) as Hordered
    by (repeat constructor).
  split; [exact Hordered|].
  exact (proj1 (proj2 (handler_keeps_store_ordered _ ServerSamples.unlocked _ Hordered))).
Defined.

Lemma batchImportKeys_accounts_for_every_key_witness :
  never_rejects ServerSamples.unlocked
  /\ exists result s',
       Server.batchImportKeys ServerSamples.batch ServerSamples.unlocked ServerSamples.two_keys
       = (Normal result, s')
       /\ Server.ImportCounts.success result + Server.ImportCounts.duplicates result = 4
       /\ Server.ImportCounts.failed result = 0.
Proof.
  assert (never_rejects ServerSamples.unlocked) as Hnever by (intros n; reflexivity).
  split; [exact Hnever|].
  destruct (batchImportKeys_accounts_for_every_key ServerSamples.batch ServerSamples.unlocked
              ServerSamples.two_keys) as (result & s' & Hrun & Hsum & _ & Hfailed).
  exists result, s'. split; [exact Hrun|]. specialize (Hfailed Hnever).
  split; [|exact Hfailed]. rewrite Hfailed in Hsum.
  rewrite Nat.add_0_r in Hsum. exact Hsum.
Defined.


Lemma batchImportKeys_stores_every_new_key_witness :
  never_rejects ServerSamples.unlocked
  /\ no_import_id ServerSamples.unlocked 0 0 (store_of ServerSamples.no_keys)
  /\ exists result s',
       Server.batchImportKeys ServerSamples.batch ServerSamples.unlocked ServerSamples.no_keys
       = (Normal result, s')
       /\ length (store_of s') = Server.ImportCounts.success result.
Proof.
  assert (never_rejects ServerSamples.unlocked) as Hnever by (intros n; reflexivity).
  assert (no_import_id ServerSamples.unlocked 0 0 (store_of ServerSamples.no_keys)) as Hfresh
    by (intros e n j []).
  split; [exact Hnever|]. split; [exact Hfresh|].
  destruct (batchImportKeys_stores_every_new_key ServerSamples.batch ServerSamples.unlocked
              ServerSamples.no_keys Hnever Hfresh)
    as (result & s' & Hrun & _ & _ & _ & Hlength).
  exists result, s'. split; [exact Hrun|exact Hlength].
Defined.

Lemma batchDeleteKeys_removes_listed_ids_witness :
  never_rejects ServerSamples.unlocked
  /\ exists result s',
       Server.batchDeleteKeys ["key-2"; "key-7"; "key-2"] ServerSamples.unlocked
         ServerSamples.two_keys = (Normal result, s')
       /\ Server.DeleteCounts.success result = 3.
Proof.
  assert (never_rejects ServerSamples.unlocked) as Hnever by (intros n; reflexivity).
  split; [exact Hnever|].
  destruct (batchDeleteKeys_removes_listed_ids ["key-2"; "key-7"; "key-2"]
              ServerSamples.unlocked ServerSamples.two_keys)
    as (result & s' & Hrun & _ & _ & _ & Hall).
  exists result, s'. split; [exact Hrun|]. exact (proj1 (Hall Hnever)).
Defined.

Lemma session_valid_for_seven_days_witness :
  Server.kv_write_error ServerSamples.locked (3 + Server.tick ServerSamples.two_keys) = None
  /\ exists sessionId s1,
       Server.createSession ServerSamples.locked ServerSamples.two_keys
       = (Normal sessionId, s1)
       /\ fst (Server.validateSession sessionId ServerSamples.locked s1) = Normal true.
Proof.
  split; [reflexivity|].
  destruct (session_valid_for_seven_days ServerSamples.locked ServerSamples.two_keys eq_refl)
    as (sessionId & s1 & Hrun & _ & Hvalid).
  exists sessionId, s1. split; [exact Hrun|]. apply (Hvalid s1 eq_refl).
  rewrite createSession_run in Hrun. injection Hrun as _ <-. cbn. lia.
Defined.

Lemma expired_session_is_deleted_witness :
  Server.sessions ServerSamples.with_sessions !! "old" = Some ServerSamples.old_session
  /\ (Session.expiresAt ServerSamples.old_session
      < Server.clock ServerSamples.locked (Server.tick ServerSamples.with_sessions))%Z
  /\ Server.kv_write_error ServerSamples.locked (1 + Server.tick ServerSamples.with_sessions)
     = None
  /\ exists s',
       Server.validateSession "old" ServerSamples.locked ServerSamples.with_sessions
       = (Normal false, s')
       /\ Server.sessions s' = delete "old" (Server.sessions ServerSamples.with_sessions).
Proof.
  assert (Server.sessions ServerSamples.with_sessions !! "old"
          = Some ServerSamples.old_session) as Hstored by reflexivity.
  assert (Session.expiresAt ServerSamples.old_session
          < Server.clock ServerSamples.locked (Server.tick ServerSamples.with_sessions))%Z
    as Hexpired by reflexivity.
  split; [exact Hstored|]. split; [exact Hexpired|]. split; [reflexivity|].
  destruct (proj2 (expired_session_is_deleted "old" ServerSamples.old_session
                     ServerSamples.locked ServerSamples.with_sessions)
              Hstored Hexpired eq_refl) as (s' & Hrun & Hsessions & _).
  exists s'. split; [exact Hrun|exact Hsessions].
Defined.

Lemma handler_rejects_without_session_witness :
  Server.truthy (Server.ADMIN_PASSWORD ServerSamples.locked) = true
  /\ behind_gate (ServerSamples.request "DELETE" "/api/keys/key-1" (Some "old")
                    ServerSamples.no_body) = true
  /\ valid_session ServerSamples.locked ServerSamples.with_sessions
       (ServerSamples.request "DELETE" "/api/keys/key-1" (Some "old") ServerSamples.no_body)
     = false
  /\ exists completion s',
       Handler.handler
         (ServerSamples.request "DELETE" "/api/keys/key-1" (Some "old") ServerSamples.no_body)
         ServerSamples.locked ServerSamples.with_sessions = (completion, s')
       /\ Server.effects s' = Server.effects ServerSamples.with_sessions.
Proof.
  split; [reflexivity|]. split; [reflexivity|]. split; [reflexivity|].
  destruct (handler_rejects_without_session
              (ServerSamples.request "DELETE" "/api/keys/key-1" (Some "old")
                 ServerSamples.no_body)
              ServerSamples.locked ServerSamples.with_sessions eq_refl eq_refl eq_refl)
    as (completion & s' & Hrun & _ & Heffects & _).
  exists completion, s'. split; [exact Hrun|exact Heffects].
Defined.

Lemma page_needs_session_witness :
  "GET" <> "OPTIONS"
  /\ authorized ServerSamples.locked ServerSamples.with_sessions
       (ServerSamples.request "GET" "/" (Some "old") ServerSamples.no_body) = false
  /\ exists s',
       Handler.handler (ServerSamples.request "GET" "/" (Some "old") ServerSamples.no_body)
         ServerSamples.locked ServerSamples.with_sessions
       = (Normal {| HttpResponse.status := 200; HttpResponse.body := LOGIN_PAGE;
                    HttpResponse.session_cookie := None |}, s').
Proof.
  assert ("GET" <> "OPTIONS") as Hmethod by discriminate.
  split; [exact Hmethod|]. split; [reflexivity|].
  destruct (proj2 (page_needs_session
                     (ServerSamples.request "GET" "/" (Some "old") ServerSamples.no_body)
                     ServerSamples.locked ServerSamples.with_sessions Hmethod eq_refl)
              eq_refl eq_refl) as (s' & Hrun & _).
  exists s'. exact Hrun.
Defined.

Lemma login_needs_the_password_witness :
  RequestBody.password (ServerSamples.login_body "hunter")
  <> Server.ADMIN_PASSWORD ServerSamples.locked
  /\ Handler.handler
       (ServerSamples.request "POST" "/api/login" None (ServerSamples.login_body "hunter"))
       ServerSamples.locked ServerSamples.two_keys
     = (Normal {| HttpResponse.status := 401;
                  HttpResponse.body := ErrorJson (Some "Invalid password");
                  HttpResponse.session_cookie := None |}, ServerSamples.two_keys).
Proof.
  assert (RequestBody.password (ServerSamples.login_body "hunter")
          <> Server.ADMIN_PASSWORD ServerSamples.locked) as Hwrong by discriminate.
  split; [exact Hwrong|].
  exact (proj1 (login_needs_the_password
                  (ServerSamples.request "POST" "/api/login" None
                     (ServerSamples.login_body "hunter"))
                  (ServerSamples.login_body "hunter") ServerSamples.locked
                  ServerSamples.two_keys eq_refl eq_refl eq_refl) Hwrong).
Defined.

Lemma key_listing_is_masked_witness :
  authorized ServerSamples.locked ServerSamples.with_sessions
    (ServerSamples.request "GET" "/api/keys" (Some "new") ServerSamples.no_body) = true
  /\ fst (Handler.handler
            (ServerSamples.request "GET" "/api/keys" (Some "new") ServerSamples.no_body)
            ServerSamples.locked ServerSamples.with_sessions)
     = Normal {| HttpResponse.status := 200;
                 HttpResponse.body :=
                   SafeKeysJson
                     (map Handler.safeKey (store_of ServerSamples.with_sessions));
                 HttpResponse.session_cookie := None |}.
Proof.
  split; [reflexivity|].
  exact (f_equal fst
           (proj1 (key_listing_is_masked
                     (ServerSamples.request "GET" "/api/keys" (Some "new")
                        ServerSamples.no_body)
                     ServerSamples.locked ServerSamples.with_sessions
                     eq_refl eq_refl eq_refl))).
Defined.

Lemma added_key_is_read_back_witness :
  "fk-new" <> ""
  /\ exists id s1,
       Handler.handler
         (ServerSamples.request "POST" "/api/keys" None (ServerSamples.add_body "fk-new"))
         ServerSamples.unlocked ServerSamples.two_keys
       = (Normal {| HttpResponse.status := 200; HttpResponse.body := AddedJson id;
                    HttpResponse.session_cookie := None |}, s1)
       /\ fst (Handler.handler
                 (ServerSamples.request "GET" ("/api/keys/" ++ id ++ "/full") None
                    ServerSamples.no_body)
                 ServerSamples.unlocked s1)
          = Normal {| HttpResponse.status := 200; HttpResponse.body := FullKeyJson id "fk-new";
                      HttpResponse.session_cookie := None |}.
Proof.
  assert ("fk-new" <> "") as Hkey by discriminate. split; [exact Hkey|].
  destruct (added_key_is_read_back
              (ServerSamples.request "POST" "/api/keys" None (ServerSamples.add_body "fk-new"))
              (ServerSamples.add_body "fk-new") "fk-new"
              ServerSamples.unlocked ServerSamples.two_keys
              eq_refl eq_refl eq_refl eq_refl Hkey eq_refl eq_refl)
    as (id & s1 & Hrun & _ & _ & Hfull).
  exists id, s1. split; [exact Hrun|]. apply Hfull; reflexivity.
Defined.

Lemma delete_route_removes_the_id_witness :
  occurs "/" "key-7" = false
  /\ exists response s',
       Handler.handler
         (ServerSamples.request "DELETE" "/api/keys/key-7" None ServerSamples.no_body)
         ServerSamples.unlocked ServerSamples.two_keys = (Normal response, s')
       /\ HttpResponse.status response = 200
       /\ store_of s' = store_of ServerSamples.two_keys.
Proof.
  split; [reflexivity|].
  destruct (delete_route_removes_the_id
              (ServerSamples.request "DELETE" "/api/keys/key-7" None ServerSamples.no_body)
              "key-7" ServerSamples.unlocked ServerSamples.two_keys
              eq_refl eq_refl eq_refl eq_refl eq_refl)
    as (response & s' & Hrun & Hstatus & _ & Hstore).
  exists response, s'. split; [exact Hrun|]. split; [exact Hstatus|].
  rewrite Hstore. reflexivity.
Defined.

Lemma data_route_answers_witness :
  "POST" <> "OPTIONS"
  /\ exists response s',
       Handler.handler
         (ServerSamples.request "POST" "/api/data" None ServerSamples.no_body)
         ServerSamples.unlocked ServerSamples.no_keys = (Normal response, s')
       /\ HttpResponse.status response = 500.
Proof.
  assert ("POST" <> "OPTIONS") as Hmethod by discriminate. split; [exact Hmethod|].
  destruct (data_route_answers
              (ServerSamples.request "POST" "/api/data" None ServerSamples.no_body)
              ServerSamples.unlocked ServerSamples.no_keys Hmethod eq_refl eq_refl)
    as (response & s' & Hrun & _ & Hresponse & _).
  exists response, s'. split; [exact Hrun|]. rewrite Hresponse. reflexivity.
Defined.

Lemma failures_become_responses_witness :
  throws_objects ServerSamples.read_only
    (ServerSamples.request "POST" "/api/keys" None (ServerSamples.add_body "fk-new"))
  /\ exists response s',
       Handler.routes
         (ServerSamples.request "POST" "/api/keys" None (ServerSamples.add_body "fk-new"))
         ServerSamples.read_only ServerSamples.two_keys = (Normal response, s').
Proof.
  assert (throws_objects ServerSamples.read_only
            (ServerSamples.request "POST" "/api/keys" None (ServerSamples.add_body "fk-new")))
    as Hthrows.
  { split; [intros n error [= <-]|intros error]; discriminate. }
  split; [exact Hthrows|].
  exact (proj1 (failures_become_responses _ _ ServerSamples.two_keys Hthrows)).
Defined.

Lemma cached_key_expires_witness :
  (KeyCache.maxAge ServerSamples.empty_cache < 1762300000000 - 1762128000000)%Z
  /\ fst (KeyCache.get "key-1" 1762128000001
            (snd (KeyCache.get "key-1" 1762300000000
                    (KeyCache.set "key-1" Samples.key_a 1762128000000
                       ServerSamples.empty_cache))))
     = None.
Proof.
  assert (KeyCache.maxAge ServerSamples.empty_cache < 1762300000000 - 1762128000000)%Z
    as Hold by reflexivity.
  split; [exact Hold|].
  exact (proj1 (proj2 (cached_key_expires "key-1" Samples.key_a 1762128000000 1762300000000
                         ServerSamples.empty_cache)) Hold 1762128000001%Z).
Defined.

Lemma cache_survives_reload_witness :
  KeyCache.quota_error ServerSamples.empty_cache = None
  /\ KeyCache.cache
       (KeyCache.constructor None 1762128003600
          (KeyCache.set "key-1" Samples.key_a 1762128000000 ServerSamples.empty_cache))
     !! "key-1"
     = Some {| KeyCache.Item.key := Samples.key_a; KeyCache.Item.timestamp := 1762128000000 |}.
Proof.
  split; [reflexivity|].
  exact (proj1 (proj2 (cache_survives_reload "key-1" Samples.key_a 1762128000000
                         1762128003600 None ServerSamples.empty_cache)) eq_refl).
Defined.

Lemma deleted_key_stays_in_storage_witness :
  "key-1" ∈ ["key-1"; "key-2"]
  /\ KeyCache.quota_error ServerSamples.empty_cache = None
  /\ (1762128003600 - 1762128000000 < 86400000)%Z
  /\ KeyCache.cache
       (KeyCache.constructor None 1762128003600
          (forget ["key-1"; "key-2"]
             (KeyCache.set "key-1" Samples.key_a 1762128000000 ServerSamples.empty_cache)))
     !! "key-1"
     = Some {| KeyCache.Item.key := Samples.key_a; KeyCache.Item.timestamp := 1762128000000 |}.
Proof.
  assert ("key-1" ∈ ["key-1"; "key-2"]) as Hin by now left.
  split; [exact Hin|]. split; [reflexivity|]. split; [reflexivity|].
  exact (proj2 (deleted_key_stays_in_storage "key-1" Samples.key_a ["key-1"; "key-2"]
                  1762128000000 1762128003600 0 None ServerSamples.empty_cache Hin)
           eq_refl eq_refl).
Defined.

Lemma render_stays_in_range_witness :
  (1 <= 9)%Z
  /\ (1 <= Pager.currentPage
             (fst (Pager.render [1; 2; 3; 4; 5; 6; 7]
                     {| Pager.currentPage := 9; Pager.itemsPerPage := Pager.PerPage 3 |}))
      <= 3)%Z.
Proof.
  assert (1 <= 9)%Z as Hpage by lia. split; [exact Hpage|].
  exact (proj1 (proj2 (render_stays_in_range [1; 2; 3; 4; 5; 6; 7]
                         {| Pager.currentPage := 9; Pager.itemsPerPage := Pager.PerPage 3 |}
                         Hpage))).
Defined.

Lemma changePage_ignores_pages_out_of_range_witness :
  (4 < 1 \/ Pager.totalPages (length [1; 2; 3; 4; 5; 6; 7]) (Pager.PerPage 3) < 4)%Z
  /\ Pager.changePage (Some [1; 2; 3; 4; 5; 6; 7]) 4
       {| Pager.currentPage := 2; Pager.itemsPerPage := Pager.PerPage 3 |}
     = ({| Pager.currentPage := 2; Pager.itemsPerPage := Pager.PerPage 3 |}, None).
Proof.
  assert (4 < 1 \/ Pager.totalPages (length [1; 2; 3; 4; 5; 6; 7]) (Pager.PerPage 3) < 4)%Z
    as Hout by (right; reflexivity).
  split; [exact Hout|].
  exact (proj1 (changePage_ignores_pages_out_of_range [1; 2; 3; 4; 5; 6; 7] 4
                  {| Pager.currentPage := 2; Pager.itemsPerPage := Pager.PerPage 3 |})
           Hout).
Defined.

Lemma clean_up_takes_the_exhausted_keys_witness :
  truthy_error (ErrEntry "key-4" "fk-D..." "HTTP 401") = true
  /\ In (ErrEntry "key-4" "fk-D..." "HTTP 401") Samples.clamped_results
  /\ status_class (card_status (ErrEntry "key-4" "fk-D..." "HTTP 401")) = status_danger
  /\ ~ In (ErrEntry "key-4" "fk-D..." "HTTP 401") (zeroBalanceKeys Samples.clamped_results).
Proof.
  assert (truthy_error (ErrEntry "key-4" "fk-D..." "HTTP 401") = true) as Herror
    by reflexivity.
  split; [exact Herror|]. split; [right; right; now left|].
  destruct (proj1 (proj2 (proj2 (clean_up_takes_the_exhausted_keys Samples.clamped_results
                                   (ErrEntry "key-4" "fk-D..." "HTTP 401")))) Herror)
    as [Hcard Hout].
  split; [now rewrite Hcard|exact Hout].
Defined.

Lemma overall_ratio_caps_each_key_witness :
  List.Forall (fun r => well_formed r = true) Samples.clamped_results
  /\ overallRatio (compute_totals Samples.clamped_results) = Qmake 200 250.
Proof.
  assert (List.Forall (fun r => well_formed r = true) Samples.clamped_results) as Hwf
    by (repeat constructor).
  split; [exact Hwf|].
  exact (proj1 (overall_ratio_caps_each_key Samples.clamped_results Hwf)).
Defined.

Lemma selection_toggles_witness :
  List.NoDup ["key-1"; "key-2"]
  /\ ({["key-1"]} : gset string) ⊆ list_to_set ["key-1"; "key-2"]
  /\ toggleSelectAll ["key-1"; "key-2"] {["key-1"]} = list_to_set ["key-1"; "key-2"].
Proof.
  assert (List.NoDup ["key-1"; "key-2"]) as Hdistinct.
  { repeat constructor; simpl; intuition discriminate. }
  assert (({["key-1"]} : gset string) ⊆ list_to_set ["key-1"; "key-2"]) as Hsub.
  { intros x Hx. apply elem_of_singleton in Hx as ->.
    apply elem_of_list_to_set. now left. }
  split; [exact Hdistinct|]. split; [exact Hsub|].
  rewrite (proj2 (proj2 (selection_toggles "key-1" ["key-1"; "key-2"] {["key-1"]}))
             Hdistinct Hsub).
  apply decide_False. intros Heq.
  assert ("key-2" ∈ ({["key-1"]} : gset string)) as Hin.
  { rewrite Heq. apply elem_of_list_to_set. right. now left. }
  apply elem_of_singleton in Hin. discriminate Hin.
Defined.

Local Close Scope string_scope.

(** ** Arrays with holes *)

Lemma lookup_map {A B} (f : A -> B) (l : list A) (i : nat) :
  map f l !! i = f <$> l !! i.
Proof.
  revert i; induction l as [|x l IH]; intros i; [reflexivity|].
  destruct i as [|i]; [reflexivity | apply IH].
Qed.

Lemma array_get_Some {A} (a : list (option A)) (i : nat) (x : A) :
  array_get a i = Some x <-> a !! i = Some (Some x).
Proof.
  unfold array_get. destruct (a !! i) as [[y|]|]; split; intros H; congruence.
Qed.

Lemma array_get_beyond {A} (a : list (option A)) (i : nat) :
  length a <= i -> array_get a i = None.
Proof. intros H. unfold array_get. now rewrite lookup_ge_None_2. Qed.

Lemma array_get_set_eq {A} (a : list (option A)) (i : nat) (x : A) :
  array_get (array_set a i x) i = Some x.
Proof.
  unfold array_set, array_get. destruct (decide (i < length a)) as [Hlt | Hge].
  - now rewrite list_lookup_insert_eq.
  - rewrite lookup_app_r by lia. rewrite lookup_app_r by (rewrite length_replicate; lia).
    rewrite length_replicate. now replace (i - length a - (i - length a)) with 0 by lia.
Qed.

Lemma array_get_set_ne {A} (a : list (option A)) (i j : nat) (x : A) :
  i <> j -> array_get (array_set a i x) j = array_get a j.
Proof.
  intros Hne. unfold array_set, array_get. destruct (decide (i < length a)) as [Hlt | Hge].
  - now rewrite list_lookup_insert_ne.
  - destruct (decide (j < length a)) as [Hj | Hj].
    + now rewrite lookup_app_l.
    + rewrite (lookup_ge_None_2 a j) by lia. rewrite lookup_app_r by lia.
      destruct (decide (j - length a < i - length a)) as [Hin | Hout].
      * rewrite lookup_app_l by (rewrite length_replicate; lia).
        now rewrite lookup_replicate_2.
      * rewrite lookup_app_r by (rewrite length_replicate; lia).
        rewrite length_replicate. rewrite lookup_ge_None_2; [reflexivity | simpl; lia].
Qed.

Lemma length_array_set {A} (a : list (option A)) (i : nat) (x : A) :
  length (array_set a i x) = Nat.max (length a) (S i).
Proof.
  unfold array_set. destruct (decide (i < length a)).
  - rewrite length_insert. lia.
  - rewrite !length_app, length_replicate. simpl. lia.
Qed.

(** ** Counting active tasks *)

Lemma active_app (events1 events2 : list Event) :
  active (events1 ++ events2) = (active events1 + active events2)%Z.
Proof.
  unfold active. induction events1 as [|e events1 IH]; simpl; [reflexivity|].
  rewrite IH. lia.
Qed.

Lemma active_single (e : Event) : active [e] = delta e.
Proof. unfold active; simpl. lia. Qed.

Lemma peak_from_app (current : Z) (events1 events2 : list Event) :
  peak_from current (events1 ++ events2) =
  Z.max (peak_from current events1) (peak_from (current + active events1) events2).
Proof.
  revert current; induction events1 as [|e events1 IH]; intros current; simpl.
  - rewrite Z.add_0_r. destruct events2; simpl; lia.
  - rewrite IH. unfold active at 2; simpl. fold (active events1).
    replace (current + delta e + active events1)%Z
      with (current + (delta e + active events1))%Z by lia. lia.
Qed.

Lemma peak_from_last (current : Z) (events : list Event) :
  (current + active events <= peak_from current events)%Z.
Proof.
  revert current; induction events as [|e events IH]; intros current.
  - unfold active; simpl. lia.
  - specialize (IH (current + delta e)%Z). unfold active in *; simpl in *. lia.
Qed.

Lemma peak_snoc (events : list Event) (e : Event) :
  peak (events ++ [e]) = Z.max (peak events) (active (events ++ [e])).
Proof.
  unfold peak. rewrite peak_from_app, active_app. simpl.
  pose proof (peak_from_last 0 events).
  lia.
Qed.

Lemma active_starts (first n : nat) :
  active (map Start (seq first n)) = Z.of_nat n.
Proof.
  revert first; induction n as [|n IH]; intros first; [reflexivity|].
  simpl seq. simpl map. unfold active in *. simpl. rewrite IH. lia.
Qed.

Lemma peak_from_starts (current : Z) (first n : nat) :
  peak_from current (map Start (seq first n)) = (current + Z.of_nat n)%Z.
Proof.
  revert current first; induction n as [|n IH]; intros current first.
  - simpl. lia.
  - simpl seq. simpl map. simpl peak_from. rewrite IH. simpl delta. lia.
Qed.

Lemma peak_from_finishes (current : Z) (completion : list nat) :
  peak_from current (map Finish completion) = current.
Proof.
  revert current; induction completion as [|i completion IH]; intros current; [reflexivity|].
  simpl. rewrite IH. lia.
Qed.

(** ** The task runner *)

Import ConcurrentTaskRunner RunInvariant.

Section RunnerFacts.
Context {T : Type}.
Implicit Types (s : State T) (tasks : list (Settlement T)) (this : t).
Implicit Types (workers : list Worker) (worker : Worker).

Lemma busy_le workers : busy workers <= length workers.
Proof. unfold busy. apply filter_length_le. Qed.

Lemma busy_insert workers w old new :
  workers !! w = Some old ->
  busy (<[w := new]> workers) + (if is_awaiting old then 1 else 0)
  = busy workers + (if is_awaiting new then 1 else 0).
Proof.
  unfold busy. revert w; induction workers as [|worker workers IH]; intros w Hw;
    [discriminate|].
  destruct w as [|w]; simpl in *.
  - injection Hw as ->. destruct (is_awaiting old), (is_awaiting new); simpl; lia.
  - specialize (IH w Hw). destruct (is_awaiting worker); simpl; lia.
Qed.

Lemma busy_awaiting (first n : nat) :
  busy (map (fun i => Awaiting i false) (seq first n)) = n.
Proof.
  unfold busy. revert first; induction n as [|n IH]; intros first; [reflexivity|].
  simpl. now rewrite IH.
Qed.

Lemma quiescent_no_awaits s :
  quiescent s = true <-> forall i, ~ awaits (workers s) i.
Proof.
  unfold quiescent, awaits. rewrite forallb_forall. split.
  - intros Hall i (w & threw & Hw).
    specialize (Hall (Awaiting i threw)). simpl in Hall.
    assert (In (Awaiting i threw) (workers s)) as Hin
      by (apply list_elem_of_In, list_elem_of_lookup; eauto).
    specialize (Hall Hin). discriminate.
  - intros Hnone worker Hin. destruct worker as [i threw | threw]; [| reflexivity].
    apply list_elem_of_In, list_elem_of_lookup in Hin as [w Hw].
    exfalso. apply (Hnone i). eauto.
Qed.

Lemma quiescent_busy s : quiescent s = true <-> busy (workers s) = 0.
Proof.
  unfold quiescent, busy. induction (workers s) as [|worker workers IH]; simpl.
  - split; reflexivity.
  - destruct (is_awaiting worker); simpl.
    + split; intros H; discriminate.
    + exact IH.
Qed.

(** *** The state when [run] reaches [await Promise.all(workers)] *)

Lemma spawn_spec tasks n s :
  index s + n <= length tasks ->
  spawn tasks n s =
  {| results := results s;
     index := index s + n;
     this_running := this_running s + Z.of_nat n;
     workers := workers s ++ map (fun i => Awaiting i false) (seq (index s) n);
     events := events s ++ map Start (seq (index s) n) |}.
Proof.
  revert s; induction n as [|n IH]; intros s Hn.
  - simpl. rewrite Nat.add_0_r, Z.add_0_r, !app_nil_r. now destruct s.
  - simpl. unfold executeNext. destruct (decide (length tasks <= index s)); [lia|].
    rewrite IH by (simpl; lia). simpl. f_equal; try lia.
    + now rewrite <- app_assoc.
    + now rewrite <- app_assoc.
Qed.

Lemma run_begin_spec this tasks :
  run_begin this tasks =
  {| results := [];
     index := Nat.min (concurrency this) (length tasks);
     this_running := running this + Z.of_nat (Nat.min (concurrency this) (length tasks));
     workers := map (fun i => Awaiting i false)
                    (seq 0 (Nat.min (concurrency this) (length tasks)));
     events := map Start (seq 0 (Nat.min (concurrency this) (length tasks))) |}.
Proof. unfold run_begin. rewrite spawn_spec by (simpl; lia). reflexivity. Qed.

Lemma lookup_awaiting_seq (n w : nat) worker :
  map (fun i => Awaiting i false) (seq 0 n) !! w = Some worker ->
  w < n /\ worker = Awaiting w false.
Proof.
  rewrite lookup_map. intros H.
  destruct (seq 0 n !! w) as [i|] eqn:Hi; [| discriminate].
  apply lookup_seq in Hi as [-> Hw]. simpl in H. injection H as <-. now split.
Qed.

Lemma starts_app events1 events2 :
  starts (events1 ++ events2) = starts events1 ++ starts events2.
Proof. unfold starts. apply omap_app. Qed.

Lemma starts_map_Start (l : list nat) : starts (map Start l) = l.
Proof. induction l as [|i l IH]; [reflexivity|]. change (i :: starts (map Start l) = i :: l). now rewrite IH. Qed.

Lemma run_begin_invariant this tasks : invariant this tasks (run_begin this tasks).
Proof.
  rewrite run_begin_spec. set (n := Nat.min (concurrency this) (length tasks)).
  constructor; simpl.
  - lia.
  - now rewrite length_map, length_seq.
  - intros w i threw Hw. apply lookup_awaiting_seq in Hw as [Hw Heq].
    injection Heq as -> _. exact Hw.
  - intros w1 w2 i threw1 threw2 H1 H2.
    apply lookup_awaiting_seq in H1 as [_ Heq1], H2 as [_ Heq2]. congruence.
  - intros i Hi Hnot. exfalso. apply Hnot. exists i, false.
    rewrite lookup_map, lookup_seq_lt by exact Hi. reflexivity.
  - intros i _. reflexivity.
  - lia.
  - now rewrite busy_awaiting.
  - now rewrite busy_awaiting, active_starts.
  - unfold peak. rewrite peak_from_starts. lia.
  - apply starts_map_Start.
  - intros w threw Hw. apply lookup_awaiting_seq in Hw as [_ Heq]. discriminate.
  - split.
    + intros (w & worker & Hw & Hflag).
      apply lookup_awaiting_seq in Hw as [_ ->]. discriminate.
    + intros (i & settlement & Hi & Hnot & _). exfalso. apply Hnot. exists i, false.
      simpl in *. rewrite lookup_map, lookup_seq_lt by exact Hi. reflexivity.
Qed.

(** *** One settlement *)

Lemma resume_cases tasks w s s' :
  resume tasks w s = Some s' ->
  exists i threw settlement results' threw',
    workers s !! w = Some (Awaiting i threw)
    /\ tasks !! i = Some settlement
    /\ match stored settlement with
       | Some slot => results' = array_set (results s) i slot /\ threw' = threw
       | None => results' = results s /\ threw' = true
       end
    /\ s' = if decide (length tasks <= index s)
            then {| results := results';
                    index := index s;
                    this_running := this_running s - 1;
                    workers := <[w := Done threw']> (workers s);
                    events := events s ++ [Finish i] |}
            else {| results := results';
                    index := S (index s);
                    this_running := this_running s - 1 + 1;
                    workers := <[w := Awaiting (index s) threw']> (workers s);
                    events := (events s ++ [Finish i]) ++ [Start (index s)] |}.
Proof.
  unfold resume. intros Hstep.
  destruct (workers s !! w) as [[i threw | threw] |] eqn:Hw; try discriminate.
  destruct (tasks !! i) as [settlement |] eqn:Hi; try discriminate.
  exists i, threw, settlement.
  destruct (stored settlement) as [slot |] eqn:Hstored.
  - exists (array_set (results s) i slot), threw.
    split; [reflexivity|]. split; [exact Hi|]. split; [now split|].
    unfold executeNext in Hstep. simpl in Hstep.
    destruct (decide (length tasks <= index s)); injection Hstep as <-; reflexivity.
  - exists (results s), true.
    split; [reflexivity|]. split; [exact Hi|]. split; [now split|].
    unfold executeNext in Hstep. simpl in Hstep.
    destruct (decide (length tasks <= index s)); injection Hstep as <-; reflexivity.
Qed.

Lemma awaits_insert workers w i threw new j :
  workers !! w = Some (Awaiting i threw) ->
  (forall w2 threw2, workers !! w2 = Some (Awaiting i threw2) -> w2 = w) ->
  awaits (<[w := new]> workers) j <->
  (awaits workers j /\ j <> i) \/ (exists threw', new = Awaiting j threw').
Proof.
  intros Hw Hsingle. unfold awaits. split.
  - intros (w' & threw' & Hw'). destruct (decide (w' = w)) as [-> | Hne].
    + rewrite list_lookup_insert_eq in Hw' by (eapply lookup_lt_Some; eauto).
      right. exists threw'. congruence.
    + rewrite list_lookup_insert_ne in Hw' by congruence.
      left. split; [eauto|]. intros ->. apply Hne. eauto.
  - intros [[(w' & threw' & Hw') Hne] | (threw' & ->)].
    + exists w', threw'. rewrite list_lookup_insert_ne; [exact Hw'|].
      intros <-. rewrite Hw in Hw'. congruence.
    + exists w, threw'. apply list_lookup_insert_eq. eapply lookup_lt_Some; eauto.
Qed.

Lemma flagged_insert workers w old new :
  workers !! w = Some old ->
  flagged (<[w := new]> workers) <-> flag new = true \/ flagged_besides workers w.
Proof.
  intros Hw. unfold flagged, flagged_besides. split.
  - intros (w' & worker & Hw' & Hflag). destruct (decide (w' = w)) as [-> | Hne].
    + rewrite list_lookup_insert_eq in Hw' by (eapply lookup_lt_Some; eauto).
      left. congruence.
    + rewrite list_lookup_insert_ne in Hw' by congruence. right. eauto.
  - intros [Hflag | (w' & worker & Hne & Hw' & Hflag)].
    + exists w, new. split; [| exact Hflag].
      apply list_lookup_insert_eq. eapply lookup_lt_Some; eauto.
    + exists w', worker. split; [| exact Hflag]. now rewrite list_lookup_insert_ne.
Qed.

Lemma flagged_split workers w old :
  workers !! w = Some old ->
  flagged workers <-> flag old = true \/ flagged_besides workers w.
Proof.
  intros Hw. rewrite <- (flagged_insert workers w old old Hw).
  now rewrite list_insert_id.
Qed.

(** Case analysis on the position read in an updated worker list. *)
Ltac lookup_insert_cases H w0 w Hw :=
  destruct (decide (w0 = w)) as [-> | ?];
  [ rewrite list_lookup_insert_eq in H by (eapply lookup_lt_Some; exact Hw)
  | rewrite list_lookup_insert_ne in H by congruence ].

Lemma resume_invariant this tasks w s s' :
  invariant this tasks s -> resume tasks w s = Some s' -> invariant this tasks s'.
Proof.
  intros Hinv Hstep.
  destruct (resume_cases _ _ _ _ Hstep)
    as (i & threw & settlement & results' & threw' & Hw & Hi & Hstored & Hs').
  pose proof (inv_claimed _ _ _ Hinv _ _ _ Hw) as Hclaimed.
  pose proof (inv_index _ _ _ Hinv) as Hindex.
  assert (awaits (workers s) i) as Hawaits by (exists w, threw; exact Hw).
  assert (forall w2 threw2, workers s !! w2 = Some (Awaiting i threw2) -> w2 = w) as Hsingle.
  { intros w2 threw2 Hw2. exact (inv_single _ _ _ Hinv _ _ _ _ _ Hw2 Hw). }
  assert (array_get results' i = stored settlement) as Hget.
  { destruct (stored settlement) as [slot|]; destruct Hstored as [-> ->].
    - apply array_get_set_eq.
    - apply (inv_untouched _ _ _ Hinv). now right. }
  assert (forall j, j <> i -> array_get results' j = array_get (results s) j) as Hother.
  { intros j Hj. destruct (stored settlement) as [slot|]; destruct Hstored as [-> ->].
    - now apply array_get_set_ne.
    - reflexivity. }
  assert (length results' <= index s) as Hlen.
  { pose proof (inv_length _ _ _ Hinv).
    destruct (stored settlement) as [slot|]; destruct Hstored as [-> ->].
    - rewrite length_array_set. lia.
    - assumption. }
  assert (threw' = true <-> threw = true \/ stored settlement = None) as Hthrew.
  { destruct (stored settlement) as [slot|]; destruct Hstored as [-> ->];
      intuition congruence. }
  clear Hstored Hstep.
  pose proof (busy_le (workers s)) as Hbusy.
  pose proof (inv_workers _ _ _ Hinv) as Hworkers.
  pose proof (inv_running _ _ _ Hinv) as Hrunning.
  pose proof (inv_active _ _ _ Hinv) as Hactive.
  pose proof (inv_peak _ _ _ Hinv) as Hpeak.
  pose proof (inv_starts _ _ _ Hinv) as Hstarts.
  destruct (decide (length tasks <= index s)) as [Hdone | Hmore]; subst s'.
  - (* no task is left: the worker completes *)
    pose proof (busy_insert _ _ _ (Done threw') Hw) as Hbusy'. simpl in Hbusy'.
    assert (forall j, awaits (<[w := Done threw']> (workers s)) j
                      <-> awaits (workers s) j /\ j <> i) as Hawaits'.
    { intros j. rewrite (awaits_insert _ _ _ _ _ _ Hw Hsingle).
      split; [intros [H | (t & H)]; [exact H | discriminate] | now left]. }
    constructor; cbn [results index this_running workers events].
    + exact Hindex.
    + now rewrite length_insert.
    + intros w0 i0 threw0 H0. lookup_insert_cases H0 w0 w Hw; [discriminate|].
      exact (inv_claimed _ _ _ Hinv _ _ _ H0).
    + intros w1 w2 i0 threw1 threw2 H1 H2.
      lookup_insert_cases H1 w1 w Hw; [discriminate|].
      lookup_insert_cases H2 w2 w Hw; [discriminate|].
      exact (inv_single _ _ _ Hinv _ _ _ _ _ H1 H2).
    + intros j Hj Hnot. destruct (decide (j = i)) as [-> | Hne].
      * now rewrite Hget, Hi.
      * rewrite Hother by exact Hne. apply (inv_handled _ _ _ Hinv); [exact Hj|].
        intros Hj'. apply Hnot, Hawaits'. now split.
    + intros j Hj. assert (j <> i) as Hne.
      { destruct Hj as [Hj | Hj]; [lia | apply Hawaits' in Hj; tauto]. }
      rewrite Hother by exact Hne. apply (inv_untouched _ _ _ Hinv).
      destruct Hj as [Hj | Hj]; [now left | right; apply Hawaits' in Hj; tauto].
    + exact Hlen.
    + lia.
    + rewrite active_app, active_single. simpl. lia.
    + rewrite peak_snoc, active_app, active_single. simpl. lia.
    + rewrite starts_app. change (starts [Finish i]) with (@nil nat). now rewrite app_nil_r.
    + intros _ _ _. exact Hdone.
    + rewrite (flagged_insert _ _ _ (Done threw') Hw). simpl.
      rewrite Hthrew.
      pose proof (flagged_split _ _ _ Hw) as Hsplit. simpl in Hsplit.
      pose proof (inv_flagged _ _ _ Hinv) as Hflagged.
      unfold poisoned in *. cbn [results index this_running workers events]. split.
      * intros [[Hold | Hnew] | Hrest].
        -- assert (flagged (workers s)) as Hf by (apply Hsplit; now left).
           apply Hflagged in Hf as (j & st & Hj & Hnot & Hst & Hnone).
           exists j, st. repeat split; try assumption.
           intros Hj'. apply Hawaits' in Hj'. tauto.
        -- exists i, settlement. repeat split; try assumption.
           intros Hi'. apply Hawaits' in Hi'. tauto.
        -- assert (flagged (workers s)) as Hf by (apply Hsplit; now right).
           apply Hflagged in Hf as (j & st & Hj & Hnot & Hst & Hnone).
           exists j, st. repeat split; try assumption.
           intros Hj'. apply Hawaits' in Hj'. tauto.
      * intros (j & st & Hj & Hnot & Hst & Hnone).
        destruct (decide (j = i)) as [-> | Hne].
        -- left. right. congruence.
        -- assert (flagged (workers s)) as Hf.
           { apply Hflagged. exists j, st. repeat split; try assumption.
             intros Hj'. apply Hnot, Hawaits'. now split. }
           apply Hsplit in Hf. tauto.
  - (* the worker claims the next task *)
    pose proof (busy_insert _ _ _ (Awaiting (index s) threw') Hw) as Hbusy'. simpl in Hbusy'.
    assert (forall j, awaits (<[w := Awaiting (index s) threw']> (workers s)) j
                      <-> (awaits (workers s) j /\ j <> i) \/ j = index s) as Hawaits'.
    { intros j. rewrite (awaits_insert _ _ _ _ _ _ Hw Hsingle).
      split; (intros [H | H]; [now left | right]).
      - destruct H as (t & H). congruence.
      - subst j. now exists threw'. }
    assert (forall j, awaits (workers s) j -> j < index s) as Hbelow.
    { intros j (w0 & t0 & H0). exact (inv_claimed _ _ _ Hinv _ _ _ H0). }
    constructor; cbn [results index this_running workers events].
    + lia.
    + now rewrite length_insert.
    + intros w0 i0 threw0 H0. lookup_insert_cases H0 w0 w Hw.
      * injection H0 as <- _. lia.
      * pose proof (inv_claimed _ _ _ Hinv _ _ _ H0). lia.
    + intros w1 w2 i0 threw1 threw2 H1 H2.
      lookup_insert_cases H1 w1 w Hw; lookup_insert_cases H2 w2 w Hw.
      * reflexivity.
      * injection H1 as <- _. pose proof (inv_claimed _ _ _ Hinv _ _ _ H2). lia.
      * injection H2 as <- _. pose proof (inv_claimed _ _ _ Hinv _ _ _ H1). lia.
      * exact (inv_single _ _ _ Hinv _ _ _ _ _ H1 H2).
    + intros j Hj Hnot.
      assert (j <> index s) as Hne' by (intros ->; apply Hnot, Hawaits'; now right).
      destruct (decide (j = i)) as [-> | Hne].
      * now rewrite Hget, Hi.
      * rewrite Hother by exact Hne. apply (inv_handled _ _ _ Hinv); [lia|].
        intros Hj'. apply Hnot, Hawaits'. left. now split.
    + intros j Hj. assert (j <> i) as Hne.
      { destruct Hj as [Hj | Hj]; [lia | apply Hawaits' in Hj; destruct Hj; [tauto | lia]]. }
      rewrite Hother by exact Hne. apply (inv_untouched _ _ _ Hinv).
      destruct Hj as [Hj | Hj]; [left; lia|].
      apply Hawaits' in Hj. destruct Hj as [[Hj _] | ->]; [now right | now left].
    + lia.
    + lia.
    + rewrite !active_app, !active_single. simpl. lia.
    + rewrite peak_snoc, !active_app, peak_snoc, active_app, !active_single. simpl. lia.
    + rewrite !starts_app, Hstarts. change (starts [Finish i]) with (@nil nat).
      change (starts [Start (index s)]) with [index s]. now rewrite app_nil_r, seq_S.
    + intros w0 threw0 H0. lookup_insert_cases H0 w0 w Hw; [discriminate|].
      pose proof (inv_done _ _ _ Hinv _ _ H0). lia.
    + rewrite (flagged_insert _ _ _ (Awaiting (index s) threw') Hw). simpl.
      rewrite Hthrew.
      pose proof (flagged_split _ _ _ Hw) as Hsplit. simpl in Hsplit.
      pose proof (inv_flagged _ _ _ Hinv) as Hflagged.
      unfold poisoned in *. cbn [results index this_running workers events]. split.
      * intros [[Hold | Hnew] | Hrest].
        -- assert (flagged (workers s)) as Hf by (apply Hsplit; now left).
           apply Hflagged in Hf as (j & st & Hj & Hnot & Hst & Hnone).
           exists j, st. repeat split; try assumption; [lia|].
           intros Hj'. apply Hawaits' in Hj'. destruct Hj'; [tauto | lia].
        -- exists i, settlement. repeat split; try assumption; [lia|].
           intros Hi'. apply Hawaits' in Hi'. destruct Hi'; [tauto | lia].
        -- assert (flagged (workers s)) as Hf by (apply Hsplit; now right).
           apply Hflagged in Hf as (j & st & Hj & Hnot & Hst & Hnone).
           exists j, st. repeat split; try assumption; [lia|].
           intros Hj'. apply Hawaits' in Hj'. destruct Hj'; [tauto | lia].
      * intros (j & st & Hj & Hnot & Hst & Hnone).
        assert (j <> index s) as Hne' by (intros ->; apply Hnot, Hawaits'; now right).
        destruct (decide (j = i)) as [-> | Hne].
        -- left. right. congruence.
        -- assert (flagged (workers s)) as Hf.
           { apply Hflagged. exists j, st. repeat split; try assumption; [lia|].
             intros Hj'. apply Hnot, Hawaits'. left. now split. }
           apply Hsplit in Hf. tauto.
Qed.

(** Every settlement handles one task. *)
Lemma resume_work this tasks w s s' :
  invariant this tasks s -> resume tasks w s = Some s' ->
  remaining_work tasks s' + 1 = remaining_work tasks s.
Proof.
  intros Hinv Hstep.
  destruct (resume_cases _ _ _ _ Hstep)
    as (i & threw & settlement & results' & threw' & Hw & _ & _ & Hs').
  pose proof (inv_index _ _ _ Hinv) as Hindex.
  unfold remaining_work.
  destruct (decide (length tasks <= index s)) as [Hdone | Hmore]; subst s'; simpl.
  - pose proof (busy_insert _ _ _ (Done threw') Hw) as Hbusy. simpl in Hbusy. lia.
  - pose proof (busy_insert _ _ _ (Awaiting (index s) threw') Hw) as Hbusy.
    simpl in Hbusy. lia.
Qed.

(** *** Executions *)

Lemma exec_invariant this tasks schedule s s' :
  invariant this tasks s -> exec tasks schedule s = Some s' ->
  invariant this tasks s'
  /\ remaining_work tasks s' + length schedule = remaining_work tasks s.
Proof.
  revert s; induction schedule as [|w schedule IH]; intros s Hinv Hexec; simpl in *.
  - injection Hexec as <-. split; [exact Hinv | lia].
  - destruct (resume tasks w s) as [s1|] eqn:Hstep; [| discriminate].
    destruct (IH s1 (resume_invariant _ _ _ _ _ Hinv Hstep) Hexec) as [Hinv' Hwork].
    split; [exact Hinv'|]. pose proof (resume_work _ _ _ _ _ Hinv Hstep). lia.
Qed.

Lemma run_begin_work this tasks :
  1 <= concurrency this ->
  remaining_work tasks (run_begin this tasks) = length tasks.
Proof.
  intros Hk. rewrite run_begin_spec. unfold remaining_work; simpl.
  rewrite busy_awaiting. lia.
Qed.

(** A task in flight can always settle: no execution is stuck. *)
Lemma progress this tasks s :
  invariant this tasks s -> quiescent s = false ->
  exists w s', resume tasks w s = Some s'.
Proof.
  intros Hinv Hbusy.
  assert (exists w i threw, workers s !! w = Some (Awaiting i threw)) as (w & i & threw & Hw).
  { unfold quiescent in Hbusy.
    induction (workers s) as [|worker workers IH]; [discriminate|].
    simpl in Hbusy. destruct worker as [i threw | threw]; simpl in Hbusy.
    - now exists 0, i, threw.
    - destruct (IH Hbusy) as (w & i & threw' & Hw). now exists (S w), i, threw'. }
  pose proof (inv_claimed _ _ _ Hinv _ _ _ Hw) as Hi.
  pose proof (inv_index _ _ _ Hinv) as Hindex.
  destruct (lookup_lt_is_Some_2 tasks i) as [settlement Hsettlement]; [lia|].
  exists w. unfold resume. rewrite Hw, Hsettlement.
  destruct (stored settlement); destruct (executeNext _ _ _); eauto.
Qed.

(** When nothing is in flight every task has been claimed. *)
Lemma quiescent_all_claimed this tasks s :
  1 <= concurrency this ->
  invariant this tasks s -> quiescent s = true -> index s = length tasks.
Proof.
  intros Hk Hinv Hq. pose proof (inv_index _ _ _ Hinv) as Hindex.
  destruct (decide (length tasks = 0)) as [Hzero | Hpos]; [lia|].
  destruct (lookup_lt_is_Some_2 (workers s) 0) as [worker Hworker].
  { rewrite (inv_workers _ _ _ Hinv). lia. }
  destruct worker as [i threw | threw].
  - exfalso. apply (proj1 (quiescent_no_awaits s) Hq i). now exists 0, threw.
  - pose proof (inv_done _ _ _ Hinv _ _ Hworker). lia.
Qed.

(** Once every task is handled, slot [i] holds what the [try]/[catch]
    made of task [i], whatever the other tasks did. *)
Lemma quiescent_slots this tasks s i :
  1 <= concurrency this ->
  invariant this tasks s -> quiescent s = true ->
  array_get (results s) i = tasks !! i ≫= stored.
Proof.
  intros Hk Hinv Hq.
  pose proof (quiescent_all_claimed _ _ _ Hk Hinv Hq) as Hindex.
  destruct (decide (i < length tasks)) as [Hi | Hi].
  - apply (inv_handled _ _ _ Hinv); [lia|]. exact (proj1 (quiescent_no_awaits s) Hq i).
  - rewrite (lookup_ge_None_2 tasks i) by lia. simpl.
    apply array_get_beyond. pose proof (inv_length _ _ _ Hinv). lia.
Qed.

Lemma quiescent_results this tasks s :
  1 <= concurrency this ->
  invariant this tasks s -> quiescent s = true ->
  Forall (fun settlement => stored settlement <> None) tasks ->
  results s = map stored tasks.
Proof.
  intros Hk Hinv Hq Hall.
  pose proof (quiescent_all_claimed _ _ _ Hk Hinv Hq) as Hindex.
  pose proof (inv_length _ _ _ Hinv) as Hlen.
  apply list_eq. intros i. rewrite lookup_map.
  pose proof (quiescent_slots _ _ _ i Hk Hinv Hq) as Hslot.
  destruct (tasks !! i) as [settlement|] eqn:Hi; simpl in *.
  - rewrite Forall_forall in Hall.
    assert (stored settlement <> None) as Hstored.
    { apply Hall, list_elem_of_lookup. eauto. }
    destruct (stored settlement) as [slot|]; [| contradiction].
    now apply array_get_Some.
  - apply lookup_ge_None_2. apply lookup_ge_None_1 in Hi. lia.
Qed.

Lemma not_flagged_outcome s :
  ~ flagged (workers s) ->
  outcome s = if quiescent s then Returns (results s) else Unsettled.
Proof.
  intros Hnot. unfold outcome, quiescent.
  assert (forall worker, In worker (workers s) -> flag worker = false) as Hflags.
  { intros worker Hin. apply list_elem_of_In, list_elem_of_lookup in Hin as [w Hw].
    destruct (flag worker) eqn:Hflag; [| reflexivity].
    exfalso. apply Hnot. now exists w, worker. }
  clear Hnot. induction (workers s) as [|worker workers IH]; [reflexivity|].
  simpl. pose proof (Hflags worker (or_introl eq_refl)) as Hflag.
  assert (forall worker', In worker' workers -> flag worker' = false) as Hrest
    by (intros; apply Hflags; now right).
  specialize (IH Hrest).
  destruct worker as [i threw | threw]; simpl in *; subst threw; simpl.
  - destruct (existsb has_thrown workers); [| reflexivity].
    destruct (forallb _ workers); discriminate.
  - exact IH.
Qed.

Lemma flagged_outcome s :
  flagged (workers s) -> quiescent s = true -> outcome s = Throws.
Proof.
  intros (w & worker & Hw & Hflag) Hq. unfold outcome.
  assert (existsb has_thrown (workers s) = true) as ->; [| reflexivity].
  apply existsb_exists. exists worker. split.
  - apply list_elem_of_In, list_elem_of_lookup. eauto.
  - destruct worker as [i threw | threw]; simpl in *; subst threw; [| reflexivity].
    exfalso. apply (proj1 (quiescent_no_awaits s) Hq i). eexists _, _; exact Hw.
Qed.

Lemma storable_not_poisoned tasks s :
  Forall (fun settlement => stored settlement <> None) tasks -> ~ poisoned tasks s.
Proof.
  rewrite Forall_forall. intros Hall (i & settlement & _ & _ & Hi & Hnone).
  apply (Hall settlement); [| exact Hnone].
  apply list_elem_of_lookup. eauto.
Qed.

(** Every run can be completed: tasks in flight keep settling until
    nothing is left. *)
Lemma completion_exists this tasks s :
  invariant this tasks s ->
  exists schedule s', exec tasks schedule s = Some s' /\ quiescent s' = true.
Proof.
  remember (remaining_work tasks s) as n eqn:Hn.
  revert s Hn; induction n as [n IH] using lt_wf_ind; intros s Hn Hinv.
  destruct (quiescent s) eqn:Hq.
  - exists [], s. now split.
  - destruct (progress _ _ _ Hinv Hq) as (w & s1 & Hstep).
    pose proof (resume_work _ _ _ _ _ Hinv Hstep) as Hwork.
    destruct (IH (remaining_work tasks s1) ltac:(lia) s1 eq_refl
                 (resume_invariant _ _ _ _ _ Hinv Hstep))
      as (schedule & s' & Hexec & Hq').
    exists (w :: schedule), s'. simpl. rewrite Hstep. now split.
Qed.

(** A rejection that the [catch] clause cannot record makes the completed
    run throw, whatever the other tasks are; every other slot is filled
    all the same. *)
Lemma unrecorded_rejection_throws this tasks schedule s j settlement :
  1 <= concurrency this ->
  tasks !! j = Some settlement -> stored settlement = None ->
  exec tasks schedule (run_begin this tasks) = Some s ->
  quiescent s = true ->
  outcome s = Throws
  /\ forall i, array_get (results s) i = tasks !! i ≫= stored.
Proof.
  intros Hk Hj Hnone Hexec Hq.
  destruct (exec_invariant _ _ _ _ _ (run_begin_invariant this tasks) Hexec) as [Hinv _].
  pose proof (quiescent_all_claimed _ _ _ Hk Hinv Hq) as Hindex.
  split.
  - apply flagged_outcome; [| exact Hq]. apply (inv_flagged _ _ _ Hinv).
    exists j, settlement. rewrite Hindex. repeat split; try assumption.
    + eapply lookup_lt_Some; exact Hj.
    + exact (proj1 (quiescent_no_awaits s) Hq j).
  - intros i. exact (quiescent_slots _ _ _ i Hk Hinv Hq).
Qed.

End RunnerFacts.

(** For every list of tasks whose settlements the runner can record and
    every concurrency of at least 1: whatever the order in which the tasks
    settle, a run takes at most one settlement per task, is never stuck
    while a task is in flight, can always be completed, and once nothing
    is in flight [run] returns an array of exactly as many elements as
    there are tasks, the i-th being what the i-th task produced: its value,
    or the placeholder with the message of its rejection.  Without tasks
    it returns the empty array at once. *)
Lemma recordable_run_preserves_order (T : Type) (this : t) (tasks : list (Settlement T)) :
  1 <= concurrency this ->
  Forall (fun settlement => stored settlement <> None) tasks ->
  (forall schedule s,
     exec tasks schedule (run_begin this tasks) = Some s ->
     length schedule <= length tasks
     /\ (quiescent s = false ->
         outcome s = Unsettled /\ exists w s', resume tasks w s = Some s')
     /\ (quiescent s = true ->
         length schedule = length tasks
         /\ outcome s = Returns (map stored tasks)
         /\ length (map stored tasks) = length tasks
         /\ (forall i value,
               tasks !! i = Some (Fulfilled value) ->
               array_get (results s) i = Some (Value value))
         /\ (forall i error,
               tasks !! i = Some (Rejected error) ->
               exists message,
                 message_of error = Some message
                 /\ array_get (results s) i = Some (ErrorPlaceholder message))))
  /\ (exists schedule s,
        exec tasks schedule (run_begin this tasks) = Some s /\ quiescent s = true)
  /\ (tasks = [] -> outcome (run_begin this tasks) = Returns []).
Proof.
  intros Hk Hall. split; [| split].
  - intros schedule s Hexec.
    destruct (exec_invariant _ _ _ _ _ (run_begin_invariant this tasks) Hexec)
      as [Hinv Hwork].
    rewrite run_begin_work in Hwork by exact Hk.
    assert (~ flagged (workers s)) as Hclean.
    { rewrite (inv_flagged _ _ _ Hinv). now apply storable_not_poisoned. }
    pose proof (not_flagged_outcome s Hclean) as Houtcome.
    split; [lia|]. split.
    + intros Hq. rewrite Hq in Houtcome. split; [exact Houtcome|].
      exact (progress _ _ _ Hinv Hq).
    + intros Hq. rewrite Hq in Houtcome.
      rewrite (quiescent_results _ _ _ Hk Hinv Hq Hall) in Houtcome.
      assert (remaining_work tasks s = 0) as Hzero.
      { unfold remaining_work.
        rewrite (quiescent_all_claimed _ _ _ Hk Hinv Hq).
        rewrite (proj1 (quiescent_busy s) Hq). lia. }
      split; [lia|]. split; [exact Houtcome|]. split; [apply length_map|].
      pose proof (fun i => quiescent_slots _ _ _ i Hk Hinv Hq) as Hslots.
      split.
      * intros i value Hi. now rewrite Hslots, Hi.
      * intros i error Hi. rewrite Forall_forall in Hall.
        assert (stored (Rejected error) <> None) as Hstored
          by (apply Hall, list_elem_of_lookup; eauto).
        rewrite Hslots, Hi. simpl in *.
        destruct (message_of error) as [message|]; [| contradiction].
        now exists message.
  - exact (completion_exists _ _ _ (run_begin_invariant this tasks)).
  - intros ->. rewrite run_begin_spec. simpl. now rewrite Nat.min_0_r.
Qed.

(** C2 (the code, and the inputs at which it fails). For every list of
    tasks, every concurrency of at least 1 and every order in which the
    tasks settle, a run can be completed, and once nothing is in flight
    the slot of every task holds what the [try] or the [catch] clause
    could store for it.  [run] returns the array of these, exactly one
    element per task and the i-th from the i-th task, when every
    settlement can be stored; as soon as one task rejects with [null] or
    [undefined], reading [error.message] throws in the [catch] clause and
    the completed run throws instead of returning.  Without tasks it
    returns the empty array at once. *)
Theorem run_preserves_order_or_throws (T : Type) (this : t) (tasks : list (Settlement T)) :
  1 <= concurrency this ->
  (forall schedule s,
     exec tasks schedule (run_begin this tasks) = Some s ->
     quiescent s = true ->
     (forall i, array_get (results s) i = tasks !! i ≫= stored)
     /\ (Forall (fun settlement => stored settlement <> None) tasks ->
         outcome s = Returns (map stored tasks)
         /\ length (map stored tasks) = length tasks)
     /\ (forall j settlement,
           tasks !! j = Some settlement -> stored settlement = None ->
           outcome s = Throws))
  /\ (exists schedule s,
        exec tasks schedule (run_begin this tasks) = Some s /\ quiescent s = true)
  /\ (tasks = [] -> outcome (run_begin this tasks) = Returns []).
Proof.
  intros Hk. split; [| split].
  - intros schedule s Hexec Hq.
    destruct (exec_invariant _ _ _ _ _ (run_begin_invariant this tasks) Hexec)
      as [Hinv _].
    split; [intros i; exact (quiescent_slots _ _ _ i Hk Hinv Hq)|]. split.
    + intros Hall.
      assert (~ flagged (workers s)) as Hclean.
      { rewrite (inv_flagged _ _ _ Hinv). now apply storable_not_poisoned. }
      pose proof (not_flagged_outcome s Hclean) as Houtcome. rewrite Hq in Houtcome.
      rewrite (quiescent_results _ _ _ Hk Hinv Hq Hall) in Houtcome.
      split; [exact Houtcome|apply length_map].
    + intros j settlement Hj Hnone.
      exact (proj1 (unrecorded_rejection_throws this tasks schedule s j settlement
                      Hk Hj Hnone Hexec Hq)).
  - exact (completion_exists _ _ _ (run_begin_invariant this tasks)).
  - intros ->. rewrite run_begin_spec. simpl. now rewrite Nat.min_0_r.
Qed.

Lemma run_preserves_order_or_throws_witness :
  exists s,
    1 <= concurrency (constructor (Some 2))
    /\ exec Samples.unrecorded_tasks [1; 0; 1]
         (run_begin (constructor (Some 2)) Samples.unrecorded_tasks) = Some s
    /\ quiescent s = true
    /\ Samples.unrecorded_tasks !! 1 = Some (Rejected Nullish)
    /\ outcome s = Throws
    /\ array_get (results s) 0 = Some (Value 10)
    /\ array_get (results s) 2 = Some (Value 30).
Proof.
  eexists.
  assert (1 <= concurrency (constructor (Some 2))) as Hk by (simpl; lia).
  split; [exact Hk|]. split; [vm_compute; reflexivity|]. split; [reflexivity|].
  split; [reflexivity|].
  destruct (proj1 (run_preserves_order_or_throws nat (constructor (Some 2))
                     Samples.unrecorded_tasks Hk) [1; 0; 1] _ eq_refl eq_refl)
    as (Hslots & _ & Hthrows).
  split; [exact (Hthrows 1 (Rejected Nullish) eq_refl eq_refl)|].
  split; [exact (Hslots 0)|exact (Hslots 2)].
Defined.

(** C3 (as stated, refuted). The fan-out of an aggregation over nine
    stored credentials has nine upstream calls under way at once, more
    than the ceiling 8 of the task runner. *)
Lemma fan_out_exceeds_ceiling :
  ~ (peak (fanout_events Samples.nine_entries (seq 0 9))
     <= Z.of_nat (concurrency taskRunner))%Z.
Proof. vm_compute. intros H. apply H. reflexivity. Qed.

(** C3 (amended). During a run of the task runner, whatever the order in
    which the tasks settle, the number of tasks in flight never exceeds
    the concurrency of the runner, and the [running] field counts them.
    The aggregation does not go through the runner: its fan-out starts one
    upstream call per stored credential before any answer is handled, so
    the number of simultaneous upstream calls reaches the number of stored
    credentials, each of which gets its request. *)
Theorem runner_ceiling_fan_out_unbounded :
  (forall (T : Type) (this : t) (tasks : list (Settlement T)) schedule s,
     exec tasks schedule (run_begin this tasks) = Some s ->
     (peak (events s) <= Z.of_nat (concurrency this))%Z
     /\ (0 <= active (events s) <= Z.of_nat (concurrency this))%Z
     /\ this_running s = (running this + active (events s))%Z)
  /\ (forall keyEntries completion,
        peak (fanout_events keyEntries completion) = Z.of_nat (length keyEntries))
  /\ (forall w fx,
        length (requests (snd (getAggregatedData w fx)))
        = length (requests fx) + length (kv fx)).
Proof.
  split; [| split].
  - intros T this tasks schedule s Hexec.
    destruct (exec_invariant _ _ _ _ _ (run_begin_invariant this tasks) Hexec)
      as [Hinv _].
    pose proof (inv_peak _ _ _ Hinv). pose proof (inv_active _ _ _ Hinv) as Hactive.
    pose proof (inv_running _ _ _ Hinv). pose proof (inv_workers _ _ _ Hinv).
    pose proof (busy_le (workers s)). rewrite Hactive. lia.
  - intros keyEntries completion. unfold fanout_events, peak.
    rewrite peak_from_app, peak_from_starts, peak_from_finishes, active_starts. lia.
  - intros w fx. destruct (kv fx) as [|entry keyEntries] eqn:Hkv.
    + rewrite (getAggregatedData_empty w fx Hkv). simpl. lia.
    + destruct (getAggregatedData_run w fx) as (results & lines & Hrun & _ & _);
        [congruence|].
      rewrite Hrun. simpl. rewrite length_app, length_map, Hkv. reflexivity.
Qed.

Lemma runner_ceiling_fan_out_unbounded_witness :
  exists s,
    exec Samples.three_tasks [1; 0] (run_begin (constructor (Some 2)) Samples.three_tasks) = Some s
    /\ (peak (events s) <= 2)%Z.
Proof.
  eexists. split; [vm_compute; reflexivity|].
  apply (proj1 runner_ceiling_fan_out_unbounded nat (constructor (Some 2)) Samples.three_tasks [1; 0]).
  reflexivity.
Defined.

(** C5 (the code at the failing input). When the first of two tasks
    rejects with [null], reading [error.message] in the [catch] clause
    throws: nothing is stored in slot 0, and although the second task
    still runs and its value is stored in slot 1, [run] throws instead of
    returning the array, in whatever order the two tasks settle. *)
Theorem nullish_rejection_rejects_run (schedule : list nat) (s : State nat) :
  exec Samples.nullish_tasks schedule (run_begin taskRunner Samples.nullish_tasks) = Some s ->
  quiescent s = true ->
  outcome s = Throws
  /\ array_get (results s) 0 = None
  /\ array_get (results s) 1 = Some (Value 1).
Proof.
  intros Hexec Hq.
  assert (1 <= concurrency taskRunner) as Hk by (simpl; lia).
  destruct (unrecorded_rejection_throws taskRunner Samples.nullish_tasks schedule s
              0 (Rejected Nullish) Hk eq_refl eq_refl Hexec Hq) as [Hthrows Hslots].
  split; [exact Hthrows|]. split.
  - exact (Hslots 0).
  - exact (Hslots 1).
Qed.

Lemma nullish_rejection_rejects_run_witness :
  exists s,
    exec Samples.nullish_tasks [0; 1] (run_begin taskRunner Samples.nullish_tasks) = Some s
    /\ outcome s = Throws
    /\ array_get (results s) 1 = Some (Value 1).
Proof.
  eexists. split; [vm_compute; reflexivity|].
  destruct (nullish_rejection_rejects_run [0; 1] _ eq_refl eq_refl) as (H1 & _ & H2).
  now split.
Defined.

(** ** Copying the selected keys *)

Lemma copied_lines (tasks : list (Settlement BatchCopy.Copied)) :
  Forall (fun settlement => stored settlement <> None) tasks ->
  map BatchCopy.joined (BatchCopy.keys (map stored tasks)) = omap BatchCopy.line tasks.
Proof.
  unfold BatchCopy.keys. induction 1 as [|settlement tasks Hstored _ IH]; [reflexivity|].
  destruct settlement as [[key| |]|error]; cbn in *; try (now rewrite IH).
  destruct (message_of error) as [message|]; [|contradiction]. cbn. now rewrite IH.
Qed.

(** X27. [batchCopyKeys] copies a placeholder for every download that
    failed with an exception: when [taskRunner.run] has returned, the text
    handed to the clipboard has one line per selected id in the order of
    the ids, the key for an id found in the cache or fetched, no line for
    an answer that was not [ok], and the line "[object Object]" for an id
    whose [fetch] or [json()] threw, because the runner's error record is
    not [null] and passes the filter.  Nothing is copied only when no line
    is left. *)
Theorem batch_copy_copies_error_records
    (inputs : list (option string * (Thrown + BatchCopy.FullResponse)))
    (schedule : list nat) (s : State BatchCopy.Copied) :
  let tasks := map (fun input => BatchCopy.task (fst input) (snd input)) inputs in
  Forall (fun settlement => stored settlement <> None) tasks ->
  exec tasks schedule (run_begin taskRunner tasks) = Some s ->
  quiescent s = true ->
  outcome s = Returns (results s)
  /\ map BatchCopy.joined (BatchCopy.keys (results s)) = omap BatchCopy.line tasks
  /\ BatchCopy.clipboard (results s)
     = match omap BatchCopy.line tasks with
       | [] => None
       | lines => Some (String.concat nl lines)
       end
  /\ (forall error, In (Rejected error) tasks ->
      In "[object Object]"%string (map BatchCopy.joined (BatchCopy.keys (results s)))).
Proof.
  intros tasks Hall Hexec Hq.
  assert (1 <= concurrency taskRunner) as Hk by (simpl; lia).
  destruct (exec_invariant _ _ _ _ _ (run_begin_invariant taskRunner tasks) Hexec)
    as [Hinv _].
  assert (~ flagged (workers s)) as Hclean.
  { rewrite (inv_flagged _ _ _ Hinv). now apply storable_not_poisoned. }
  pose proof (not_flagged_outcome s Hclean) as Houtcome. rewrite Hq in Houtcome.
  pose proof (quiescent_results _ _ _ Hk Hinv Hq Hall) as Hresults.
  pose proof (copied_lines tasks Hall) as Hlines. rewrite <- Hresults in Hlines.
  split; [exact Houtcome|]. split; [exact Hlines|]. split.
  - unfold BatchCopy.clipboard. rewrite <- Hlines.
    now destruct (BatchCopy.keys (results s)).
  - intros error Hin. rewrite Hlines.
    apply list_elem_of_In, list_elem_of_omap. exists (Rejected error).
    split; [now apply list_elem_of_In|reflexivity].
Qed.

Lemma batch_copy_copies_error_records_witness :
  exists s,
    Forall (fun settlement => stored settlement <> None)
      (map (fun input => BatchCopy.task (fst input) (snd input)) ServerSamples.copy_inputs)
    /\ exec (map (fun input => BatchCopy.task (fst input) (snd input)) ServerSamples.copy_inputs)
         [2; 0; 1]
         (run_begin taskRunner
            (map (fun input => BatchCopy.task (fst input) (snd input))
                 ServerSamples.copy_inputs)) = Some s
    /\ quiescent s = true
    /\ BatchCopy.clipboard (results s)
       = Some (Samples.key_a ++ nl ++ "[object Object]")%string.
Proof.
  eexists.
  assert (Forall (fun settlement => stored settlement <> None)
            (map (fun input => BatchCopy.task (fst input) (snd input))
                 ServerSamples.copy_inputs)) as Hall
    by (repeat constructor; discriminate).
  split; [exact Hall|]. split; [vm_compute; reflexivity|]. split; [reflexivity|].
  exact (proj1 (proj2 (proj2 (batch_copy_copies_error_records ServerSamples.copy_inputs
                                [2; 0; 1] _ Hall eq_refl eq_refl)))).
Defined.
